(** * Sequence-space Jacobians: the dictionary algebra of [jacobian.py]

    A shallow embedding of [src/jacobian.py] and the properties of its
    nested-dictionary Jacobian algebra: chain-rule composition, application
    to values, dense packing, graph construction and forward accumulation.

    Python dictionaries keep insertion order and the sums of the source are
    taken in iteration order, so a dictionary is an association list with
    pairwise distinct keys.  Python exceptions are values of [result]. *)

From stdpp Require Import base option list strings gmap.

Set Implicit Arguments.
Unset Strict Implicit.

(** ** Exceptions

    [Dangling] is no Python exception: it is what the store model answers
    to a reference it does not hold, which no Python program can form. *)

Inductive exn : Type :=
  | KeyError
  | IndexError
  | ValueError (msg : string)
  | TypeError
  | CycleError
  | Dangling.

Inductive result (A : Type) : Type :=
  | Ok (a : A)
  | Raise (e : exn).
Arguments Ok {A} a.
Arguments Raise {A} e.

#[global] Instance result_fmap : FMap result := fun A B f m =>
  match m with
  | Ok a => Ok (f a)
  | Raise e => Raise e
  end.
#[global] Instance result_ret : MRet result := fun A a => Ok a.
#[global] Instance result_bind : MBind result := fun A B f m =>
  match m with
  | Ok a => f a
  | Raise e => Raise e
  end.

(** A [for] loop over a list, threading the loop state and stopping at the
    first exception. *)
Fixpoint for_each {A S : Type} (l : list A) (s : S) (body : S -> A -> result S)
  : result S :=
  match l with
  | [] => Ok s
  | x :: l' => s' ← body s x; for_each l' s' body
  end.

(** ** Python dictionaries with string keys *)

Module Dict.

Abbreviation dict V := (list (string * V)).

Section ops.
Context {V : Type}.

Definition keys (d : dict V) : list string := d.*1.

(** [d.get(k)] *)
Fixpoint get (d : dict V) (k : string) : option V :=
  match d with
  | [] => None
  | (k', v) :: d' => if decide (k = k') then Some v else get d' k
  end.

(** [k in d] *)
Definition contains (d : dict V) (k : string) : bool :=
  match get d k with Some _ => true | None => false end.

(** [d.get(k, default)] *)
Definition get_default (d : dict V) (k : string) (default : V) : V :=
  match get d k with Some v => v | None => default end.

(** [d[k]], which raises [KeyError] on a missing key *)
Definition getitem (d : dict V) (k : string) : result V :=
  match get d k with Some v => Ok v | None => Raise KeyError end.

(** [d[k] = v]: an existing key keeps its position, a new one goes last *)
Fixpoint setitem (d : dict V) (k : string) (v : V) : dict V :=
  match d with
  | [] => [(k, v)]
  | (k', v') :: d' =>
      if decide (k = k') then (k', v) :: d' else (k', v') :: setitem d' k v
  end.

(** [d.update(e)] *)
Definition update (d e : dict V) : dict V :=
  foldl (fun acc kv => setitem acc kv.1 kv.2) d e.

(** [{k: v for k, v in d.items() if keep(k)}] *)
Definition filter_keys (keep : string -> bool) (d : dict V) : dict V :=
  filter (fun kv => keep kv.1 = true) d.

(** A Python dictionary never holds a key twice. *)
Definition wf (d : dict V) : Prop := NoDup (keys d).

End ops.

Arguments keys : simpl never.

(** [{key(x): val(x) for x in l}] *)
Definition comprehension {A V : Type} (l : list A) (f : A -> string * V) : dict V :=
  foldl (fun acc x => setitem acc (f x).1 (f x).2) [] l.

Section facts.
Context {V : Type}.
Implicit Types (d e : dict V) (k : string) (v : V).

Lemma keys_nil : keys ([] : dict V) = [].
Proof. done. Qed.

Lemma keys_cons k v d : keys ((k, v) :: d) = k :: keys d.
Proof. done. Qed.

Lemma elem_of_keys_cons k' k v d : k' ∈ keys ((k, v) :: d) <-> k' = k \/ k' ∈ keys d.
Proof. rewrite keys_cons. apply elem_of_cons. Qed.

Lemma elem_of_keys_nil k : k ∈ keys ([] : dict V) <-> False.
Proof. rewrite keys_nil. apply elem_of_nil. Qed.

Lemma get_None d k : get d k = None <-> k ∉ keys d.
Proof.
  induction d as [|[k' v'] d IH]; simpl.
  - split; [intros _; apply not_elem_of_nil | done].
  - rewrite keys_cons. case_decide as Hk.
    + subst. split; [done | intros H; exfalso; apply H; left].
    + rewrite IH. rewrite not_elem_of_cons. tauto.
Qed.

Lemma get_Some_keys d k v : get d k = Some v -> k ∈ keys d.
Proof.
  intros H. destruct (decide (k ∈ keys d)) as [|Hn]; [done|].
  apply get_None in Hn. congruence.
Qed.

Lemma keys_get d k : k ∈ keys d -> exists v, get d k = Some v.
Proof.
  intros H. destruct (get d k) as [v|] eqn:E; [eauto|].
  apply get_None in E. done.
Qed.

Lemma contains_true d k : contains d k = true <-> k ∈ keys d.
Proof.
  unfold contains. destruct (get d k) eqn:E.
  - split; [intros _; eapply get_Some_keys; eauto | done].
  - apply get_None in E. split; [done | intros; done].
Qed.

Lemma contains_false d k : contains d k = false <-> k ∉ keys d.
Proof.
  rewrite <- contains_true. destruct (contains d k); split; done.
Qed.

Lemma get_In d k v : wf d -> (k, v) ∈ d -> get d k = Some v.
Proof.
  unfold wf, keys.
  induction d as [|[k' v'] d IH]; simpl; intros Hnd Hin.
  - by apply elem_of_nil in Hin.
  - apply NoDup_cons in Hnd as [Hk' Hnd].
    apply elem_of_cons in Hin as [Heq | Hin].
    + inversion Heq; subst. by rewrite decide_True.
    + case_decide as Hk; [|by apply IH].
      subst. exfalso. apply Hk'.
      apply list_elem_of_fmap. by exists (k', v).
Qed.

Lemma get_elem_of d k v : get d k = Some v -> (k, v) ∈ d.
Proof.
  induction d as [|[k' v'] d IH]; simpl; [done|].
  case_decide as Hk.
  - intros [= ->]. subst. left.
  - intros H. right. by apply IH.
Qed.

Lemma get_setitem d k v k' :
  get (setitem d k v) k' = if decide (k' = k) then Some v else get d k'.
Proof.
  induction d as [|[k0 v0] d IH]; simpl.
  - repeat case_decide; congruence.
  - destruct (decide (k = k0)) as [->|Hne]; simpl.
    + repeat case_decide; congruence.
    + rewrite IH. repeat case_decide; congruence.
Qed.

Lemma get_setitem_eq d k v : get (setitem d k v) k = Some v.
Proof. rewrite get_setitem. by rewrite decide_True. Qed.

Lemma get_setitem_ne d k v k' : k' ≠ k -> get (setitem d k v) k' = get d k'.
Proof. intros. rewrite get_setitem. by rewrite decide_False. Qed.

Lemma keys_setitem d k v :
  keys (setitem d k v) = if contains d k then keys d else keys d ++ [k].
Proof.
  unfold contains, keys.
  induction d as [|[k0 v0] d IH]; simpl; [done|].
  destruct (decide (k = k0)) as [->|Hne]; simpl; [done|].
  change (list_fmap _ _ fst ?l) with (l.*1). rewrite IH.
  by destruct (get d k).
Qed.

Lemma elem_of_keys_setitem d k v k' :
  k' ∈ keys (setitem d k v) <-> k' = k \/ k' ∈ keys d.
Proof.
  rewrite keys_setitem. destruct (contains d k) eqn:E.
  - apply contains_true in E. split; [tauto | intros [->|]; done].
  - rewrite elem_of_app, list_elem_of_singleton. tauto.
Qed.

Lemma wf_nil : wf ([] : dict V).
Proof. apply NoDup_nil_2. Qed.

Lemma wf_setitem d k v : wf d -> wf (setitem d k v).
Proof.
  unfold wf. intros H. rewrite keys_setitem.
  destruct (contains d k) eqn:E; [done|].
  apply contains_false in E.
  apply NoDup_app. split; [done|]. split.
  - intros x Hx Hx'. apply list_elem_of_singleton in Hx'. by subst.
  - apply NoDup_singleton.
Qed.

Lemma get_update d e k :
  get (update d e) k = match get (reverse e) k with
                       | Some v => Some v
                       | None => get d k
                       end.
Proof.
  unfold update. revert d.
  induction e as [|[k0 v0] e IH] using rev_ind; intros d; simpl; [done|].
  rewrite foldl_snoc, reverse_snoc. simpl.
  rewrite get_setitem. case_decide; [done|]. apply IH.
Qed.

Lemma get_reverse e k : wf e -> get (reverse e) k = get e k.
Proof.
  intros Hwf. destruct (get e k) as [v|] eqn:E.
  - apply get_In.
    + unfold wf, keys in *. rewrite fmap_reverse. by rewrite reverse_Permutation.
    + apply elem_of_reverse. by apply get_elem_of.
  - apply get_None. apply get_None in E.
    unfold keys in *. rewrite fmap_reverse. by rewrite elem_of_reverse.
Qed.

(** [update] on a well-formed argument: new bindings win, old ones stay. *)
Lemma get_update_wf d e k :
  wf e ->
  get (update d e) k = match get e k with
                       | Some v => Some v
                       | None => get d k
                       end.
Proof. intros H. rewrite get_update. by rewrite get_reverse. Qed.

Lemma elem_of_keys_update d e k :
  k ∈ keys (update d e) <-> k ∈ keys d \/ k ∈ keys e.
Proof.
  unfold update. revert d.
  induction e as [|[k0 v0] e IH]; intros d; simpl.
  - unfold keys. simpl. rewrite elem_of_nil. tauto.
  - rewrite IH, elem_of_keys_setitem.
    unfold keys. simpl. rewrite elem_of_cons. tauto.
Qed.

Lemma wf_update d e : wf d -> wf (update d e).
Proof.
  unfold update. revert d.
  induction e as [|[k0 v0] e IH]; intros d Hd; simpl; [done|].
  apply IH. by apply wf_setitem.
Qed.

Lemma get_filter_keys keep d k :
  get (filter_keys keep d) k = if keep k then get d k else None.
Proof.
  unfold filter_keys.
  induction d as [|[k0 v0] d IH]; [by destruct (keep k)|].
  rewrite filter_cons. simpl.
  destruct (decide (keep k0 = true)) as [E0|E0]; simpl.
  - case_decide; subst; [by rewrite E0 | done].
  - case_decide; subst; [by destruct (keep k0) | done].
Qed.

Lemma elem_of_keys_filter_keys keep d k :
  k ∈ keys (filter_keys keep d) <-> keep k = true /\ k ∈ keys d.
Proof.
  unfold keys, filter_keys. rewrite !list_elem_of_fmap. split.
  - intros [[k1 v1] [-> Hin]]. apply list_elem_of_filter in Hin as [Hk Hin].
    split; [done|]. by exists (k1, v1).
  - intros [Hk [[k1 v1] [-> Hin]]]. exists (k1, v1). split; [done|].
    by apply list_elem_of_filter.
Qed.

Lemma wf_filter_keys keep d : wf d -> wf (filter_keys keep d).
Proof.
  unfold wf, keys, filter_keys.
  induction d as [|[k0 v0] d IH]; [done|].
  rewrite fmap_cons. intros Hnd. apply NoDup_cons in Hnd as [Hk Hnd].
  rewrite filter_cons. case_decide; [rewrite fmap_cons|by apply IH].
  apply NoDup_cons. split; [|by apply IH].
  intros Hin. apply Hk.
  apply list_elem_of_fmap in Hin as [[k1 v1] [-> Hin]].
  apply list_elem_of_fmap. exists (k1, v1). split; [done|].
  by apply list_elem_of_filter in Hin as [_ Hin].
Qed.

End facts.

End Dict.

Import Dict.

(** ** Part 1: manipulating Jacobians *)

(** The operators and sequences stored in the dictionaries are Python
    objects that answer to [@] and [+=]: ndarrays, [SimpleSparse] operators
    and the [IdentityMatrix] marker.  The dictionary algebra only ever
    combines them through these two operations, in a fixed order. *)
Class Operators (V : Type) : Type := {
  IdentityMatrix : V;
  matmul : V -> V -> V;
  iadd : V -> V -> V;
}.

Section jacobians.
Context {V : Type} `{!Operators V}.

(** [compose_jacobians(jacdict2, jacdict1)] *)
Definition compose_jacobians (jacdict2 jacdict1 : dict (dict V))
  : result (dict (dict V)) :=
  for_each jacdict1 [] (fun jacdict '(output, innerjac1) =>
    let jacdict := setitem jacdict output [] in
    for_each innerjac1 jacdict (fun jacdict '(middle, jac1) =>
      let innerjac2 := get_default jacdict2 middle [] in
      for_each innerjac2 jacdict (fun jacdict '(inp, jac2) =>
        row ← getitem jacdict output;
        if contains row inp then
          old ← getitem row inp;
          Ok (setitem jacdict output
                (setitem row inp (iadd old (matmul jac1 jac2))))
        else
          Ok (setitem jacdict output
                (setitem row inp (matmul jac1 jac2)))))).

(** [chain_jacobians(jacdicts, inputs, T)] *)
Definition chain_jacobians (jacdicts : list (dict (dict V)))
    (inputs : list string) (T : nat) : result (dict (dict V)) :=
  let cumulative_jacdict :=
    comprehension inputs (fun i => (i, [(i, IdentityMatrix)])) in
  for_each jacdicts cumulative_jacdict (fun cumulative_jacdict jacdict =>
    new ← compose_jacobians cumulative_jacdict jacdict;
    Ok (update cumulative_jacdict new)).

(** [apply_jacobians(jacdict, indict)] *)
Definition apply_jacobians (jacdict : dict (dict V)) (indict : dict V)
  : result (dict V) :=
  for_each jacdict [] (fun outdict '(myout, innerjacdict) =>
    for_each innerjacdict outdict (fun outdict '(myin, jac) =>
      if contains indict myin then
        x ← getitem indict myin;
        if contains outdict myout then
          old ← getitem outdict myout;
          Ok (setitem outdict myout (iadd old (matmul jac x)))
        else
          Ok (setitem outdict myout (matmul jac x))
      else Ok outdict)).

(** ** Part 2: forward accumulation *)

(** The [inputs] argument is a list of names (derivative mode) or a
    dictionary of sequences (evaluation mode); [out] has the matching
    shape. *)
Inductive inputs_arg : Type :=
  | Names (names : list string)
  | Sequences (indict : dict V).

Inductive accumulator : Type :=
  | JacOut (out : dict (dict V))
  | SeqOut (out : dict V).

(** [set(outputs) | set(required)] when both are given *)
Definition alloutputs_of (outputs required : option (list string))
  : option (gset string) :=
  match outputs, required with
  | Some outputs, Some required =>
      Some (list_to_set outputs ∪ list_to_set required)
  | _, _ => None
  end.

(** [{k: v for k, v in curlyJ.items() if k in alloutputs}] when pruning *)
Definition prune (alloutputs : option (gset string))
    (curlyJ : dict (dict V)) : dict (dict V) :=
  match alloutputs with
  | Some all => filter_keys (fun k => bool_decide (k ∈ all)) curlyJ
  | None => curlyJ
  end.

(** [{k: out[k] for k in outputs if k in out}] *)
Definition select {A : Type} (out : dict A) (outputs : list string)
  : result (dict A) :=
  for_each outputs [] (fun res k =>
    if contains out k then v ← getitem out k; Ok (setitem res k v)
    else Ok res).

(** The state of [out] when the loop over [curlyJs] ends. *)
Definition accumulate (curlyJs : list (dict (dict V))) (inputs : inputs_arg)
    (outputs required : option (list string)) : result accumulator :=
  let alloutputs := alloutputs_of outputs required in
  let out :=
    match inputs with
    | Names names =>
        JacOut (comprehension names (fun i => (i, [(i, IdentityMatrix)])))
    | Sequences indict => SeqOut indict (* [inputs.copy()] *)
    end in
  for_each curlyJs out (fun out curlyJ =>
    let curlyJ := prune alloutputs curlyJ in
    match out with
    | JacOut out =>
        new ← compose_jacobians out curlyJ; Ok (JacOut (update out new))
    | SeqOut out =>
        new ← apply_jacobians curlyJ out; Ok (SeqOut (update out new))
    end).

(** [forward_accumulate(curlyJs, inputs, outputs, required)] *)
Definition forward_accumulate (curlyJs : list (dict (dict V)))
    (inputs : inputs_arg) (outputs required : option (list string))
  : result accumulator :=
  out ← accumulate curlyJs inputs outputs required;
  match outputs with
  | Some outputs =>
      match out with
      | JacOut out => res ← select out outputs; Ok (JacOut res)
      | SeqOut out => res ← select out outputs; Ok (SeqOut res)
      end
  | None =>
      match out, inputs with
      | JacOut out, Names names =>
          Ok (JacOut (filter_keys (fun k => bool_decide (k ∉ names)) out))
      | _, _ => Ok out
      end
  end.

End jacobians.

Arguments inputs_arg : clear implicits.
Arguments accumulator : clear implicits.

(** ** Loops that cannot raise *)

Lemma for_each_Ok {A S : Type} (f : S -> A -> S) (l : list A) (s : S) :
  for_each l s (fun s x => Ok (f s x)) = Ok (foldl f s l).
Proof. revert s. induction l as [|x l IH]; intros s; simpl; [done | apply IH]. Qed.

Lemma for_each_ext {A S : Type} (f g : S -> A -> result S) (l : list A) (s : S) :
  (forall s x, f s x = g s x) -> for_each l s f = for_each l s g.
Proof.
  intros Hfg. revert s. induction l as [|x l IH]; intros s; simpl; [done|].
  rewrite Hfg. destruct (g s x); simpl; [apply IH | done].
Qed.

Lemma for_each_app {A S : Type} (f : S -> A -> result S) (l1 l2 : list A) (s : S) :
  for_each (l1 ++ l2) s f = s' ← for_each l1 s f; for_each l2 s' f.
Proof.
  revert s. induction l1 as [|x l1 IH]; intros s; simpl; [done|].
  destruct (f s x); simpl; [apply IH | done].
Qed.

Lemma setitem_setitem {V : Type} (d : dict V) k v v' :
  setitem (setitem d k v) k v' = setitem d k v'.
Proof.
  induction d as [|[k0 v0] d IH]; simpl.
  - by rewrite decide_True.
  - destruct (decide (k = k0)) as [->|Hne]; simpl.
    + by rewrite decide_True.
    + rewrite decide_False by done. by rewrite IH.
Qed.

Lemma setitem_get_id {V : Type} (d : dict V) k v :
  get d k = Some v -> setitem d k v = d.
Proof.
  induction d as [|[k0 v0] d IH]; simpl; [done|].
  case_decide; [by intros [= ->] | intros H'; by rewrite IH].
Qed.

Lemma omap_cons_eq {A B : Type} (f : A -> option B) (x : A) (l : list A) :
  omap f (x :: l) =
  match f x with Some y => y :: omap f l | None => omap f l end.
Proof. done. Qed.

Lemma contains_Some {V : Type} (d : dict V) k v :
  get d k = Some v -> contains d k = true.
Proof. unfold contains. by intros ->. Qed.

Lemma contains_None {V : Type} (d : dict V) k :
  get d k = None -> contains d k = false.
Proof. unfold contains. by intros ->. Qed.

Lemma getitem_Some {V : Type} (d : dict V) k v :
  get d k = Some v -> getitem d k = Ok v.
Proof. unfold getitem. by intros ->. Qed.

Section algebra.
Context {V : Type} `{!Operators V}.
Implicit Types (row innerjac indict : dict V).
Implicit Types (jacdict : dict (dict V)).

(** *** Sums in iteration order *)

(** Python starts a sum at its first term and adds the others with [+=]. *)
Definition sum_of (terms : list V) : option V :=
  match terms with
  | [] => None
  | x :: terms' => Some (foldl iadd x terms')
  end.

Definition sum_from (start : option V) (terms : list V) : option V :=
  match start with
  | Some y => Some (foldl iadd y terms)
  | None => sum_of terms
  end.

Lemma sum_from_app start xs ys :
  sum_from (sum_from start xs) ys = sum_from start (xs ++ ys).
Proof.
  destruct start as [y|]; simpl; [by rewrite foldl_app|].
  destruct xs as [|x xs]; simpl; [done | by rewrite foldl_app].
Qed.

(** One [if k in d: d[k] += x else: d[k] = x] step. *)
Definition add_term (row : dict V) (k : string) (x : V) : dict V :=
  match get row k with
  | Some old => setitem row k (iadd old x)
  | None => setitem row k x
  end.

Definition terms_at (k : string) (ps : list (string * V)) : list V :=
  omap (fun p => if decide (p.1 = k) then Some p.2 else None) ps.

Lemma get_add_term row k x k' :
  get (add_term row k x) k' =
  if decide (k' = k) then sum_from (get row k) [x] else get row k'.
Proof.
  unfold add_term. destruct (get row k) eqn:E; rewrite get_setitem;
    case_decide; done.
Qed.

Lemma keys_add_term row k x k' :
  k' ∈ keys (add_term row k x) <-> k' = k \/ k' ∈ keys row.
Proof.
  unfold add_term. destruct (get row k); apply elem_of_keys_setitem.
Qed.

Lemma wf_add_term row k x : wf row -> wf (add_term row k x).
Proof. unfold add_term. destruct (get row k); apply wf_setitem. Qed.

Lemma get_add_terms ps row k :
  get (foldl (fun row p => add_term row p.1 p.2) row ps) k =
  sum_from (get row k) (terms_at k ps).
Proof.
  revert row. induction ps as [|[k0 x0] ps IH]; intros row; simpl.
  - by destruct (get row k).
  - rewrite IH, get_add_term. unfold terms_at. simpl.
    destruct (decide (k0 = k)) as [->|Hne].
    + rewrite decide_True by done.
      by rewrite sum_from_app.
    + by rewrite decide_False.
Qed.

Lemma wf_add_terms ps row :
  wf row -> wf (foldl (fun row p => add_term row p.1 p.2) row ps).
Proof.
  revert row. induction ps as [|p ps IH]; intros row Hrow; simpl; [done|].
  apply IH. by apply wf_add_term.
Qed.

Lemma terms_at_fmap (f : V -> V) innerjac k :
  wf innerjac ->
  terms_at k (prod_map id f <$> innerjac) =
  match get innerjac k with Some x => [f x] | None => [] end.
Proof.
  unfold wf, keys, terms_at.
  induction innerjac as [|[k0 x0] d IH]; [done|].
  rewrite !fmap_cons. intros Hnd. apply NoDup_cons in Hnd as [Hk0 Hnd].
  simpl. destruct (decide (k0 = k)) as [->|Hne].
  - rewrite decide_True by done. f_equal.
    assert (get d k = None) as E by by apply get_None.
    specialize (IH Hnd). rewrite E in IH. apply IH.
  - rewrite decide_False by done. by apply IH.
Qed.

(** *** Composition: the chain rule *)

(** The row that [compose_jacobians] builds for one output. *)
Definition compose_row (jacdict2 : dict (dict V)) (innerjac1 : dict V) : dict V :=
  foldl (fun row mj =>
    foldl (fun row ij => add_term row ij.1 (matmul mj.2 ij.2))
          row (get_default jacdict2 mj.1 []))
    [] innerjac1.

(** The products [J1[o][m] @ J2[m][i]] over the middle variables [m] of
    [J1[o]], in order, that [J2] has as an outer key with an entry for [i]. *)
Definition contributions (jacdict2 : dict (dict V)) (innerjac1 : dict V)
    (inp : string) : list V :=
  omap (fun mj =>
    innerjac2 ← get jacdict2 mj.1;
    jac2 ← get innerjac2 inp;
    Some (matmul mj.2 jac2)) innerjac1.

(** The middle variables present both in [J1[o]] and as outer key of [J2]. *)
Definition shared_middles (jacdict2 : dict (dict V)) (innerjac1 : dict V)
    : dict V :=
  filter_keys (contains jacdict2) innerjac1.

(** Every inner dictionary of a Jacobian dictionary is a dictionary. *)
Definition wf_rows (jacdict : dict (dict V)) : Prop :=
  forall k row, get jacdict k = Some row -> wf row.

Definition wf_jacdict (jacdict : dict (dict V)) : Prop :=
  wf jacdict /\ wf_rows jacdict.

Lemma compose_inner_loop jacdict output row jac1 innerjac :
  get jacdict output = Some row ->
  for_each innerjac jacdict (fun jacdict '(inp, jac2) =>
    row ← getitem jacdict output;
    if contains row inp then
      old ← getitem row inp;
      Ok (setitem jacdict output (setitem row inp (iadd old (matmul jac1 jac2))))
    else
      Ok (setitem jacdict output (setitem row inp (matmul jac1 jac2))))
  = Ok (setitem jacdict output
          (foldl (fun row ij => add_term row ij.1 (matmul jac1 ij.2)) row innerjac)).
Proof.
  revert jacdict row.
  induction innerjac as [|[inp jac2] innerjac IH]; intros jacdict row Hrow; simpl.
  - by rewrite setitem_get_id.
  - rewrite (getitem_Some Hrow). simpl.
    unfold add_term, contains, getitem.
    destruct (get row inp) as [old|] eqn:E; simpl.
    + erewrite IH by apply get_setitem_eq. by rewrite setitem_setitem.
    + erewrite IH by apply get_setitem_eq. by rewrite setitem_setitem.
Qed.

Lemma compose_middle_loop jacdict2 jacdict output row innerjac1 :
  get jacdict output = Some row ->
  for_each innerjac1 jacdict (fun jacdict '(middle, jac1) =>
    let innerjac2 := get_default jacdict2 middle [] in
    for_each innerjac2 jacdict (fun jacdict '(inp, jac2) =>
      row ← getitem jacdict output;
      if contains row inp then
        old ← getitem row inp;
        Ok (setitem jacdict output (setitem row inp (iadd old (matmul jac1 jac2))))
      else
        Ok (setitem jacdict output (setitem row inp (matmul jac1 jac2)))))
  = Ok (setitem jacdict output
          (foldl (fun row mj =>
             foldl (fun row ij => add_term row ij.1 (matmul mj.2 ij.2))
                   row (get_default jacdict2 mj.1 []))
             row innerjac1)).
Proof.
  revert jacdict row.
  induction innerjac1 as [|[middle jac1] innerjac1 IH]; intros jacdict row Hrow; simpl.
  - by rewrite setitem_get_id.
  - erewrite compose_inner_loop by done. simpl.
    erewrite IH by apply get_setitem_eq. by rewrite setitem_setitem.
Qed.

(** [compose_jacobians] never raises: it binds every output of [jacdict1],
    in order, to its composed row. *)
Lemma compose_jacobians_Ok jacdict2 jacdict1 :
  compose_jacobians jacdict2 jacdict1 =
  Ok (foldl (fun jacdict oj => setitem jacdict oj.1 (compose_row jacdict2 oj.2))
            [] jacdict1).
Proof.
  unfold compose_jacobians. generalize ([] : dict (dict V)) as jacdict.
  induction jacdict1 as [|[output innerjac1] jacdict1 IH]; intros jacdict; simpl; [done|].
  erewrite compose_middle_loop by apply get_setitem_eq. simpl.
  rewrite setitem_setitem. apply IH.
Qed.

Lemma get_fold_setitem {A B : Type} (f : B -> A) (l : dict B) (d : dict A) k :
  wf l ->
  get (foldl (fun d kb => setitem d kb.1 (f kb.2)) d l) k =
  match get l k with Some b => Some (f b) | None => get d k end.
Proof.
  unfold wf, keys. revert d.
  induction l as [|[k0 b0] l IH]; intros d Hnd; simpl; [done|].
  rewrite fmap_cons in Hnd. apply NoDup_cons in Hnd as [Hk0 Hnd].
  rewrite IH by done. case_decide as Hk.
  - subst. assert (get l k0 = None) as -> by by apply get_None.
    apply get_setitem_eq.
  - destruct (get l k); [done|]. by apply get_setitem_ne.
Qed.

Lemma keys_fold_setitem {A B : Type} (f : B -> A) (l : dict B) (d : dict A) :
  wf l -> (forall k, k ∈ keys l -> k ∉ keys d) ->
  keys (foldl (fun d kb => setitem d kb.1 (f kb.2)) d l) = keys d ++ keys l.
Proof.
  unfold wf. revert d.
  induction l as [|[k0 b0] l IH]; intros d Hnd Hdis; simpl.
  - unfold keys. simpl. by rewrite app_nil_r.
  - unfold keys in Hnd. rewrite fmap_cons in Hnd. apply NoDup_cons in Hnd as [Hk0 Hnd].
    rewrite IH; [|done|].
    + rewrite keys_setitem.
      assert (contains d k0 = false) as ->.
      { apply contains_false. apply Hdis. unfold keys. rewrite fmap_cons. left. }
      by rewrite <- app_assoc.
    + intros k Hk. rewrite elem_of_keys_setitem. intros [->|Hd]; [done|].
      eapply Hdis; [|done]. unfold keys. rewrite fmap_cons. by right.
Qed.

Lemma get_compose_row_from jacdict2 innerjac1 inp row :
  wf_rows jacdict2 ->
  get (foldl (fun row mj =>
         foldl (fun row ij => add_term row ij.1 (matmul mj.2 ij.2))
               row (get_default jacdict2 mj.1 []))
         row innerjac1) inp =
  sum_from (get row inp) (contributions jacdict2 innerjac1 inp).
Proof.
  intros Hwf. unfold contributions. revert row.
  induction innerjac1 as [|[middle jac1] innerjac1 IH]; intros row; simpl.
  - by destruct (get row inp).
  - rewrite IH. clear IH. unfold get_default.
    set (rest := omap _ innerjac1).
    destruct (get jacdict2 middle) as [innerjac2|] eqn:E2; simpl; [|done].
    assert (foldl (fun row ij => add_term row ij.1 (matmul jac1 ij.2)) row innerjac2
            = foldl (fun row p => add_term row p.1 p.2) row
                    (prod_map id (matmul jac1) <$> innerjac2)) as ->.
    { clear. revert row. induction innerjac2 as [|[i0 x0] l IH]; intros row; simpl; [done|].
      apply IH. }
    rewrite get_add_terms, terms_at_fmap by (eapply Hwf; eauto).
    rewrite sum_from_app.
    by destruct (get innerjac2 inp).
Qed.

Lemma get_compose_row jacdict2 innerjac1 inp :
  wf_rows jacdict2 ->
  get (compose_row jacdict2 innerjac1) inp =
  sum_of (contributions jacdict2 innerjac1 inp).
Proof. intros Hwf. unfold compose_row. by rewrite get_compose_row_from. Qed.

Lemma wf_compose_row_from jacdict2 innerjac1 row :
  wf row ->
  wf (foldl (fun row mj =>
         foldl (fun row ij => add_term row ij.1 (matmul mj.2 ij.2))
               row (get_default jacdict2 mj.1 []))
         row innerjac1).
Proof.
  revert row.
  induction innerjac1 as [|[middle jac1] innerjac1 IH]; intros row Hrow; simpl; [done|].
  apply IH. clear IH. revert row Hrow.
  induction (get_default jacdict2 middle []) as [|[i0 x0] l IH]; intros row Hrow;
    simpl; [done|].
  apply IH. by apply wf_add_term.
Qed.

Lemma wf_compose_row jacdict2 innerjac1 : wf (compose_row jacdict2 innerjac1).
Proof. apply wf_compose_row_from, wf_nil. Qed.

Lemma contributions_shared_middles jacdict2 innerjac1 inp :
  contributions jacdict2 (shared_middles jacdict2 innerjac1) inp =
  contributions jacdict2 innerjac1 inp.
Proof.
  unfold contributions, shared_middles, filter_keys.
  induction innerjac1 as [|[middle jac1] innerjac1 IH]; [done|].
  rewrite filter_cons.
  destruct (decide (contains jacdict2 (middle, jac1).1 = true)) as [Hc|Hc].
  - by rewrite !omap_cons_eq, IH.
  - rewrite omap_cons_eq, IH. unfold contains in Hc. simpl in *.
    by destruct (get jacdict2 middle).
Qed.

Lemma wf_compose_jacobians jacdict2 jacdict1 jacdict :
  compose_jacobians jacdict2 jacdict1 = Ok jacdict -> wf_jacdict jacdict.
Proof.
  rewrite compose_jacobians_Ok. intros [= <-].
  assert (forall l d, wf_jacdict d ->
    wf_jacdict (foldl (fun jacdict oj =>
      setitem jacdict oj.1 (compose_row jacdict2 oj.2)) d l)) as Hgen.
  { induction l as [|[o inner] l IH]; intros d Hd; simpl; [done|].
    apply IH. destruct Hd as [Hd1 Hd2]. split; [by apply wf_setitem|].
    intros k row. rewrite get_setitem. case_decide.
    - intros [= <-]. apply wf_compose_row.
    - apply Hd2. }
  apply Hgen. split; [apply wf_nil | intros k row; done].
Qed.

(** C1. For Jacobian dictionaries J2 (the accumulator) and J1,
    [compose_jacobians(J2, J1)] raises no error and returns a dictionary
    with the outputs of J1 as keys, in which output o is bound to the row
    that sends each input i to the sum, in the iteration order of J1[o],
    of the products [J1[o][m] @ J2[m][i]] over the middle variables m that
    are both in J1[o] and outer keys of J2; an input with no such product
    is absent from the row. *)
Theorem compose_jacobians_chain_rule (jacdict2 jacdict1 : dict (dict V)) :
  wf jacdict1 -> wf_rows jacdict2 ->
  exists jacdict,
    compose_jacobians jacdict2 jacdict1 = Ok jacdict /\
    keys jacdict = keys jacdict1 /\
    forall output innerjac1, get jacdict1 output = Some innerjac1 ->
      exists row,
        get jacdict output = Some row /\
        forall inp,
          get row inp =
          sum_of (contributions jacdict2 (shared_middles jacdict2 innerjac1) inp).
Proof.
  intros Hwf1 Hwf2. eexists. split; [apply compose_jacobians_Ok|]. split.
  - rewrite keys_fold_setitem; [done | done |].
    intros k _. apply not_elem_of_nil.
  - intros output innerjac1 Hget. eexists. split.
    + rewrite get_fold_setitem by done. by rewrite Hget.
    + intros inp. rewrite contributions_shared_middles.
      by apply get_compose_row.
Qed.

(** *** Application to values *)

(** The products [jacdict[o][m] @ indict[m]] over the inner keys m of
    [jacdict[o]], in order, that [indict] has. *)
Definition apply_terms (indict innerjacdict : dict V) : list V :=
  omap (fun mj => x ← get indict mj.1; Some (matmul mj.2 x)) innerjacdict.

Lemma apply_inner_loop indict myout innerjacdict outdict :
  for_each innerjacdict outdict (fun outdict '(myin, jac) =>
    if contains indict myin then
      x ← getitem indict myin;
      if contains outdict myout then
        old ← getitem outdict myout;
        Ok (setitem outdict myout (iadd old (matmul jac x)))
      else
        Ok (setitem outdict myout (matmul jac x))
    else Ok outdict)
  = Ok (foldl (fun outdict x => add_term outdict myout x) outdict
          (apply_terms indict innerjacdict)).
Proof.
  revert outdict.
  induction innerjacdict as [|[myin jac] inner IH]; intros outdict; [done|].
  unfold apply_terms. rewrite omap_cons_eq. simpl.
  destruct (get indict myin) as [x|] eqn:Ex; simpl.
  - rewrite (contains_Some Ex), (getitem_Some Ex). simpl.
    unfold add_term.
    destruct (get outdict myout) as [old|] eqn:Eo.
    + rewrite (contains_Some Eo), (getitem_Some Eo). simpl. apply IH.
    + rewrite (contains_None Eo). simpl. apply IH.
  - rewrite (contains_None Ex). simpl. apply IH.
Qed.

Lemma apply_jacobians_Ok jacdict indict :
  apply_jacobians jacdict indict =
  Ok (foldl (fun outdict oj =>
        foldl (fun outdict x => add_term outdict oj.1 x) outdict
              (apply_terms indict oj.2))
        [] jacdict).
Proof.
  unfold apply_jacobians. generalize ([] : dict V) as outdict.
  induction jacdict as [|[myout inner] jacdict IH]; intros outdict; simpl; [done|].
  rewrite apply_inner_loop. simpl. apply IH.
Qed.

Lemma get_add_terms_at outdict myout xs k :
  get (foldl (fun outdict x => add_term outdict myout x) outdict xs) k =
  if decide (k = myout) then sum_from (get outdict k) xs else get outdict k.
Proof.
  revert outdict. induction xs as [|x xs IH]; intros outdict; simpl.
  - case_decide; [by destruct (get outdict k) | done].
  - rewrite IH, get_add_term. case_decide as Hk; [|done].
    subst. by rewrite sum_from_app.
Qed.

Lemma wf_add_terms_at outdict myout xs :
  wf outdict -> wf (foldl (fun outdict x => add_term outdict myout x) outdict xs).
Proof.
  revert outdict. induction xs as [|x xs IH]; intros outdict Hwf; simpl; [done|].
  apply IH. by apply wf_add_term.
Qed.

Lemma get_apply_from (g : dict V -> list V) jacdict outdict k :
  wf jacdict ->
  get (foldl (fun outdict oj =>
         foldl (fun outdict x => add_term outdict oj.1 x) outdict (g oj.2))
         outdict jacdict) k =
  sum_from (get outdict k)
    (match get jacdict k with Some inner => g inner | None => [] end).
Proof.
  unfold wf, keys. revert outdict.
  induction jacdict as [|[myout inner] jacdict IH]; intros outdict Hnd; simpl.
  - by destruct (get outdict k).
  - rewrite fmap_cons in Hnd. apply NoDup_cons in Hnd as [Hk0 Hnd].
    rewrite IH by done. rewrite get_add_terms_at.
    case_decide as Hk.
    + subst. assert (get jacdict myout = None) as -> by by apply get_None.
      destruct (sum_from (get outdict myout) (g inner)); simpl; by rewrite ?app_nil_r.
    + done.
Qed.

Lemma wf_apply_from (g : dict V -> list V) jacdict outdict :
  wf outdict ->
  wf (foldl (fun outdict oj =>
         foldl (fun outdict x => add_term outdict oj.1 x) outdict (g oj.2))
         outdict jacdict).
Proof.
  revert outdict.
  induction jacdict as [|[myout inner] jacdict IH]; intros outdict Hwf; simpl; [done|].
  apply IH. by apply wf_add_terms_at.
Qed.

Lemma wf_apply_jacobians jacdict indict outdict :
  apply_jacobians jacdict indict = Ok outdict -> wf outdict.
Proof.
  rewrite apply_jacobians_Ok. intros [= <-]. apply wf_apply_from, wf_nil.
Qed.

Lemma apply_terms_nil indict innerjacdict :
  apply_terms indict innerjacdict = [] <->
  forall m, m ∈ keys innerjacdict -> m ∉ keys indict.
Proof.
  unfold apply_terms.
  induction innerjacdict as [|[myin jac] inner IH].
  - split; [intros _ m Hm; by apply elem_of_nil in Hm | done].
  - rewrite omap_cons_eq. simpl.
    destruct (get indict myin) as [x|] eqn:Ex; simpl.
    + split; [done|]. intros Hall. exfalso.
      apply (Hall myin); [left | by eapply get_Some_keys].
    + rewrite IH. apply get_None in Ex. split.
      * intros Hall m Hm. apply elem_of_cons in Hm as [->|Hm]; [done | by apply Hall].
      * intros Hall m Hm. apply Hall. by right.
Qed.

(** C6. For a Jacobian dictionary and a value dictionary,
    [apply_jacobians] raises no error; an output o is bound exactly when one
    of the inner keys of [jacdict[o]] is in the value dictionary, and then
    to the sum, in iteration order, of [jacdict[o][m] @ indict[m]] over those
    inner keys m; an output with no inner key in the value dictionary is
    absent from the result. *)
Theorem apply_jacobians_sums (jacdict : dict (dict V)) (indict : dict V) :
  wf jacdict ->
  exists outdict,
    apply_jacobians jacdict indict = Ok outdict /\
    (forall myout, get jacdict myout = None -> get outdict myout = None) /\
    forall myout innerjacdict, get jacdict myout = Some innerjacdict ->
      get outdict myout = sum_of (apply_terms indict innerjacdict) /\
      (get outdict myout = None <->
       forall m, m ∈ keys innerjacdict -> m ∉ keys indict).
Proof.
  intros Hwf. eexists. split; [apply apply_jacobians_Ok|].
  split.
  - intros myout Hnone. rewrite get_apply_from by done. by rewrite Hnone.
  - intros myout inner Hget.
    rewrite get_apply_from by done. rewrite Hget. simpl.
    split; [done|]. rewrite <- apply_terms_nil.
    destruct (apply_terms indict inner); simpl; split; done.
Qed.

(** *** Chaining *)

(** [{i: {i: IdentityMatrix()} for i in inputs}] *)
Definition identity_jacdict (inputs : list string) : dict (dict V) :=
  comprehension inputs (fun i => (i, [(i, IdentityMatrix)])).

(** One step of the fold: [out.update(compose_jacobians(out, jacdict))]. *)
Definition chain_step (cumulative_jacdict jacdict : dict (dict V))
  : result (dict (dict V)) :=
  new ← compose_jacobians cumulative_jacdict jacdict;
  Ok (update cumulative_jacdict new).

Lemma get_comprehension {A B : Type} (f : A -> string * B) (l : list A) (d : dict B) k :
  get (foldl (fun acc x => setitem acc (f x).1 (f x).2) d l) k =
  match list_find (fun x => (f x).1 = k) (reverse l) with
  | Some (_, x) => Some (f x).2
  | None => get d k
  end.
Proof.
  revert d. induction l as [|x l IH] using rev_ind; intros d; [done|].
  rewrite foldl_snoc, reverse_snoc, get_setitem. simpl.
  destruct (decide ((f x).1 = k)) as [<-|Hne].
  - by rewrite decide_True.
  - rewrite decide_False by done. rewrite IH.
    by destruct (list_find _ (reverse l)) as [[? ?]|].
Qed.

Lemma get_identity_jacdict inputs i :
  get (identity_jacdict inputs) i =
  if bool_decide (i ∈ inputs) then Some [(i, IdentityMatrix)] else None.
Proof.
  unfold identity_jacdict, comprehension. rewrite get_comprehension. simpl.
  destruct (list_find _ (reverse inputs)) as [[n x]|] eqn:E.
  - apply list_find_Some in E as (Hx & <- & _).
    rewrite bool_decide_eq_true_2; [done|].
    apply elem_of_reverse. by eapply list_elem_of_lookup_2.
  - rewrite bool_decide_eq_false_2; [done|].
    intros Hin. apply elem_of_reverse in Hin.
    eapply list_find_None in E. eapply Forall_forall in E; [|done]. done.
Qed.

Lemma wf_comprehension {A B : Type} (f : A -> string * B) (l : list A) :
  wf (comprehension l f).
Proof.
  unfold comprehension. generalize (@wf_nil B). generalize ([] : dict B) as d.
  induction l as [|x l IH]; intros d Hd; simpl; [done|].
  apply IH. by apply wf_setitem.
Qed.

Lemma keys_compose_jacobians jacdict2 jacdict1 new k :
  compose_jacobians jacdict2 jacdict1 = Ok new ->
  k ∈ keys new <-> k ∈ keys jacdict1.
Proof.
  rewrite compose_jacobians_Ok. intros [= <-].
  assert (forall l d, k ∈ keys (foldl (fun jacdict oj =>
      setitem jacdict oj.1 (compose_row jacdict2 oj.2)) d l)
    <-> k ∈ keys d \/ k ∈ keys l) as Hgen.
  { induction l as [|[o inner] l IH]; intros d; simpl.
    - rewrite elem_of_keys_nil. tauto.
    - rewrite IH, elem_of_keys_setitem, elem_of_keys_cons. tauto. }
  rewrite Hgen, elem_of_keys_nil. tauto.
Qed.

(** The fold step merges: the outputs of [jacdict] are bound to their newly
    composed rows, every other key keeps its binding, none disappears. *)
Lemma chain_step_merges cumulative_jacdict jacdict :
  exists new,
    compose_jacobians cumulative_jacdict jacdict = Ok new /\
    chain_step cumulative_jacdict jacdict = Ok (update cumulative_jacdict new) /\
    (forall k, k ∈ keys new <-> k ∈ keys jacdict) /\
    (forall k, get (update cumulative_jacdict new) k =
               match get new k with
               | Some row => Some row
               | None => get cumulative_jacdict k
               end) /\
    (forall k, k ∈ keys cumulative_jacdict ->
               k ∈ keys (update cumulative_jacdict new)).
Proof.
  destruct (compose_jacobians cumulative_jacdict jacdict) as [new|] eqn:E;
    [|by rewrite compose_jacobians_Ok in E].
  exists new. split; [done|]. split; [unfold chain_step; by rewrite E|].
  split; [intros k; by eapply keys_compose_jacobians|]. split.
  - intros k. apply get_update_wf. by eapply wf_compose_jacobians.
  - intros k Hk. apply elem_of_keys_update. by left.
Qed.

Lemma chain_jacobians_eq jacdicts inputs T :
  chain_jacobians jacdicts inputs T =
  for_each jacdicts (identity_jacdict inputs) chain_step.
Proof. done. Qed.

Lemma chain_steps_total later acc1 :
  exists acc2,
    for_each later acc1 chain_step = Ok acc2 /\
    forall k, k ∈ keys acc1 ->
      k ∈ keys acc2 /\
      ((forall jacdict, jacdict ∈ later -> k ∉ keys jacdict) ->
       get acc2 k = get acc1 k).
Proof.
  revert acc1. induction later as [|jacdict later IH]; intros acc1; simpl.
  - exists acc1. by split.
  - destruct (chain_step_merges acc1 jacdict) as (new & Hnew & -> & Hkeys & Hget & Hmono).
    simpl. destruct (IH (update acc1 new)) as (acc2 & -> & Hacc2).
    exists acc2. split; [done|]. intros k Hk.
    destruct (Hacc2 k (Hmono k Hk)) as [Hin Hsame]. split; [done|].
    intros Hnot. rewrite Hsame.
    + rewrite Hget.
      assert (get new k = None) as ->; [|done].
      apply get_None. rewrite Hkeys. apply Hnot. left.
    + intros jd Hjd. apply Hnot. by right.
Qed.

(** C2, as the code has it.  [chain_jacobians] starts from the accumulator
    that binds each input name i to [{i: IdentityMatrix}], folds the step
    [acc.update(compose_jacobians(acc, jacdict))] over the list in the given
    order, and each step merges the composed outputs into the accumulator:
    a key of the accumulator is never removed by a later step, and it keeps
    its entry unless a later dictionary has that same output name, whose
    newly composed row then takes its place. *)
Theorem chain_jacobians_merges (earlier later : list (dict (dict V)))
    (inputs : list string) (T : nat) :
  chain_jacobians [] inputs T = Ok (identity_jacdict inputs) /\
  (forall i, get (identity_jacdict inputs) i =
             if bool_decide (i ∈ inputs) then Some [(i, IdentityMatrix)] else None) /\
  exists acc1 acc2,
    chain_jacobians earlier inputs T = Ok acc1 /\
    chain_jacobians (earlier ++ later) inputs T = Ok acc2 /\
    for_each later acc1 chain_step = Ok acc2 /\
    (forall acc jacdict, exists new,
       compose_jacobians acc jacdict = Ok new /\
       chain_step acc jacdict = Ok (update acc new) /\
       forall k, get (update acc new) k =
                 match get new k with Some row => Some row | None => get acc k end) /\
    forall k, k ∈ keys acc1 ->
      k ∈ keys acc2 /\
      ((forall jacdict, jacdict ∈ later -> k ∉ keys jacdict) ->
       get acc2 k = get acc1 k).
Proof.
  split; [done|]. split; [apply get_identity_jacdict|].
  destruct (chain_steps_total earlier (identity_jacdict inputs)) as (acc1 & H1 & _).
  destruct (chain_steps_total later acc1) as (acc2 & H2 & Hkeep).
  exists acc1, acc2. rewrite !chain_jacobians_eq, for_each_app, H1. simpl.
  split; [done|]. split; [done|]. split; [done|]. split; [|done].
  intros acc jacdict.
  destruct (chain_step_merges acc jacdict) as (new & ? & ? & ? & ? & ?).
  exists new. done.
Qed.

(** *** Forward accumulation *)

Definition acc_keys (a : accumulator V) : list string :=
  match a with
  | JacOut out => keys out
  | SeqOut out => keys out
  end.

Definition acc_get (a : accumulator V) (k : string) : option (dict V + V) :=
  match a with
  | JacOut out => inl <$> get out k
  | SeqOut out => inr <$> get out k
  end.

Lemma for_each_invariant {A S : Type} (P : S -> Prop) (body : S -> A -> result S)
    (l : list A) (s : S) :
  P s ->
  (forall s x, P s -> exists s', body s x = Ok s' /\ P s') ->
  exists s', for_each l s body = Ok s' /\ P s'.
Proof.
  intros Hs Hbody. revert s Hs.
  induction l as [|x l IH]; intros s Hs; simpl; [by exists s|].
  destruct (Hbody s x Hs) as (s' & -> & Hs'). simpl. by apply IH.
Qed.

Lemma select_Ok {A : Type} (out : dict A) (outputs : list string) :
  exists res,
    select out outputs = Ok res /\
    forall k, get res k = if bool_decide (k ∈ outputs) then get out k else None.
Proof.
  unfold select.
  assert (forall res0, exists res,
    for_each outputs res0 (fun res k =>
      if contains out k then v ← getitem out k; Ok (setitem res k v) else Ok res)
    = Ok res /\
    forall k, get res k =
      if bool_decide (k ∈ outputs)
      then match get out k with Some v => Some v | None => get res0 k end
      else get res0 k) as Hgen.
  { induction outputs as [|o outputs IH]; intros res0; cbn [for_each].
    - exists res0. split; [done|]. intros k.
      by rewrite bool_decide_eq_false_2 by apply not_elem_of_nil.
    - destruct (get out o) as [v|] eqn:Eo.
      + rewrite (contains_Some Eo), (getitem_Some Eo). cbn [mbind result_bind].
        destruct (IH (setitem res0 o v)) as (res & -> & Hres).
        exists res. split; [done|]. intros k. rewrite Hres, get_setitem.
        destruct (decide (k = o)) as [->|Hne].
        * rewrite Eo. rewrite (bool_decide_eq_true_2 (o ∈ o :: outputs)) by left.
          by case_bool_decide.
        * rewrite (bool_decide_ext (k ∈ o :: outputs) (k ∈ outputs)); [done|].
          rewrite elem_of_cons. tauto.
      + rewrite (contains_None Eo). cbn [mbind result_bind].
        destruct (IH res0) as (res & -> & Hres).
        exists res. split; [done|]. intros k. rewrite Hres.
        destruct (decide (k = o)) as [->|Hne].
        * rewrite Eo. rewrite (bool_decide_eq_true_2 (o ∈ o :: outputs)) by left.
          by case_bool_decide.
        * rewrite (bool_decide_ext (k ∈ o :: outputs) (k ∈ outputs)); [done|].
          rewrite elem_of_cons. tauto. }
  destruct (Hgen []) as (res & Hres & Hget). exists res. split; [done|].
  intros k. rewrite Hget. simpl. case_bool_decide; [by destruct (get out k) | done].
Qed.

Lemma elem_of_keys_get {A : Type} (d : dict A) k : k ∈ keys d <-> get d k ≠ None.
Proof.
  split.
  - intros Hin Hnone. by apply get_None in Hnone.
  - intros Hne. destruct (decide (k ∈ keys d)) as [|Hn]; [done|].
    by apply get_None in Hn.
Qed.

(** The loop of [forward_accumulate] never raises; in derivative mode [out]
    is a dictionary of rows, in evaluation mode a dictionary of sequences
    that still has every key of [inputs]. *)
Lemma accumulate_total curlyJs inputs outputs required :
  exists out,
    accumulate curlyJs inputs outputs required = Ok out /\
    match inputs with
    | Names _ => exists d, out = JacOut d
    | Sequences indict =>
        exists d, out = SeqOut d /\ forall k, k ∈ keys indict -> k ∈ keys d
    end.
Proof.
  unfold accumulate. destruct inputs as [names|indict].
  - apply (for_each_invariant (P := fun out => exists d, out = JacOut d)); [by eexists|].
    intros s x [d ->].
    rewrite compose_jacobians_Ok. simpl. eexists. split; [done | by eexists].
  - apply (for_each_invariant (P := fun out =>
      exists d, out = SeqOut d /\ forall k, k ∈ keys indict -> k ∈ keys d)).
    + by exists indict.
    + intros s x (d & -> & Hd).
      rewrite apply_jacobians_Ok. simpl. eexists. split; [done|].
      eexists. split; [done|]. intros k Hk. apply elem_of_keys_update. left. by apply Hd.
Qed.

(** C4. [forward_accumulate] raises no error.  With [outputs] given, the
    keys of the result are exactly the given outputs that are keys of the
    final accumulator, each with the accumulator's entry.  Without
    [outputs], in derivative mode no name of the input list is a key of
    the result and every other key keeps the accumulator's entry; in
    evaluation mode the result is the whole accumulator, which still has
    every key of the inputs dictionary. *)
Theorem forward_accumulate_result (curlyJs : list (dict (dict V)))
    (inputs : inputs_arg V) (outputs required : option (list string)) :
  exists out res,
    accumulate curlyJs inputs outputs required = Ok out /\
    forward_accumulate curlyJs inputs outputs required = Ok res /\
    match outputs, inputs with
    | Some outs, _ =>
        (forall k, k ∈ acc_keys res <-> k ∈ outs /\ k ∈ acc_keys out) /\
        (forall k, k ∈ outs -> acc_get res k = acc_get out k)
    | None, Names names =>
        (forall k, k ∈ names -> k ∉ acc_keys res) /\
        (forall k, k ∉ names -> acc_get res k = acc_get out k)
    | None, Sequences indict =>
        res = out /\ forall k, k ∈ keys indict -> k ∈ acc_keys res
    end.
Proof.
  destruct (accumulate_total curlyJs inputs outputs required) as (out & Hacc & Hshape).
  exists out. unfold forward_accumulate. rewrite Hacc. simpl.
  destruct outputs as [outs|].
  - assert (forall (A : Type) (d res : dict A),
      (forall k, get res k = if bool_decide (k ∈ outs) then get d k else None) ->
      forall k, k ∈ keys res <-> k ∈ outs /\ k ∈ keys d) as Hkeys.
    { intros A d res Hget k. rewrite !elem_of_keys_get, Hget.
      case_bool_decide; [tauto|]. split; [done | tauto]. }
    destruct out as [d|d].
    + destruct (select_Ok d outs) as (res & -> & Hget). simpl.
      eexists. split; [done|].
      assert ((forall k, k ∈ acc_keys (JacOut res) <-> k ∈ outs /\ k ∈ acc_keys (JacOut d)) /\
              (forall k, k ∈ outs -> acc_get (JacOut res) k = acc_get (JacOut d) k)).
      { split; [by apply Hkeys|].
        intros k Hk. simpl. rewrite Hget. by rewrite bool_decide_eq_true_2. }
      by destruct inputs.
    + destruct (select_Ok d outs) as (res & -> & Hget). simpl.
      eexists. split; [done|].
      assert ((forall k, k ∈ acc_keys (SeqOut res) <-> k ∈ outs /\ k ∈ acc_keys (SeqOut d)) /\
              (forall k, k ∈ outs -> acc_get (SeqOut res) k = acc_get (SeqOut d) k)).
      { split; [by apply Hkeys|].
        intros k Hk. simpl. rewrite Hget. by rewrite bool_decide_eq_true_2. }
      by destruct inputs.
  - destruct inputs as [names|indict].
    + destruct Hshape as [d ->]. eexists. split; [done|]. split; [done|].
      simpl. split.
      * intros k Hk. rewrite elem_of_keys_get, get_filter_keys.
        rewrite bool_decide_eq_false_2 by tauto. tauto.
      * intros k Hk. rewrite get_filter_keys. by rewrite bool_decide_eq_true_2.
    + destruct Hshape as (d & -> & Hd). eexists. split; [done|]. split; [done|].
      by split.
Qed.

(** Without pruning the loop of [forward_accumulate] in derivative mode is
    the loop of [chain_jacobians]. *)
Lemma accumulate_chain curlyJs names T :
  accumulate curlyJs (Names names) None None =
  acc ← chain_jacobians curlyJs names T; Ok (JacOut acc).
Proof.
  unfold accumulate, chain_jacobians. simpl.
  generalize (comprehension names (fun i => (i, [(i, IdentityMatrix)]))) as out.
  induction curlyJs as [|curlyJ curlyJs IH]; intros out; simpl; [done|].
  rewrite compose_jacobians_Ok. simpl. apply IH.
Qed.

(** C5, as the code has it.  In derivative mode with no pruning,
    [forward_accumulate] returns the result of [chain_jacobians] on the same
    list and inputs without the entries keyed by the input names: those
    entries, which [chain_jacobians] keeps, are filtered out. *)
Theorem forward_accumulate_chain (curlyJs : list (dict (dict V)))
    (inputs : list string) (T : nat) :
  exists acc,
    chain_jacobians curlyJs inputs T = Ok acc /\
    forward_accumulate curlyJs (Names inputs) None None =
      Ok (JacOut (filter_keys (fun k => bool_decide (k ∉ inputs)) acc)) /\
    (forall k, k ∈ inputs -> k ∈ keys acc) /\
    forall k,
      get (filter_keys (fun k => bool_decide (k ∉ inputs)) acc) k =
      if bool_decide (k ∈ inputs) then None else get acc k.
Proof.
  destruct (chain_steps_total curlyJs (identity_jacdict inputs)) as (acc & Hacc & Hkeep).
  exists acc. rewrite chain_jacobians_eq. split; [done|]. split; [|split].
  - unfold forward_accumulate. rewrite (accumulate_chain _ _ T).
    rewrite chain_jacobians_eq, Hacc. done.
  - intros k Hk. apply Hkeep. apply elem_of_keys_get.
    rewrite get_identity_jacdict. by rewrite bool_decide_eq_true_2.
  - intros k. rewrite get_filter_keys. by repeat case_bool_decide.
Qed.

End algebra.

(** ** A concrete operator algebra: horizon 1

    With T = 1 an operator is a 1x1 matrix, that is a number: [@] is the
    product, [+=] the sum and the identity operator is 1. *)
Module Scalar.

#[global] Instance scalar_operators : Operators Z := {|
  IdentityMatrix := 1%Z;
  matmul := Z.mul;
  iadd := Z.add;
|}.

Definition J_accumulated : dict (dict Z) :=
  [("x", [("x", 1%Z)]); ("y", [("x", 2%Z)])].

Definition J_block : dict (dict Z) :=
  [("z", [("x", 3%Z); ("y", 5%Z); ("w", 7%Z)])].

End Scalar.

Ltac solve_wf :=
  repeat match goal with
  | |- wf_jacdict _ => split
  | |- wf _ => unfold wf, keys; simpl
  | |- NoDup _ => apply (bool_decide_unpack _); vm_compute; exact I
  | |- wf_rows _ =>
      let k := fresh "k" in let row := fresh "row" in let H := fresh "H" in
      intros k row H; simpl in H; repeat case_decide; simplify_eq
  end.

Example compose_jacobians_example :
  compose_jacobians Scalar.J_accumulated Scalar.J_block =
  Ok [("z", [("x", 13%Z)])].
Proof. reflexivity. Qed.

Lemma compose_jacobians_chain_rule_witness :
  exists jacdict,
    compose_jacobians Scalar.J_accumulated Scalar.J_block = Ok jacdict /\
    keys jacdict = ["z"] /\
    forall output innerjac1, get Scalar.J_block output = Some innerjac1 ->
      exists row,
        get jacdict output = Some row /\
        forall inp,
          get row inp =
          sum_of (contributions Scalar.J_accumulated
                    (shared_middles Scalar.J_accumulated innerjac1) inp).
Proof.
  apply (compose_jacobians_chain_rule (jacdict2 := Scalar.J_accumulated)
           (jacdict1 := Scalar.J_block)); solve_wf.
Defined.

Definition J_apply : dict (dict Z) :=
  [("z", [("x", 3%Z); ("u", 4%Z); ("y", 5%Z)]); ("w", [("u", 7%Z)])].

Definition values_xy : dict Z := [("x", 10%Z); ("y", 100%Z)].

Example apply_jacobians_example :
  apply_jacobians J_apply values_xy = Ok [("z", 530%Z)].
Proof. reflexivity. Qed.

Lemma apply_jacobians_sums_witness :
  exists outdict,
    apply_jacobians J_apply values_xy = Ok outdict /\
    (forall myout, get J_apply myout = None -> get outdict myout = None) /\
    forall myout innerjacdict, get J_apply myout = Some innerjacdict ->
      get outdict myout = sum_of (apply_terms values_xy innerjacdict) /\
      (get outdict myout = None <->
       forall m, m ∈ keys innerjacdict -> m ∉ keys values_xy).
Proof. apply (apply_jacobians_sums (jacdict := J_apply) values_xy); solve_wf. Defined.

(** The two-block scenario: B1 has output y and input x with Jacobian 2,
    B2 has output z and input y with Jacobian 3; x is exogenous. *)
Definition two_blocks : list (dict (dict Z)) :=
  [ [("y", [("x", 2%Z)])]; [("z", [("y", 3%Z)])] ].

Example chain_two_blocks :
  chain_jacobians two_blocks ["x"] 1 =
  Ok [("x", [("x", 1%Z)]); ("y", [("x", 2%Z)]); ("z", [("x", 6%Z)])].
Proof. reflexivity. Qed.

Example forward_two_blocks :
  forward_accumulate two_blocks (Names ["x"]) None None =
  Ok (JacOut [("y", [("x", 2%Z)]); ("z", [("x", 6%Z)])]).
Proof. reflexivity. Qed.

Example forward_two_blocks_values :
  forward_accumulate two_blocks (Sequences [("x", 1%Z)]) None None =
  Ok (SeqOut [("x", 1%Z); ("y", 2%Z); ("z", 6%Z)]).
Proof. reflexivity. Qed.

Example forward_two_blocks_outputs :
  forward_accumulate two_blocks (Names ["x"]) (Some ["z"; "never"; "x"]) None =
  Ok (JacOut [("z", [("x", 6%Z)]); ("x", [("x", 1%Z)])]).
Proof. reflexivity. Qed.

(** C2 as stated fails when a later dictionary has an output name that is
    already in the accumulator: [update] rebinds the name to the newly
    composed row, and the entry of y for x made by the first step is gone
    after the second. *)
Lemma chain_jacobians_erases_entry :
  chain_jacobians [ [("y", [("x", 2%Z)])] ] ["x"] 1 =
    Ok [("x", [("x", 1%Z)]); ("y", [("x", 2%Z)])] /\
  chain_jacobians [ [("y", [("x", 2%Z)])]; [("y", [("u", 5%Z)])] ] ["x"] 1 =
    Ok [("x", [("x", 1%Z)]); ("y", [])].
Proof. split; reflexivity. Qed.

Lemma chain_jacobians_merges_witness :
  exists acc1 acc2,
    chain_jacobians [ [("y", [("x", 2%Z)])] ] ["x"] 1 = Ok acc1 /\
    chain_jacobians two_blocks ["x"] 1 = Ok acc2 /\
    forall k, k ∈ keys acc1 -> k ∈ keys acc2.
Proof.
  destruct (chain_jacobians_merges [ [("y", [("x", 2%Z)])] ] [ [("z", [("y", 3%Z)])] ]
              ["x"] 1) as (_ & _ & acc1 & acc2 & H1 & H2 & _ & _ & Hkeep).
  exists acc1, acc2. split; [exact H1|]. split; [exact H2|].
  intros k Hk. exact (proj1 (Hkeep k Hk)).
Defined.

(** C5 as stated fails: [chain_jacobians] keeps the identity entry of the
    exogenous input x, [forward_accumulate] drops it. *)
Lemma forward_accumulate_differs_from_chain :
  forward_accumulate two_blocks (Names ["x"]) None None <>
  (acc ← chain_jacobians two_blocks ["x"] 1; Ok (JacOut acc)).
Proof. vm_compute. discriminate. Qed.

(** ** Part 3: dense arrays, packing and unpacking *)

(** The entries of the arrays; numpy needs a zero for [np.zeros] and a one
    for [np.eye]. *)
Class Scalars (R : Type) : Type := {
  zero : R;
  one : R;
}.

#[global] Instance Z_scalars : Scalars Z := {| zero := 0%Z; one := 1%Z |}.

Section numpy.
Context {R : Type} `{!Scalars R}.

(** A two-dimensional ndarray: its shape and its entries. *)
Record ndarray : Type := mk_ndarray {
  nrows : nat;
  ncols : nat;
  item : nat -> nat -> R;
}.

(** Same shape and same entries. *)
Definition array_eq (a b : ndarray) : Prop :=
  nrows a = nrows b /\ ncols a = ncols b /\
  forall r c, r < nrows a -> c < ncols a -> item a r c = item b r c.

(** The rows of an array as lists. *)
Definition to_rows (a : ndarray) : list (list R) :=
  (fun r => item a r <$> seq 0 (ncols a)) <$> seq 0 (nrows a).

(** [np.zeros((h, w))] *)
Definition np_zeros (h w : nat) : ndarray :=
  mk_ndarray h w (fun _ _ => zero).

(** [np.eye(T)] *)
Definition np_eye (T : nat) : ndarray :=
  mk_ndarray T T (fun r c => if decide (r = c) then one else zero).

(** [np.empty((h, w))]: the entries are whatever the memory holds. *)
Definition np_empty (uninitialized : nat -> nat -> R) (h w : nat) : ndarray :=
  mk_ndarray h w uninitialized.

(** The number of indices that the slice [lo:hi] selects on an axis of
    length [n]; they start at [min lo n]. *)
Definition slice_len (lo hi n : nat) : nat := min hi n - min lo n.

(** [a[r0:r1, c0:c1]] *)
Definition getitem_slice (a : ndarray) (r0 r1 c0 c1 : nat) : ndarray :=
  mk_ndarray (slice_len r0 r1 (nrows a)) (slice_len c0 c1 (ncols a))
    (fun r c => item a (min r0 (nrows a) + r) (min c0 (ncols a) + c)).

(** *** Operators *)

(** [SimpleSparse] lives in [simple_block]; only its [matrix(T)] method is
    used here. *)
Context {SimpleSparse : Type} (SimpleSparse_matrix : SimpleSparse -> nat -> ndarray).

Inductive operator : Type :=
  | OpIdentityMatrix
  | OpNdarray (a : ndarray)
  | OpSimpleSparse (s : SimpleSparse).

(** [IdentityMatrix.matrix(self, T)] *)
Definition IdentityMatrix_matrix (T : nat) : ndarray := np_eye T.

(** [make_matrix(A, T)] *)
Definition make_matrix (A : operator) (T : nat) : ndarray :=
  match A with
  | OpNdarray a => a
  | OpIdentityMatrix => IdentityMatrix_matrix T
  | OpSimpleSparse s => SimpleSparse_matrix s T
  end.

(** [a[r0:r1, c0:c1] = v].  An array value is broadcast to the shape of the
    slice, which numpy allows when each of its dimensions is that of the
    slice or 1; a value that is not an array cannot be converted to float
    entries. *)
Definition setitem_slice (a : ndarray) (r0 r1 c0 c1 : nat) (v : operator)
  : result ndarray :=
  match v with
  | OpNdarray b =>
      let lo_r := min r0 (nrows a) in
      let lo_c := min c0 (ncols a) in
      let h := slice_len r0 r1 (nrows a) in
      let w := slice_len c0 c1 (ncols a) in
      if bool_decide ((nrows b = h \/ nrows b = 1) /\ (ncols b = w \/ ncols b = 1))
      then Ok (mk_ndarray (nrows a) (ncols a) (fun r c =>
             if bool_decide (lo_r <= r < lo_r + h /\ lo_c <= c < lo_c + w)
             then item b (if decide (nrows b = 1) then 0 else r - lo_r)
                         (if decide (ncols b = 1) then 0 else c - lo_c)
             else item a r c))
      else Raise (ValueError "could not broadcast input array")
  | OpIdentityMatrix | OpSimpleSparse _ => Raise TypeError
  end.

(** [l[i]] for a list and an index from [range] *)
Definition list_getitem {A : Type} (l : list A) (i : nat) : result A :=
  match l !! i with
  | Some x => Ok x
  | None => Raise IndexError
  end.

(** [pack_jacobians(jacdict, inputs, outputs, T)] *)
Definition pack_jacobians (uninitialized : nat -> nat -> R)
    (jacdict : dict (dict operator)) (inputs outputs : list string) (T : nat)
  : result ndarray :=
  let nI := length inputs in
  let nO := length outputs in
  let outjac := np_empty uninitialized (nO * T) (nI * T) in
  for_each (seq 0 nO) outjac (fun outjac iO =>
    o ← list_getitem outputs iO;
    let subdict := get_default jacdict o [] in
    for_each (seq 0 nI) outjac (fun outjac iI =>
      i ← list_getitem inputs iI;
      setitem_slice outjac (T * iO) (T * (iO + 1)) (T * iI) (T * (iI + 1))
        (get_default subdict i (OpNdarray (np_zeros T T))))).

(** [unpack_jacobians(bigjac, inputs, outputs, T)] *)
Definition unpack_jacobians (bigjac : ndarray) (inputs outputs : list string)
    (T : nat) : result (dict (dict operator)) :=
  let nI := length inputs in
  let nO := length outputs in
  for_each (seq 0 nO) [] (fun jacdict iO =>
    o ← list_getitem outputs iO;
    let jacdict := setitem jacdict o [] in
    for_each (seq 0 nI) jacdict (fun jacdict iI =>
      o ← list_getitem outputs iO;
      row ← getitem jacdict o;
      i ← list_getitem inputs iI;
      Ok (setitem jacdict o
            (setitem row i
               (OpNdarray (getitem_slice bigjac (T * iO) (T * (iO + 1))
                                                (T * iI) (T * (iI + 1)))))))).

End numpy.

Arguments ndarray : clear implicits.
Arguments operator : clear implicits.

Lemma for_each_seq_invariant {S : Type} (P : nat -> S -> Prop)
    (body : S -> nat -> result S) (start n : nat) (s : S) :
  P start s ->
  (forall i s, start <= i < start + n -> P i s ->
     exists s', body s i = Ok s' /\ P (Datatypes.S i) s') ->
  exists s', for_each (seq start n) s body = Ok s' /\ P (start + n) s'.
Proof.
  revert start s. induction n as [|n IH]; intros start s Hs Hbody; simpl.
  - exists s. by rewrite Nat.add_0_r.
  - destruct (Hbody start s) as (s1 & -> & Hs1); [lia | done |]. simpl.
    destruct (IH (Datatypes.S start) s1) as (s' & Hs' & HP); [done | |].
    + intros i s2 Hi. apply Hbody. lia.
    + exists s'. split; [done|]. by rewrite Nat.add_succ_r.
Qed.

Lemma list_getitem_Some {A : Type} (l : list A) (i : nat) (x : A) :
  l !! i = Some x -> list_getitem l i = Ok x.
Proof. unfold list_getitem. by intros ->. Qed.

Section packing.
Context {R : Type} `{!Scalars R} {SimpleSparse : Type}.
Context (SimpleSparse_matrix : SimpleSparse -> nat -> ndarray R).
Context (uninitialized : nat -> nat -> R).
Context (jacdict : dict (dict (operator R SimpleSparse))).
Context (inputs outputs : list string) (T : nat).

Local Abbreviation op := (operator R SimpleSparse).

(** What [pack_jacobians] reads for the pair (o, i):
    [jacdict.get(o, {}).get(i)]. *)
Definition entry (o i : string) : option op :=
  get (get_default jacdict o []) i.

(** The T x T block of the pair (o, i): its entry, or zeros. *)
Definition dense_block (o i : string) : ndarray R :=
  match entry o i with
  | Some v => make_matrix SimpleSparse_matrix v T
  | None => np_zeros T T
  end.

(** Every entry that the name lists reach is a dense T x T array. *)
Definition dense_entries : Prop :=
  forall o i v, o ∈ outputs -> i ∈ inputs -> entry o i = Some v ->
    exists a, v = OpNdarray a /\ nrows a = T /\ ncols a = T.

Lemma setitem_slice_block (outjac b : ndarray R) (nO nI iO iI : nat) :
  nrows outjac = nO * T -> ncols outjac = nI * T -> iO < nO -> iI < nI ->
  nrows b = T -> ncols b = T ->
  exists outjac',
    setitem_slice outjac (T * iO) (T * (iO + 1)) (T * iI) (T * (iI + 1))
      (OpNdarray b : op) = Ok outjac' /\
    nrows outjac' = nO * T /\ ncols outjac' = nI * T /\
    forall r c,
      item outjac' r c =
      if bool_decide (T * iO <= r < T * iO + T /\ T * iI <= c < T * iI + T)
      then item b (r - T * iO) (c - T * iI)
      else item outjac r c.
Proof.
  intros Hr Hc HiO HiI Hbr Hbc. unfold setitem_slice, slice_len.
  assert (T * iO + T <= nO * T) as HO by nia.
  assert (T * iI + T <= nI * T) as HI by nia.
  rewrite Hr, Hc, Hbr, Hbc.
  replace (T * (iO + 1)) with (T * iO + T) by lia.
  replace (T * (iI + 1)) with (T * iI + T) by lia.
  rewrite !Nat.min_l by lia.
  replace (T * iO + T - T * iO) with T by lia.
  replace (T * iI + T - T * iI) with T by lia.
  rewrite bool_decide_eq_true_2 by tauto.
  eexists. split; [done|]. simpl. split; [done|]. split; [done|].
  intros r c. case_bool_decide as Hin; [|done].
  f_equal; case_decide; lia.
Qed.

Lemma pack_inner_loop (outjac0 : ndarray R) (iO : nat) (o : string) :
  dense_entries -> outputs !! iO = Some o ->
  nrows outjac0 = length outputs * T -> ncols outjac0 = length inputs * T ->
  exists outjac,
    for_each (seq 0 (length inputs)) outjac0 (fun outjac iI =>
      i ← list_getitem inputs iI;
      setitem_slice outjac (T * iO) (T * (iO + 1)) (T * iI) (T * (iI + 1))
        (get_default (get_default jacdict o []) i (OpNdarray (np_zeros T T))))
    = Ok outjac /\
    nrows outjac = length outputs * T /\ ncols outjac = length inputs * T /\
    (forall r c, ~ (T * iO <= r < T * iO + T) -> item outjac r c = item outjac0 r c) /\
    (forall iI i x y, inputs !! iI = Some i -> x < T -> y < T ->
       item outjac (T * iO + x) (T * iI + y) = item (dense_block o i) x y).
Proof.
  intros Hdense Ho Hr Hc.
  assert (iO < length outputs) as HiO by by eapply lookup_lt_Some.
  assert (o ∈ outputs) as Hoin by by eapply list_elem_of_lookup_2.
  destruct (for_each_seq_invariant
    (P := fun j outjac =>
      nrows outjac = length outputs * T /\ ncols outjac = length inputs * T /\
      (forall r c, ~ (T * iO <= r < T * iO + T) -> item outjac r c = item outjac0 r c) /\
      (forall iI i x y, iI < j -> inputs !! iI = Some i -> x < T -> y < T ->
         item outjac (T * iO + x) (T * iI + y) = item (dense_block o i) x y))
    (body := fun outjac iI =>
      i ← list_getitem inputs iI;
      setitem_slice outjac (T * iO) (T * (iO + 1)) (T * iI) (T * (iI + 1))
        (get_default (get_default jacdict o []) i (OpNdarray (np_zeros T T))))
    (start := 0) (n := length inputs) (s := outjac0))
    as (outjac & Hloop & Hr' & Hc' & Hframe & Hblocks).
  - split; [done|]. split; [done|]. split; [done|]. intros; lia.
  - intros iI a [_ HiI] (Har & Hac & Haframe & Hablocks). simpl in HiI.
    destruct (lookup_lt_is_Some_2 inputs iI HiI) as [i Hi].
    assert (i ∈ inputs) as Hiin by by eapply list_elem_of_lookup_2.
    rewrite (list_getitem_Some Hi). simpl.
    assert (exists b, get_default (get_default jacdict o []) i (OpNdarray (np_zeros T T))
                      = OpNdarray b /\ nrows b = T /\ ncols b = T /\ b = dense_block o i)
      as (b & -> & Hbr & Hbc & Hb).
    { unfold get_default at 1. unfold dense_block.
      change (get (get_default jacdict o []) i) with (entry o i).
      destruct (entry o i) as [v|] eqn:Ev.
      - destruct (Hdense o i v Hoin Hiin Ev) as (a0 & -> & ? & ?). by exists a0.
      - by eexists. }
    destruct (setitem_slice_block (outjac := a) (b := b) (nO := length outputs)
                (nI := length inputs) (iO := iO) (iI := iI))
      as (a' & -> & Ha'r & Ha'c & Hitem); try done.
    exists a'. split; [done|]. split; [done|]. split; [done|]. split.
    + intros r c Hout. rewrite Hitem. rewrite bool_decide_eq_false_2 by tauto.
      by apply Haframe.
    + intros iI' i' x y HiI' Hi' Hx Hy. rewrite Hitem.
      destruct (decide (iI' = iI)) as [->|Hne].
      * rewrite bool_decide_eq_true_2 by lia.
        assert (i' = i) as -> by congruence. rewrite <- Hb. f_equal; lia.
      * rewrite bool_decide_eq_false_2 by nia.
        apply Hablocks; [lia | done..].
  - exists outjac. split; [done|]. split; [done|]. split; [done|]. split; [done|].
    intros iI i x y Hi Hx Hy. apply Hblocks; try done.
    by eapply lookup_lt_Some.
Qed.

(** [pack_jacobians] on dense entries: the whole array is written, whatever
    [np.empty] held. *)
Lemma pack_jacobians_dense :
  dense_entries ->
  exists outjac,
    pack_jacobians uninitialized jacdict inputs outputs T = Ok outjac /\
    nrows outjac = length outputs * T /\ ncols outjac = length inputs * T /\
    forall iO iI o i x y,
      outputs !! iO = Some o -> inputs !! iI = Some i -> x < T -> y < T ->
      item outjac (T * iO + x) (T * iI + y) = item (dense_block o i) x y.
Proof.
  intros Hdense. unfold pack_jacobians.
  destruct (for_each_seq_invariant
    (P := fun j outjac =>
      nrows outjac = length outputs * T /\ ncols outjac = length inputs * T /\
      forall iO iI o i x y, iO < j ->
        outputs !! iO = Some o -> inputs !! iI = Some i -> x < T -> y < T ->
        item outjac (T * iO + x) (T * iI + y) = item (dense_block o i) x y)
    (body := fun outjac iO =>
      o ← list_getitem outputs iO;
      let subdict := get_default jacdict o [] in
      for_each (seq 0 (length inputs)) outjac (fun outjac iI =>
        i ← list_getitem inputs iI;
        setitem_slice outjac (T * iO) (T * (iO + 1)) (T * iI) (T * (iI + 1))
          (get_default subdict i (OpNdarray (np_zeros T T)))))
    (start := 0) (n := length outputs)
    (s := np_empty uninitialized (length outputs * T) (length inputs * T)))
    as (outjac & Hloop & Hr & Hc & Hblocks).
  - split; [done|]. split; [done|]. intros; lia.
  - intros iO a [_ HiO] (Har & Hac & Hablocks). simpl in HiO.
    destruct (lookup_lt_is_Some_2 outputs iO HiO) as [o Ho].
    rewrite (list_getitem_Some Ho). simpl.
    destruct (pack_inner_loop (outjac0 := a) Hdense Ho Har Hac)
      as (a' & -> & Ha'r & Ha'c & Hframe & Hnew).
    exists a'. split; [done|]. split; [done|]. split; [done|].
    intros iO' iI o' i x y HiO' Ho' Hi Hx Hy.
    destruct (decide (iO' = iO)) as [->|Hne].
    + assert (o' = o) as -> by congruence. by apply Hnew.
    + rewrite Hframe by nia. apply Hablocks; [lia | done..].
  - exists outjac. split; [done|]. split; [done|]. split; [done|].
    intros iO iI o i x y Ho Hi Hx Hy. apply Hblocks; try done.
    by eapply lookup_lt_Some.
Qed.

Lemma block_shape o i :
  dense_entries -> o ∈ outputs -> i ∈ inputs ->
  nrows (dense_block o i) = T /\ ncols (dense_block o i) = T.
Proof.
  intros Hdense Ho Hi. unfold dense_block.
  destruct (entry o i) as [v|] eqn:Ev; [|done].
  by destruct (Hdense o i v Ho Hi Ev) as (a & -> & ? & ?).
Qed.

(** The block of the pair at positions (iO, iI) of a packed array. *)
Definition block_at (bigjac : ndarray R) (iO iI : nat) : ndarray R :=
  getitem_slice bigjac (T * iO) (T * (iO + 1)) (T * iI) (T * (iI + 1)).

Lemma block_at_packed (outjac : ndarray R) (iO iI : nat) :
  nrows outjac = length outputs * T -> ncols outjac = length inputs * T ->
  iO < length outputs -> iI < length inputs ->
  nrows (block_at outjac iO iI) = T /\ ncols (block_at outjac iO iI) = T /\
  forall x y, item (block_at outjac iO iI) x y = item outjac (T * iO + x) (T * iI + y).
Proof.
  intros Hr Hc HiO HiI. unfold block_at, getitem_slice, slice_len. simpl.
  rewrite Hr, Hc.
  assert (T * iO + T <= length outputs * T) as HO by nia.
  assert (T * iI + T <= length inputs * T) as HI by nia.
  replace (T * (iO + 1)) with (T * iO + T) by lia.
  replace (T * (iI + 1)) with (T * iI + T) by lia.
  rewrite !Nat.min_l by lia.
  split; [lia|]. split; [lia|]. done.
Qed.

(** On dense entries the block of the packed array at the positions of a
    pair (o, i) is the entry of the pair, or the zero block. *)
Lemma pack_jacobians_block_at :
  dense_entries ->
  exists outjac,
    pack_jacobians uninitialized jacdict inputs outputs T = Ok outjac /\
    nrows outjac = length outputs * T /\
    ncols outjac = length inputs * T /\
    forall iO iI o i,
      outputs !! iO = Some o -> inputs !! iI = Some i ->
      array_eq (block_at outjac iO iI) (dense_block o i).
Proof.
  intros Hdense.
  destruct (pack_jacobians_dense Hdense) as (outjac & Hpack & Hr & Hc & Hitems).
  exists outjac. split; [done|]. split; [done|]. split; [done|].
  intros iO iI o i Ho Hi.
  assert (iO < length outputs) as HiO by by eapply lookup_lt_Some.
  assert (iI < length inputs) as HiI by by eapply lookup_lt_Some.
  destruct (block_at_packed Hr Hc HiO HiI) as (Hbr & Hbc & Hbitem).
  destruct (block_shape (o := o) (i := i) Hdense) as [Hsr Hsc];
    [by eapply list_elem_of_lookup_2 | by eapply list_elem_of_lookup_2 |].
  split; [lia|]. split; [lia|].
  intros x y Hx Hy. rewrite Hbitem. apply Hitems; try done; lia.
Qed.

(** C7, as the code has it.  When the entries that the name lists reach are
    dense T x T arrays, [pack_jacobians] returns an (nO*T) x (nI*T) array
    whose block (o, i) is the entry [jacdict[o][i]] when it is present (for
    a dense array [make_matrix] is the array itself) and the T x T zero
    block when it is absent. *)
Theorem pack_jacobians_blocks :
  dense_entries ->
  exists outjac,
    pack_jacobians uninitialized jacdict inputs outputs T = Ok outjac /\
    nrows outjac = length outputs * T /\
    ncols outjac = length inputs * T /\
    forall iO iI o i,
      outputs !! iO = Some o -> inputs !! iI = Some i ->
      array_eq (block_at outjac iO iI)
        (match entry o i with
         | Some v => make_matrix SimpleSparse_matrix v T
         | None => np_zeros T T
         end).
Proof. apply pack_jacobians_block_at. Qed.

(** *** Unpacking *)

Definition unpacked_row (bigjac : ndarray R) (o : string) (row : dict op) : Prop :=
  (forall i, i ∈ keys row <-> i ∈ inputs) /\
  forall i v, get row i = Some v ->
    exists iO iI,
      outputs !! iO = Some o /\ inputs !! iI = Some i /\
      v = OpNdarray (block_at bigjac iO iI).

Lemma unpack_inner_loop (bigjac : ndarray R) (jacdict0 : dict (dict op))
    (iO : nat) (o : string) :
  outputs !! iO = Some o -> get jacdict0 o = Some [] ->
  exists jacdict' row,
    for_each (seq 0 (length inputs)) jacdict0 (fun jacdict iI =>
      row ← getitem jacdict o;
      i ← list_getitem inputs iI;
      Ok (setitem jacdict o
            (setitem row i
               (OpNdarray (getitem_slice bigjac (T * iO) (T * (iO + 1))
                                                (T * iI) (T * (iI + 1)))))))
    = Ok jacdict' /\
    (forall o', o' ≠ o -> get jacdict' o' = get jacdict0 o') /\
    (forall o', o' ∈ keys jacdict' <-> o' ∈ keys jacdict0) /\
    get jacdict' o = Some row /\ unpacked_row bigjac o row.
Proof.
  intros Ho Hempty.
  destruct (for_each_seq_invariant
    (P := fun j jd =>
      (forall o', o' ≠ o -> get jd o' = get jacdict0 o') /\
      (forall o', o' ∈ keys jd <-> o' ∈ keys jacdict0) /\
      exists row, get jd o = Some row /\
        (forall i, i ∈ keys row <-> exists iI, iI < j /\ inputs !! iI = Some i) /\
        (forall i v, get row i = Some v ->
           exists iI, inputs !! iI = Some i /\ v = OpNdarray (block_at bigjac iO iI)))
    (body := fun jacdict iI =>
      row ← getitem jacdict o;
      i ← list_getitem inputs iI;
      Ok (setitem jacdict o
            (setitem row i
               (OpNdarray (getitem_slice bigjac (T * iO) (T * (iO + 1))
                                                (T * iI) (T * (iI + 1)))))))
    (start := 0) (n := length inputs) (s := jacdict0))
    as (jd & Hloop & Hother & Hkeys & row & Hrow & Hrkeys & Hrvals).
  - split; [done|]. split; [done|]. exists []. split; [done|]. split.
    + intros i. rewrite elem_of_keys_nil. split; [done|]. intros (iI & ? & _). lia.
    + intros i v Hv. done.
  - intros iI jd [_ HiI] (Hother & Hkeys & row & Hrow & Hrkeys & Hrvals). simpl in HiI.
    destruct (lookup_lt_is_Some_2 inputs iI HiI) as [i Hi].
    rewrite (getitem_Some Hrow). simpl.
    rewrite (list_getitem_Some Hi). simpl.
    eexists. split; [done|]. split; [|split].
    + intros o' Hne. rewrite get_setitem_ne by done. by apply Hother.
    + intros o'. rewrite elem_of_keys_setitem, <- Hkeys. split; [|tauto].
      intros [->|]; [|done]. by eapply get_Some_keys.
    + eexists. split; [apply get_setitem_eq|]. split.
      * intros i'. rewrite elem_of_keys_setitem, Hrkeys. split.
        -- intros [->|(iI' & ? & ?)]; [exists iI; split; [lia | done]|].
           exists iI'. split; [lia | done].
        -- intros (iI' & HiI' & Hi').
           destruct (decide (iI' = iI)) as [->|Hne].
           ++ left. congruence.
           ++ right. exists iI'. split; [lia | done].
      * intros i' v. rewrite get_setitem. case_decide as Hii.
        -- intros [= <-]. subst. by exists iI.
        -- apply Hrvals.
  - exists jd, row. split; [done|]. split; [done|]. split; [done|]. split; [done|].
    split.
    + intros i. rewrite Hrkeys. rewrite list_elem_of_lookup. split.
      * intros (iI & _ & Hi). by exists iI.
      * intros (iI & Hi). exists iI. split; [by eapply lookup_lt_Some | done].
    + intros i v Hv. destruct (Hrvals i v Hv) as (iI & ? & ?). by exists iO, iI.
Qed.

(** [unpack_jacobians] never raises on the slices of any array: every
    listed output is a key, bound to a row that has every listed input. *)
Lemma unpack_jacobians_slices (bigjac : ndarray R) :
  exists jacdict',
    unpack_jacobians (SimpleSparse := SimpleSparse) bigjac inputs outputs T
      = Ok jacdict' /\
    (forall o, o ∈ keys jacdict' <-> o ∈ outputs) /\
    forall o row, get jacdict' o = Some row -> unpacked_row bigjac o row.
Proof.
  unfold unpack_jacobians.
  destruct (for_each_seq_invariant
    (P := fun j (jd : dict (dict op)) =>
      (forall o, o ∈ keys jd <-> exists iO, iO < j /\ outputs !! iO = Some o) /\
      forall o row, get jd o = Some row -> unpacked_row bigjac o row)
    (body := fun jacdict iO =>
      o ← list_getitem outputs iO;
      let jacdict := setitem jacdict o [] in
      for_each (seq 0 (length inputs)) jacdict (fun jacdict iI =>
        o ← list_getitem outputs iO;
        row ← getitem jacdict o;
        i ← list_getitem inputs iI;
        Ok (setitem jacdict o
              (setitem row i
                 (OpNdarray (getitem_slice bigjac (T * iO) (T * (iO + 1))
                                                  (T * iI) (T * (iI + 1))))))))
    (start := 0) (n := length outputs) (s := []))
    as (jd & Hloop & Hkeys & Hrows).
  - split.
    + intros o. rewrite elem_of_keys_nil. split; [done|]. intros (iO & ? & _). lia.
    + intros o row Hrow. done.
  - intros iO jd [_ HiO] (Hkeys & Hrows). simpl in HiO.
    destruct (lookup_lt_is_Some_2 outputs iO HiO) as [o Ho].
    rewrite (list_getitem_Some Ho). simpl.
    destruct (unpack_inner_loop bigjac (jacdict0 := setitem jd o []) Ho)
      as (jd' & row & -> & Hother & Hkeys' & Hrow & Hunpacked);
      [apply get_setitem_eq|].
    exists jd'. split; [done|]. split.
    + intros o'. rewrite Hkeys', elem_of_keys_setitem, Hkeys. split.
      * intros [->|(iO' & ? & ?)]; [exists iO; split; [lia | done]|].
        exists iO'. split; [lia | done].
      * intros (iO' & HiO' & Ho').
        destruct (decide (iO' = iO)) as [->|Hne].
        -- left. congruence.
        -- right. exists iO'. split; [lia | done].
    + intros o' row' Hrow'. destruct (decide (o' = o)) as [->|Hne].
      * rewrite Hrow in Hrow'. by injection Hrow' as <-.
      * rewrite Hother, get_setitem_ne in Hrow' by done. by apply Hrows.
  - exists jd. split; [done|]. split; [|done].
    intros o. rewrite Hkeys, list_elem_of_lookup. split.
    + intros (iO & _ & Ho). by exists iO.
    + intros (iO & Ho). exists iO. split; [by eapply lookup_lt_Some | done].
Qed.

(** C8, as the code has it.  For a Jacobian dictionary whose entries at the
    listed names are dense T x T arrays, packing and then unpacking raises no
    error and
    returns a dictionary whose keys are the listed outputs, each bound to a
    row whose keys are the listed inputs; the pair (o, i) is bound to the
    block of [jacdict[o][i]] when the entry is present and to the T x T zero
    matrix when it is absent. *)
Theorem unpack_pack_round_trip :
  dense_entries ->
  exists bigjac jacdict',
    pack_jacobians uninitialized jacdict inputs outputs T = Ok bigjac /\
    unpack_jacobians (SimpleSparse := SimpleSparse) bigjac inputs outputs T
      = Ok jacdict' /\
    (forall o, o ∈ keys jacdict' <-> o ∈ outputs) /\
    forall o, o ∈ outputs ->
      exists row,
        get jacdict' o = Some row /\
        (forall i, i ∈ keys row <-> i ∈ inputs) /\
        forall i, i ∈ inputs ->
          exists b,
            get row i = Some (OpNdarray b) /\
            (forall a, entry o i = Some (OpNdarray a) -> array_eq b a) /\
            (entry o i = None -> array_eq b (np_zeros T T)).
Proof.
  intros Hdense.
  destruct (pack_jacobians_block_at Hdense) as (bigjac & Hpack & Hr & Hc & Hblocks).
  destruct (unpack_jacobians_slices bigjac) as (jd & Hunpack & Hkeys & Hrows).
  exists bigjac, jd. split; [done|]. split; [done|]. split; [done|].
  intros o Ho. apply Hkeys in Ho as Hin. apply keys_get in Hin as [row Hrow].
  exists row. split; [done|].
  destruct (Hrows o row Hrow) as [Hrkeys Hrvals]. split; [done|].
  intros i Hi. apply Hrkeys in Hi as Hiin. apply keys_get in Hiin as [v Hv].
  destruct (Hrvals i v Hv) as (iO & iI & HiO & HiI & ->).
  exists (block_at bigjac iO iI). split; [done|].
  specialize (Hblocks iO iI o i HiO HiI). unfold dense_block in Hblocks. split.
  - intros a Ha. by rewrite Ha in Hblocks.
  - intros Hnone. by rewrite Hnone in Hblocks.
Qed.

End packing.

(** *** Packing: examples *)

(** The array with the given rows. *)
Definition of_rows (rows : list (list Z)) : ndarray Z :=
  mk_ndarray (length rows) (length (default [] (head rows)))
    (fun r c => default 0%Z (default [] (rows !! r) !! c)).

(** A Jacobian dictionary without sparse operators. *)
Definition no_sparse_matrix (s : Empty_set) (T : nat) : ndarray Z :=
  match s with end.

Definition J_dense : dict (dict (operator Z Empty_set)) :=
  [("y", [("x", OpNdarray (of_rows [[1; 2]; [3; 4]]%Z))])].

Definition J_identity : dict (dict (operator Z Empty_set)) :=
  [("y", [("x", OpIdentityMatrix)])].

Definition garbage (r c : nat) : Z := 99%Z.

Example pack_jacobians_example :
  to_rows <$> pack_jacobians garbage J_dense ["x"; "u"] ["y"] 2 =
  Ok [[1; 2; 0; 0]; [3; 4; 0; 0]]%Z.
Proof. reflexivity. Qed.

Lemma J_dense_entries : dense_entries J_dense ["x"; "u"] ["y"] 2.
Proof.
  intros o i v Ho Hi.
  apply list_elem_of_singleton in Ho as ->.
  apply elem_of_cons in Hi as [->|Hi];
    [|apply list_elem_of_singleton in Hi as ->]; vm_compute; intros [= <-].
  by eexists.
Qed.

Lemma pack_jacobians_blocks_witness :
  exists outjac,
    pack_jacobians garbage J_dense ["x"; "u"] ["y"] 2 = Ok outjac /\
    nrows outjac = 2 /\ ncols outjac = 4 /\
    array_eq (block_at 2 outjac 0 0) (of_rows [[1; 2]; [3; 4]]%Z) /\
    array_eq (block_at 2 outjac 0 1) (np_zeros 2 2).
Proof.
  destruct (pack_jacobians_blocks no_sparse_matrix garbage J_dense_entries)
    as (outjac & Hpack & Hr & Hc & Hblocks).
  exists outjac. split; [exact Hpack|]. split; [exact Hr|]. split; [exact Hc|].
  split.
  - exact (Hblocks 0 0 "y" "x" eq_refl eq_refl).
  - exact (Hblocks 0 1 "y" "u" eq_refl eq_refl).
Defined.

(** C7 as stated fails on an entry that is not a dense array:
    [pack_jacobians] assigns the entry itself to the slice, without
    [make_matrix], and numpy cannot convert an [IdentityMatrix]. *)
Lemma pack_jacobians_identity_raises :
  pack_jacobians garbage J_identity ["x"] ["y"] 2 = Raise TypeError /\
  ~ exists outjac,
      pack_jacobians garbage J_identity ["x"] ["y"] 2 = Ok outjac /\
      array_eq (block_at 2 outjac 0 0)
               (make_matrix no_sparse_matrix OpIdentityMatrix 2).
Proof.
  split; [reflexivity|]. intros (outjac & Hpack & _). discriminate Hpack.
Qed.

Example unpack_pack_example :
  (fun jacdict' => (fun row : dict (operator Z Empty_set) =>
     (fun v => match v with OpNdarray b => to_rows b | _ => [] end) <$> row.*2)
     <$> jacdict'.*2)
  <$> (bigjac ← pack_jacobians garbage J_dense ["x"; "u"] ["y"] 2;
       unpack_jacobians bigjac ["x"; "u"] ["y"] 2) =
  Ok [ [ [[1; 2]; [3; 4]]; [[0; 0]; [0; 0]] ] ]%Z.
Proof. reflexivity. Qed.

Lemma unpack_pack_round_trip_witness :
  exists bigjac jacdict',
    pack_jacobians garbage J_dense ["x"; "u"] ["y"] 2 = Ok bigjac /\
    unpack_jacobians (SimpleSparse := Empty_set) bigjac ["x"; "u"] ["y"] 2
      = Ok jacdict' /\
    forall o, o ∈ keys jacdict' <-> o ∈ ["y"].
Proof.
  destruct (unpack_pack_round_trip no_sparse_matrix garbage J_dense_entries)
    as (bigjac & jacdict' & Hpack & Hunpack & Hkeys & _).
  exists bigjac, jacdict'. split; [exact Hpack|]. split; [exact Hunpack|].
  exact Hkeys.
Defined.

(** C8 as stated fails on a Jacobian dictionary with an entry that is not a
    dense array.  The pair (y, x) is present in [{y: {x: IdentityMatrix()}}],
    the kind of entry [chain_jacobians] makes for its inputs, yet packing
    raises, so packing and then unpacking returns no dictionary and the pair
    recovers no block. *)
Lemma unpack_pack_round_trip_identity_fails :
  entry J_identity "y" "x" = Some OpIdentityMatrix /\
  ~ dense_entries J_identity ["x"] ["y"] 2 /\
  (bigjac ← pack_jacobians garbage J_identity ["x"] ["y"] 2;
   unpack_jacobians (SimpleSparse := Empty_set) bigjac ["x"] ["y"] 2)
    = Raise TypeError /\
  ~ exists bigjac jacdict' row,
      pack_jacobians garbage J_identity ["x"] ["y"] 2 = Ok bigjac /\
      unpack_jacobians (SimpleSparse := Empty_set) bigjac ["x"] ["y"] 2
        = Ok jacdict' /\
      get jacdict' "y" = Some row /\ "x" ∈ keys row.
Proof.
  split; [reflexivity|]. split; [|split; [reflexivity|]].
  - intros Hdense.
    destruct (Hdense "y" "x" OpIdentityMatrix) as (a & Ha & _);
      [left | left | reflexivity | discriminate Ha].
  - intros (bigjac & jacdict' & row & Hpack & _). discriminate Hpack.
Qed.

(** ** Part 4: sorting the blocks along the graph *)

Section graph.
Context {V SteadyState : Type}.

(** [sim.SimpleBlock]: the graph only reads the declared lists. *)
Record SimpleBlock : Type := {
  input_list : list string;
  output_list : list string;
}.

(** An element of [block_list]: a simple block, a Jacobian dictionary, or
    an object that is neither. *)
Inductive block : Type :=
  | BlockSimple (b : SimpleBlock)
  | BlockDict (jacdict : dict (dict V))
  | BlockOther.

(** The collaborators: [utils.topological_sort] and [sim.all_Js]. *)
Context (topological_sort : gmap nat (gset nat) -> result (list nat)).
Context (all_Js : SimpleBlock -> SteadyState -> list string -> result (dict (dict V))).

(** [enumerate(l)] *)
Definition enumerate {A : Type} (l : list A) : list (nat * A) :=
  zip (seq 0 (length l)) l.

(** The outputs of a block, as step 1 reads them. *)
Definition outputs_of (b : block) : result (list string) :=
  match b with
  | BlockSimple b => Ok (output_list b)
  | BlockDict jacdict => Ok (keys jacdict)
  | BlockOther => Raise (ValueError "is not recognized as block")
  end.

(** [[i for o in block for i in block[o]]] *)
Definition inner_keys (jacdict : dict (dict V)) : list string :=
  jacdict ≫= (fun orow => keys orow.2).

(** The inputs of a block, as step 2 reads them; [list(set(...))] keeps one
    copy of each name.  Step 1 has rejected an unrecognized block before
    step 2 or step 4 could meet it. *)
Definition inputs_of (b : block) : result (list string) :=
  match b with
  | BlockSimple b => Ok (input_list b)
  | BlockDict jacdict => Ok (elements (list_to_set (inner_keys jacdict) : gset string))
  | BlockOther => Raise TypeError
  end.

(** Step 1: map outputs to blocks. *)
Definition build_outmap (block_list : list block) : result (dict nat) :=
  for_each (enumerate block_list) [] (fun outmap nb =>
    output_list ← outputs_of nb.2;
    for_each output_list outmap (fun outmap o =>
      if contains outmap o then Raise (ValueError "is output twice")
      else Ok (setitem outmap o nb.1))).

(** Step 2: the dependency graph and the set [required]. *)
Definition build_dep (block_list : list block) (outmap : dict nat)
  : result (gmap nat (gset nat) * gset string) :=
  let dep : gmap nat (gset nat) :=
    list_to_map ((fun num => (num, ∅)) <$> seq 0 (length block_list)) in
  let required : gset string := ∅ in
  for_each (enumerate block_list) (dep, required) (fun st nb =>
    input_list ← inputs_of nb.2;
    for_each input_list st (fun st i =>
      if contains outmap i then
        producer ← getitem outmap i;
        match st.1 !! nb.1 with
        | Some deps =>
            Ok (<[nb.1 := deps ∪ {[producer]}]> st.1, st.2 ∪ {[i]})
        | None => Raise KeyError
        end
      else Ok st)).

(** [curlyJ_sorted(block_list, inputs, ss)] *)
Definition curlyJ_sorted (block_list : list block) (inputs : list string)
    (ss : SteadyState) : result (list (dict (dict V)) * gset string) :=
  outmap ← build_outmap block_list;
  '(dep, required) ← build_dep block_list outmap;
  topsorted ← topological_sort dep;
  let shocks : gset string := list_to_set inputs ∪ required in
  curlyJs ← for_each topsorted [] (fun curlyJs num =>
    b ← list_getitem block_list num;
    jac ← match b with
          | BlockSimple b =>
              all_Js b ss (filter (fun i => i ∈ shocks) (input_list b))
          | BlockDict jacdict => Ok jacdict
          | BlockOther => Raise TypeError
          end;
    Ok (curlyJs ++ [jac]));
  Ok (curlyJs, required).

End graph.

Arguments block : clear implicits.

Lemma for_each_prefix_invariant {A S : Type} (P : list A -> S -> Prop)
    (body : S -> A -> result S) (l : list A) (s s' : S) :
  P [] s ->
  (forall pre x s1 s2, (exists post, l = pre ++ x :: post) ->
     P pre s1 -> body s1 x = Ok s2 -> P (pre ++ [x]) s2) ->
  for_each l s body = Ok s' -> P l s'.
Proof.
  intros Hs Hbody.
  assert (forall rest pre s1, l = pre ++ rest -> P pre s1 ->
            for_each rest s1 body = Ok s' -> P l s') as Hgen.
  { induction rest as [|x rest IH]; intros pre s1 Hl Hpre Hrun; simpl in Hrun.
    - injection Hrun as <-. by rewrite Hl, app_nil_r.
    - destruct (body s1 x) as [s2|] eqn:Hx; simpl in Hrun; [|done].
      apply (IH (pre ++ [x]) s2); [by rewrite <- app_assoc | | done].
      eapply Hbody; [by exists rest | done..]. }
  by apply (Hgen l [] s).
Qed.

Lemma elem_of_enumerate {A : Type} (l : list A) (n : nat) (x : A) :
  (n, x) ∈ enumerate l <-> l !! n = Some x.
Proof.
  unfold enumerate. rewrite list_elem_of_lookup. split.
  - intros (j & Hj). apply lookup_zip_with_Some in Hj as (n' & x' & [= -> ->] & Hn & Hx).
    apply lookup_seq in Hn as [-> _]. done.
  - intros Hx. exists n. apply lookup_zip_with_Some. exists n, x.
    split; [done|]. split; [|done]. apply lookup_seq. split; [done|].
    by eapply lookup_lt_Some.
Qed.

Section graph_facts.
Context {V SteadyState : Type}.
Context (topological_sort : gmap nat (gset nat) -> result (list nat)).
Context (all_Js : SimpleBlock -> SteadyState -> list string -> result (dict (dict V))).
Implicit Types (b : block V) (block_list : list (block V)).

(** The declared inputs of a node: the input list of a block, the union of
    the inner keys of a Jacobian dictionary. *)
Definition declared_inputs b : list string :=
  match b with
  | BlockSimple b => input_list b
  | BlockDict jacdict => inner_keys jacdict
  | BlockOther => []
  end.

(** The outputs that a node produces. *)
Definition declared_outputs b : list string :=
  match b with
  | BlockSimple b => output_list b
  | BlockDict jacdict => keys jacdict
  | BlockOther => []
  end.

Lemma outputs_of_declared b outs o :
  outputs_of b = Ok outs -> o ∈ outs <-> o ∈ declared_outputs b.
Proof. destruct b; simpl; intros [= <-]; done. Qed.

Lemma inputs_of_declared b ins i :
  inputs_of b = Ok ins -> i ∈ ins <-> i ∈ declared_inputs b.
Proof.
  destruct b; simpl; intros [= <-]; [done|].
  rewrite elem_of_elements, elem_of_list_to_set. done.
Qed.

Lemma keys_build_outmap block_list outmap :
  build_outmap block_list = Ok outmap ->
  forall o, o ∈ keys outmap <->
    exists num b, block_list !! num = Some b /\ o ∈ declared_outputs b.
Proof.
  unfold build_outmap. intros Hrun.
  enough (forall o, o ∈ keys outmap <->
            exists nb, nb ∈ enumerate block_list /\ o ∈ declared_outputs nb.2) as Hinv.
  { intros o. rewrite Hinv. split.
    - intros ([num b] & Hin & Ho). apply elem_of_enumerate in Hin. by exists num, b.
    - intros (num & b & Hin & Ho). exists (num, b). split; [|done].
      by apply elem_of_enumerate. }
  revert Hrun. apply (for_each_prefix_invariant
    (P := fun pre outmap => forall o, o ∈ keys outmap <->
      exists nb, nb ∈ pre /\ o ∈ declared_outputs nb.2)).
  - intros o. rewrite elem_of_keys_nil. split; [done|].
    intros (nb & Hnb & _). by apply elem_of_nil in Hnb.
  - intros pre [num b] om1 om2 _ Hpre Hbody. simpl in Hbody.
    destruct (outputs_of b) as [outs|] eqn:Houts; simpl in Hbody; [|done].
    enough (forall o, o ∈ keys om2 <-> o ∈ keys om1 \/ o ∈ outs) as Hinner.
    { intros o. rewrite Hinner, Hpre. split.
      - intros [(nb & Hnb & Ho)|Ho].
        + exists nb. split; [|done]. apply elem_of_app. by left.
        + exists (num, b). split; [apply elem_of_app; right; by left|].
          by apply (outputs_of_declared o Houts).
      - intros (nb & Hnb & Ho). apply elem_of_app in Hnb as [Hnb|Hnb].
        + left. by exists nb.
        + apply list_elem_of_singleton in Hnb as ->. right.
          by apply (outputs_of_declared o Houts). }
    revert Hbody. apply (for_each_prefix_invariant
      (P := fun done om => forall o, o ∈ keys om <-> o ∈ keys om1 \/ o ∈ done)).
    + intros o. rewrite elem_of_nil. tauto.
    + intros done' o' om3 om4 _ Hinv Hstep.
      destruct (contains om3 o'); [done|]. injection Hstep as <-.
      intros o. rewrite elem_of_keys_setitem, Hinv, elem_of_app, list_elem_of_singleton.
      tauto.
Qed.

Lemma required_build_dep block_list outmap dep (required : gset string) :
  build_dep block_list outmap = Ok (dep, required) ->
  forall i, i ∈ required <->
    i ∈ keys outmap /\
    exists num b, block_list !! num = Some b /\ i ∈ declared_inputs b.
Proof.
  unfold build_dep. intros Hrun.
  enough (forall i, i ∈ (dep, required).2 <->
            i ∈ keys outmap /\
            exists nb, nb ∈ enumerate block_list /\ i ∈ declared_inputs nb.2) as Hinv.
  { intros i. rewrite (Hinv i). split.
    - intros (Hi & [num b] & Hin & Hdecl). split; [done|].
      apply elem_of_enumerate in Hin. by exists num, b.
    - intros (Hi & num & b & Hin & Hdecl). split; [done|].
      exists (num, b). split; [|done]. by apply elem_of_enumerate. }
  revert Hrun. apply (for_each_prefix_invariant
    (P := fun pre (st : gmap nat (gset nat) * gset string) =>
      forall i, i ∈ st.2 <->
        i ∈ keys outmap /\ exists nb, nb ∈ pre /\ i ∈ declared_inputs nb.2)).
  - intros i. simpl. split; [set_solver|].
    intros (_ & nb & Hnb & _). by apply elem_of_nil in Hnb.
  - intros pre [num b] st1 st2 _ Hpre Hbody. simpl in Hbody.
    destruct (inputs_of b) as [ins|] eqn:Hins; simpl in Hbody; [|done].
    enough (forall i, i ∈ st2.2 <-> i ∈ st1.2 \/ (i ∈ keys outmap /\ i ∈ ins)) as Hinner.
    { intros i. rewrite Hinner, Hpre. split.
      - intros [(Hi & nb & Hnb & Hdecl)|(Hi & Hdecl)].
        + split; [done|]. exists nb. split; [|done]. apply elem_of_app. by left.
        + split; [done|]. exists (num, b).
          split; [apply elem_of_app; right; by left|].
          by apply (inputs_of_declared i Hins).
      - intros (Hi & nb & Hnb & Hdecl). apply elem_of_app in Hnb as [Hnb|Hnb].
        + left. split; [done|]. by exists nb.
        + apply list_elem_of_singleton in Hnb as ->. right. split; [done|].
          by apply (inputs_of_declared i Hins). }
    revert Hbody. apply (for_each_prefix_invariant
      (P := fun done (st : gmap nat (gset nat) * gset string) =>
        forall i, i ∈ st.2 <-> i ∈ st1.2 \/ (i ∈ keys outmap /\ i ∈ done))).
    + intros i. rewrite elem_of_nil. tauto.
    + intros done' i' st3 st4 _ Hinv Hstep.
      destruct (contains outmap i') eqn:Hc.
      * destruct (getitem outmap i') as [producer|]; simpl in Hstep; [|done].
        destruct (st3.1 !! num) as [deps|]; [|done]. injection Hstep as <-.
        intros i. simpl. rewrite elem_of_union, elem_of_singleton, Hinv, elem_of_app,
          list_elem_of_singleton.
        apply contains_true in Hc. split; [|tauto].
        intros [[Hi|[Hi Hi']]| ->]; tauto.
      * injection Hstep as <-. apply contains_false in Hc.
        intros i. rewrite Hinv, elem_of_app, list_elem_of_singleton. split; [tauto|].
        intros [Hi|[Hi [Hi'| ->]]]; tauto.
Qed.

(** C3, as the code has it.  When [curlyJ_sorted] accepts a block list, the
    returned [required] set holds exactly the declared inputs of the nodes
    that some node of the list produces as an output; a declared input that
    no node produces is exogenous and is not in [required]. *)
Theorem curlyJ_sorted_required block_list (inputs : list string) (ss : SteadyState)
    (curlyJs : list (dict (dict V))) (required : gset string) :
  curlyJ_sorted topological_sort all_Js block_list inputs ss = Ok (curlyJs, required) ->
  forall i,
    i ∈ required <->
    (exists num b, block_list !! num = Some b /\ i ∈ declared_inputs b) /\
    (exists num b, block_list !! num = Some b /\ i ∈ declared_outputs b).
Proof.
  unfold curlyJ_sorted. intros Hrun.
  destruct (build_outmap block_list) as [outmap|] eqn:Hout; simpl in Hrun; [|done].
  destruct (build_dep block_list outmap) as [[dep req]|] eqn:Hdep; simpl in Hrun; [|done].
  destruct (topological_sort dep) as [topsorted|]; simpl in Hrun; [|done].
  destruct (for_each topsorted _ _) as [cJs|]; simpl in Hrun; [|done].
  injection Hrun as <- <-.
  intros i. rewrite (required_build_dep Hdep), (keys_build_outmap Hout). tauto.
Qed.

End graph_facts.

(** *** The graph: examples *)

(** Modelled from the spec: [utils.topological_sort], which is not under
    [src/].  Given the mapping from node id to the set of the ids it depends
    on, it returns every node id once, each after all the ids it depends on,
    and signals an error when the dependencies have a cycle.  Each round
    emits the nodes whose dependencies have all been emitted. *)
Fixpoint topsort_rounds (fuel : nat) (dep : gmap nat (gset nat))
    (sorted : list nat) : list nat :=
  match fuel with
  | 0 => sorted
  | S fuel' =>
      let ready :=
        filter (fun n => (n ∉ sorted) /\ default ∅ (dep !! n) ⊆ list_to_set sorted)
               (elements (dom dep)) in
      topsort_rounds fuel' dep (sorted ++ ready)
  end.

Definition topological_sort (dep : gmap nat (gset nat)) : result (list nat) :=
  let sorted := topsort_rounds (size dep) dep [] in
  if decide (length sorted = size dep) then Ok sorted else Raise CycleError.

(** No simple block takes part in the examples. *)
Definition no_all_Js (b : SimpleBlock) (ss : unit) (shock_list : list string)
  : result (dict (dict Z)) :=
  Raise TypeError.

Definition block_y : block Z := BlockDict [("y", [("x", 2%Z)])].
Definition block_z : block Z := BlockDict [("z", [("y", 3%Z)])].

Example curlyJ_sorted_two_blocks :
  curlyJ_sorted topological_sort no_all_Js [block_z; block_y] ["x"] tt =
  Ok ([ [("y", [("x", 2%Z)])]; [("z", [("y", 3%Z)])] ], {["y"]}).
Proof. vm_compute. reflexivity. Qed.

(** A stand-in for [sim.all_Js]: every output gets the Jacobian 1 with
    respect to every shocked input. *)
Definition unit_all_Js (b : SimpleBlock) (ss : unit) (shock_list : list string)
  : result (dict (dict Z)) :=
  Ok ((fun o => (o, (fun i => (i, 1%Z)) <$> shock_list)) <$> output_list b).

(** A simple block is differentiated with respect to its inputs that are
    shocks: x is exogenous, y is required, w is neither. *)
Example curlyJ_sorted_simple_block :
  curlyJ_sorted topological_sort unit_all_Js
    [BlockSimple {| input_list := ["y"; "w"; "x"]; output_list := ["z"] |}; block_y]
    ["x"] tt =
  Ok ([ [("y", [("x", 2%Z)])]; [("z", [("y", 1%Z); ("x", 1%Z)])] ], {["y"]}).
Proof. vm_compute. reflexivity. Qed.

Example curlyJ_sorted_output_twice :
  curlyJ_sorted topological_sort no_all_Js [block_y; block_y] ["x"] tt =
  Raise (ValueError "is output twice").
Proof. vm_compute. reflexivity. Qed.

Lemma curlyJ_sorted_required_witness :
  "y" ∈ ({["y"]} : gset string) <->
  (exists num b, [block_z; block_y] !! num = Some b /\ "y" ∈ declared_inputs b) /\
  (exists num b, [block_z; block_y] !! num = Some b /\ "y" ∈ declared_outputs b).
Proof.
  refine (curlyJ_sorted_required (topological_sort := topological_sort)
            (all_Js := no_all_Js) (block_list := [block_z; block_y])
            (inputs := ["x"]) (ss := tt)
            (curlyJs := [ [("y", [("x", 2%Z)])]; [("z", [("y", 3%Z)])] ])
            _ "y").
  vm_compute. reflexivity.
Defined.

(** C3 as stated fails: x is a declared input of the only node and no node
    produces it, yet it is not in [required]. *)
Lemma curlyJ_sorted_exogenous_not_required :
  exists curlyJs required,
    curlyJ_sorted topological_sort no_all_Js [block_y] ["x"] tt
      = Ok (curlyJs, required) /\
    "x" ∈ declared_inputs block_y /\
    ("x" ∉ declared_outputs block_y) /\
    "x" ∉ required.
Proof.
  exists [ [("y", [("x", 2%Z)])] ], ∅.
  split; [vm_compute; reflexivity|].
  split; [vm_compute; left|].
  split; [|set_solver].
  vm_compute. intros H. apply list_elem_of_singleton in H. discriminate H.
Qed.

(** ** Part 5: objects, references and aliasing

    The dictionary algebra above computes with values.  Python binds names
    and dictionary keys to objects, and [+=] on an ndarray changes the
    object in place, so whether two bindings share an object matters.  The
    store holds the operator and sequence objects, each cell with the whole
    state of its object (the buffer of an array, the elements of a sparse
    operator), and the dictionary objects, which bind names to references. *)

Abbreviation ref := nat.

Record store (V : Type) : Type := mk_store {
  objects : list V;
  dicts : list (dict ref);
}.
Arguments mk_store {V} objects dicts.

Section store.
Context {V : Type} `{!Operators V}.

(** [ndarray] implements [+=] in place; the other operator types do not
    define it and Python rebinds the name to the result of [+]. *)
Context (in_place : V -> bool).

Implicit Types (st : store V).

Definition read_obj st (r : ref) : result V :=
  match objects st !! r with
  | Some v => Ok v
  | None => Raise Dangling
  end.

Definition alloc_obj st (v : V) : ref * store V :=
  (length (objects st), mk_store (objects st ++ [v]) (dicts st)).

Definition write_obj st (r : ref) (v : V) : store V :=
  mk_store (<[r := v]> (objects st)) (dicts st).

Definition read_dict st (l : ref) : result (dict ref) :=
  match dicts st !! l with
  | Some d => Ok d
  | None => Raise Dangling
  end.

Definition alloc_dict st (d : dict ref) : ref * store V :=
  (length (dicts st), mk_store (objects st) (dicts st ++ [d])).

Definition write_dict st (l : ref) (d : dict ref) : store V :=
  mk_store (objects st) (<[l := d]> (dicts st)).

(** [copy.deepcopy(x)] of an operator object: a new object with a copy of
    the whole state. *)
Definition deepcopy st (x : ref) : result (ref * store V) :=
  v ← read_obj st x; Ok (alloc_obj st v).

(** [IdentityMatrix.__matmul__(self, other)] *)
Definition IdentityMatrix_matmul st (self other : ref) : result (ref * store V) :=
  deepcopy st other.

(** [IdentityMatrix.__rmatmul__(self, other)] *)
Definition IdentityMatrix_rmatmul st (self other : ref) : result (ref * store V) :=
  deepcopy st other.

(** [jac @ x]: the result is a new object, a freshly computed product or,
    when one side is the identity, the deep copy of the other side. *)
Definition matmul_obj st (jac x : ref) : result (ref * store V) :=
  a ← read_obj st jac;
  b ← read_obj st x;
  Ok (alloc_obj st (matmul a b)).

(** [target += x]: the reference that the name is bound to afterwards. *)
Definition iadd_obj st (target x : ref) : result (ref * store V) :=
  a ← read_obj st target;
  b ← read_obj st x;
  if in_place a then Ok (target, write_obj st target (iadd a b))
  else Ok (alloc_obj st (iadd a b)).

(** [apply_jacobians(jacdict, indict)] on objects; [indict] is a reference
    to the caller's dictionary and the result a reference to [outdict]. *)
Definition apply_jacobians_obj st (jacdict : dict (dict ref)) (indict : ref)
  : result (ref * store V) :=
  let '(outdict, st) := alloc_dict st [] in
  st ← for_each jacdict st (fun st '(myout, innerjacdict) =>
    for_each innerjacdict st (fun st '(myin, jac) =>
      ind ← read_dict st indict;
      if contains ind myin then
        outd ← read_dict st outdict;
        if contains outd myout then
          old ← getitem outd myout;
          x ← getitem ind myin;
          '(prod, st) ← matmul_obj st jac x;
          '(new, st) ← iadd_obj st old prod;
          outd ← read_dict st outdict;
          Ok (write_dict st outdict (setitem outd myout new))
        else
          x ← getitem ind myin;
          '(prod, st) ← matmul_obj st jac x;
          outd ← read_dict st outdict;
          Ok (write_dict st outdict (setitem outd myout prod))
      else Ok st));
  Ok (outdict, st).

(** [forward_accumulate(curlyJs, inputs, outputs, required)] in evaluation
    mode, on objects: [inputs] is a reference to the caller's dictionary. *)
Definition forward_accumulate_obj st (curlyJs : list (dict (dict ref)))
    (inputs : ref) (outputs required : option (list string))
  : result (ref * store V) :=
  let alloutputs := alloutputs_of outputs required in
  ind ← read_dict st inputs;
  let '(out, st) := alloc_dict st ind in
  st ← for_each curlyJs st (fun st curlyJ =>
    let curlyJ := prune alloutputs curlyJ in
    '(new, st) ← apply_jacobians_obj st curlyJ out;
    outd ← read_dict st out;
    newd ← read_dict st new;
    Ok (write_dict st out (update outd newd)));
  match outputs with
  | Some outputs =>
      outd ← read_dict st out;
      res ← select outd outputs;
      Ok (alloc_dict st res)
  | None => Ok (out, st)
  end.

End store.

Lemma for_each_invariant_in {A S : Type} (P : S -> Prop) (body : S -> A -> result S)
    (l : list A) (s : S) :
  P s ->
  (forall s x, x ∈ l -> P s -> exists s', body s x = Ok s' /\ P s') ->
  exists s', for_each l s body = Ok s' /\ P s'.
Proof.
  revert s. induction l as [|x l IH]; intros s Hs Hbody; simpl; [by exists s|].
  destruct (Hbody s x) as (s1 & -> & Hs1); [left | done |]. simpl.
  apply IH; [done|]. intros s2 y Hy. apply Hbody. by right.
Qed.

(** Every reference that a dictionary binds lies in a range of the store. *)
Definition refs_between (lo hi : nat) (d : dict ref) : Prop :=
  Forall (fun kr => lo <= kr.2 < hi) d.

Definition jacdict_below (hi : nat) (jacdict : dict (dict ref)) : Prop :=
  Forall (fun orow => refs_between 0 hi orow.2) jacdict.

Lemma refs_between_get lo hi (d : dict ref) k r :
  refs_between lo hi d -> get d k = Some r -> lo <= r < hi.
Proof.
  intros Hd Hget. apply get_elem_of in Hget.
  eapply Forall_forall in Hd; [|done]. done.
Qed.

Lemma refs_between_setitem lo hi (d : dict ref) k r :
  refs_between lo hi d -> lo <= r < hi -> refs_between lo hi (setitem d k r).
Proof.
  unfold refs_between. intros Hd Hr.
  induction d as [|[k0 r0] d IH]; simpl.
  - by apply Forall_singleton.
  - apply Forall_cons in Hd as [H0 Hd]. case_decide.
    + by apply Forall_cons.
    + apply Forall_cons. split; [done | by apply IH].
Qed.

Lemma refs_between_weaken lo hi lo' hi' (d : dict ref) :
  refs_between lo hi d -> lo' <= lo -> hi <= hi' -> refs_between lo' hi' d.
Proof.
  unfold refs_between. intros Hd Hlo Hhi.
  eapply Forall_impl; [done|]. intros [k r]; simpl. lia.
Qed.

Lemma refs_between_update lo hi (d e : dict ref) :
  refs_between lo hi d -> refs_between lo hi e -> refs_between lo hi (update d e).
Proof.
  unfold update. intros Hd He. revert d Hd.
  induction e as [|[k r] e IH]; intros d Hd; simpl; [done|].
  apply Forall_cons in He as [Hr He]. apply IH; [done|].
  by apply refs_between_setitem.
Qed.

Lemma jacdict_below_prune hi alloutputs (curlyJ : dict (dict ref)) :
  jacdict_below hi curlyJ -> jacdict_below hi (prune alloutputs curlyJ).
Proof.
  unfold jacdict_below, prune, filter_keys. intros H.
  destruct alloutputs; [|done].
  apply Forall_forall. intros x Hx. apply list_elem_of_filter in Hx as [_ Hx].
  eapply Forall_forall in H; done.
Qed.

Section store_facts.
Context {V : Type} `{!Operators V} (in_place : V -> bool).
Implicit Types (st : store V).

Lemma read_obj_lt st r :
  r < length (objects st) -> exists v, read_obj st r = Ok v /\ objects st !! r = Some v.
Proof.
  intros Hr. unfold read_obj.
  destruct (lookup_lt_is_Some_2 (objects st) r Hr) as [v ->]. by exists v.
Qed.

Lemma read_dict_Some st l d : dicts st !! l = Some d -> read_dict st l = Ok d.
Proof. unfold read_dict. by intros ->. Qed.

(** When the operands obey the identity law, [@] with an identity object
    on the left or on the right is the method of [IdentityMatrix]. *)
Lemma matmul_obj_identity_l st jac x v :
  (forall v, matmul IdentityMatrix v = v) ->
  objects st !! jac = Some IdentityMatrix -> objects st !! x = Some v ->
  matmul_obj st jac x = IdentityMatrix_matmul st jac x.
Proof.
  intros Hlaw Hjac Hx.
  unfold matmul_obj, IdentityMatrix_matmul, deepcopy, read_obj.
  rewrite Hjac, Hx. simpl. by rewrite Hlaw.
Qed.

Lemma matmul_obj_identity_r st jac x v :
  (forall v, matmul v IdentityMatrix = v) ->
  objects st !! jac = Some v -> objects st !! x = Some IdentityMatrix ->
  matmul_obj st jac x = IdentityMatrix_rmatmul st x jac.
Proof.
  intros Hlaw Hjac Hx.
  unfold matmul_obj, IdentityMatrix_rmatmul, deepcopy, read_obj.
  rewrite Hjac, Hx. simpl. by rewrite Hlaw.
Qed.

(** What the loops of [apply_jacobians] keep true, from the store [st1] in
    which the call started: the objects and dictionaries of [st1] are as
    they were, and [outdict], the one new dictionary, binds objects created
    by the call. *)
Definition apply_inv st1 st : Prop :=
  length (objects st1) <= length (objects st) /\
  length (dicts st) = S (length (dicts st1)) /\
  (forall r, r < length (objects st1) -> objects st !! r = objects st1 !! r) /\
  (forall l, l < length (dicts st1) -> dicts st !! l = dicts st1 !! l) /\
  exists outd,
    dicts st !! length (dicts st1) = Some outd /\
    refs_between (length (objects st1)) (length (objects st)) outd.

Lemma apply_step st1 st indict ind myout myin jac :
  dicts st1 !! indict = Some ind ->
  refs_between 0 (length (objects st1)) ind ->
  jac < length (objects st1) ->
  apply_inv st1 st ->
  exists st',
    (ind ← read_dict st indict;
     if contains ind myin then
       outd ← read_dict st (length (dicts st1));
       if contains outd myout then
         old ← getitem outd myout;
         x ← getitem ind myin;
         '(prod, st) ← matmul_obj st jac x;
         '(new, st) ← iadd_obj in_place st old prod;
         outd ← read_dict st (length (dicts st1));
         Ok (write_dict st (length (dicts st1)) (setitem outd myout new))
       else
         x ← getitem ind myin;
         '(prod, st) ← matmul_obj st jac x;
         outd ← read_dict st (length (dicts st1));
         Ok (write_dict st (length (dicts st1)) (setitem outd myout prod))
     else Ok st) = Ok st' /\
    apply_inv st1 st'.
Proof.
  intros Hind Hvalid Hjac (Hlen & Hdlen & Hobjs & Hdicts & outd & Houtd & Hfresh).
  assert (indict < length (dicts st1)) as Hindict by by eapply lookup_lt_Some.
  rewrite (read_dict_Some (st := st) (l := indict) (d := ind))
    by (by rewrite Hdicts). simpl.
  destruct (get ind myin) as [x|] eqn:Ex;
    [rewrite (contains_Some Ex) | rewrite (contains_None Ex)].
  2: { exists st. split; [done|]. repeat (split; [done|]). by exists outd. }
  assert (x < length (objects st1)) as Hx
    by (by destruct (refs_between_get Hvalid Ex)).
  rewrite (read_dict_Some Houtd). simpl.
  destruct (read_obj_lt (st := st) (r := jac)) as (a & Ha & _); [lia|].
  destruct (read_obj_lt (st := st) (r := x)) as (b & Hb & _); [lia|].
  destruct (get outd myout) as [old|] eqn:Eold;
    [rewrite (contains_Some Eold) | rewrite (contains_None Eold)].
  - rewrite (getitem_Some Eold), (getitem_Some Ex). simpl.
    unfold matmul_obj. rewrite Ha, Hb. simpl.
    destruct (refs_between_get Hfresh Eold) as [Hold1 Hold2].
    unfold iadd_obj, read_obj. simpl.
    rewrite (lookup_app_l (objects st) [matmul a b] old) by done.
    destruct (lookup_lt_is_Some_2 (objects st) old Hold2) as [vold ->]. simpl.
    rewrite (lookup_app_r (objects st) [matmul a b] (length (objects st))) by done.
    rewrite Nat.sub_diag. simpl.
    destruct (in_place vold); simpl.
    + unfold read_dict. simpl. rewrite Houtd. simpl.
      eexists. split; [done|]. unfold apply_inv. simpl.
      rewrite !length_insert, length_app. simpl.
      split; [lia|]. split; [done|]. split; [|split].
      * intros r Hr. rewrite list_lookup_insert_ne by lia.
        rewrite lookup_app_l by lia. by apply Hobjs.
      * intros l Hl. rewrite list_lookup_insert_ne by lia. by apply Hdicts.
      * eexists. split; [apply list_lookup_insert_eq; lia|].
        apply refs_between_setitem; [|lia].
        eapply refs_between_weaken; [done | lia | lia].
    + unfold read_dict. simpl. rewrite Houtd. simpl.
      eexists. split; [done|]. unfold apply_inv. simpl.
      rewrite !length_insert, !length_app. simpl.
      split; [lia|]. split; [done|]. split; [|split].
      * intros r Hr. rewrite !lookup_app_l by (rewrite ?length_app; simpl; lia).
        by apply Hobjs.
      * intros l Hl. rewrite list_lookup_insert_ne by lia. by apply Hdicts.
      * eexists. split; [apply list_lookup_insert_eq; lia|].
        apply refs_between_setitem; [|lia].
        eapply refs_between_weaken; [done | lia | lia].
  - rewrite (getitem_Some Ex). simpl.
    unfold matmul_obj. rewrite Ha, Hb. simpl.
    unfold read_dict. simpl. rewrite Houtd. simpl.
    eexists. split; [done|]. unfold apply_inv. simpl.
    rewrite !length_insert, length_app. simpl.
    split; [lia|]. split; [done|]. split; [|split].
    + intros r Hr. rewrite lookup_app_l by lia. by apply Hobjs.
    + intros l Hl. rewrite list_lookup_insert_ne by lia. by apply Hdicts.
    + eexists. split; [apply list_lookup_insert_eq; lia|].
      apply refs_between_setitem; [|lia].
      eapply refs_between_weaken; [done | lia | lia].
Qed.

Lemma apply_jacobians_obj_frame st jacdict indict ind :
  dicts st !! indict = Some ind ->
  refs_between 0 (length (objects st)) ind ->
  jacdict_below (length (objects st)) jacdict ->
  exists st',
    apply_jacobians_obj in_place st jacdict indict = Ok (length (dicts st), st') /\
    apply_inv st st'.
Proof.
  intros Hind Hvalid Hjac. unfold apply_jacobians_obj. simpl.
  destruct (for_each_invariant_in (P := apply_inv st)
    (body := fun st0 '(myout, innerjacdict) =>
      for_each innerjacdict st0 (fun st0 '(myin, jac) =>
        ind ← read_dict st0 indict;
        if contains ind myin then
          outd ← read_dict st0 (length (dicts st));
          if contains outd myout then
            old ← getitem outd myout;
            x ← getitem ind myin;
            '(prod, st0) ← matmul_obj st0 jac x;
            '(new, st0) ← iadd_obj in_place st0 old prod;
            outd ← read_dict st0 (length (dicts st));
            Ok (write_dict st0 (length (dicts st)) (setitem outd myout new))
          else
            x ← getitem ind myin;
            '(prod, st0) ← matmul_obj st0 jac x;
            outd ← read_dict st0 (length (dicts st));
            Ok (write_dict st0 (length (dicts st)) (setitem outd myout prod))
        else Ok st0))
    (l := jacdict)
    (s := mk_store (objects st) (dicts st ++ [[]])))
    as (st' & Hrun & Hinv).
  - unfold apply_inv. simpl. rewrite length_app. simpl.
    split; [done|]. split; [lia|]. split; [done|]. split.
    + intros l Hl. by rewrite lookup_app_l.
    + exists []. split; [|by apply Forall_nil].
      rewrite lookup_app_r by done. by rewrite Nat.sub_diag.
  - intros s [myout inner] Hin Hs.
    eapply Forall_forall in Hjac; [|done]. simpl in Hjac.
    apply (for_each_invariant_in (P := apply_inv st)); [done|].
    intros s' [myin jac] Hin' Hs'.
    eapply Forall_forall in Hjac; [|done]. simpl in Hjac.
    apply (apply_step (indict := indict) (ind := ind)); [done | done | lia | done].
  - exists st'. rewrite Hrun. done.
Qed.

(** What the loop of [forward_accumulate] keeps true, from the store [st0]
    of the caller: the objects and dictionaries of [st0] are as they were,
    and [out], the one dictionary that the loop writes, is the new one made
    by [inputs.copy()]. *)
Definition accumulate_inv st0 st : Prop :=
  length (objects st0) <= length (objects st) /\
  length (dicts st0) < length (dicts st) /\
  (forall r, r < length (objects st0) -> objects st !! r = objects st0 !! r) /\
  (forall l, l < length (dicts st0) -> dicts st !! l = dicts st0 !! l) /\
  exists outd,
    dicts st !! length (dicts st0) = Some outd /\
    refs_between 0 (length (objects st)) outd.

Lemma accumulate_step st0 st alloutputs curlyJ :
  jacdict_below (length (objects st0)) curlyJ ->
  accumulate_inv st0 st ->
  exists st',
    ('(new, st) ← apply_jacobians_obj in_place st (prune alloutputs curlyJ)
                    (length (dicts st0));
     outd ← read_dict st (length (dicts st0));
     newd ← read_dict st new;
     Ok (write_dict st (length (dicts st0)) (update outd newd))) = Ok st' /\
    accumulate_inv st0 st'.
Proof.
  intros Hjac (Hlen & Hdlen & Hobjs & Hdicts & outd & Houtd & Hvalid).
  destruct (apply_jacobians_obj_frame (st := st)
              (jacdict := prune alloutputs curlyJ) Houtd Hvalid)
    as (st2 & -> & Hlen2 & Hdlen2 & Hobjs2 & Hdicts2 & newd & Hnewd & Hfresh).
  { apply jacdict_below_prune. unfold jacdict_below in *.
    eapply Forall_impl; [done|]. intros [o row] Hrow. simpl in *.
    eapply refs_between_weaken; [done | lia | lia]. }
  simpl.
  rewrite (read_dict_Some (st := st2) (l := length (dicts st0)) (d := outd))
    by (by rewrite Hdicts2). simpl.
  rewrite (read_dict_Some Hnewd). simpl.
  eexists. split; [done|]. unfold accumulate_inv. simpl.
  rewrite length_insert. split; [lia|]. split; [lia|]. split; [|split].
  - intros r Hr. rewrite Hobjs2 by lia. by apply Hobjs.
  - intros l Hl. rewrite list_lookup_insert_ne by lia.
    rewrite Hdicts2 by lia. by apply Hdicts.
  - eexists. split; [apply list_lookup_insert_eq; lia|].
    apply refs_between_update.
    + eapply refs_between_weaken; [done | lia | lia].
    + eapply refs_between_weaken; [done | lia | lia].
Qed.

(** C10. In evaluation mode [forward_accumulate] returns, and leaves the
    caller's dictionary as it was: the same keys bound to the same objects.
    It works on a new dictionary object made by [inputs.copy()], never the
    argument itself, and no dictionary or object that existed before the
    call is changed. *)
Theorem forward_accumulate_leaves_inputs st (curlyJs : list (dict (dict ref)))
    (inputs : ref) (outputs required : option (list string)) (ind : dict ref) :
  dicts st !! inputs = Some ind ->
  refs_between 0 (length (objects st)) ind ->
  Forall (jacdict_below (length (objects st))) curlyJs ->
  exists res st',
    forward_accumulate_obj in_place st curlyJs inputs outputs required
      = Ok (res, st') /\
    dicts st' !! inputs = Some ind /\
    res ≠ inputs /\
    (forall l, l < length (dicts st) -> dicts st' !! l = dicts st !! l) /\
    (forall r, r < length (objects st) -> objects st' !! r = objects st !! r).
Proof.
  intros Hind Hvalid Hjacs. unfold forward_accumulate_obj.
  assert (inputs < length (dicts st)) as Hinputs by by eapply lookup_lt_Some.
  rewrite (read_dict_Some Hind). simpl.
  destruct (for_each_invariant_in (P := accumulate_inv st)
    (body := fun st0 curlyJ =>
      '(new, st0) ← apply_jacobians_obj in_place st0
                      (prune (alloutputs_of outputs required) curlyJ)
                      (length (dicts st));
      outd ← read_dict st0 (length (dicts st));
      newd ← read_dict st0 new;
      Ok (write_dict st0 (length (dicts st)) (update outd newd)))
    (l := curlyJs)
    (s := mk_store (objects st) (dicts st ++ [ind])))
    as (st1 & Hrun & Hlen & Hdlen & Hobjs & Hdicts & outd & Houtd & Hrefs).
  - unfold accumulate_inv. simpl. rewrite length_app. simpl.
    split; [done|]. split; [lia|]. split; [done|]. split.
    + intros l Hl. by rewrite lookup_app_l.
    + exists ind. split; [|done].
      rewrite lookup_app_r by done. by rewrite Nat.sub_diag.
  - intros s curlyJ Hin Hs. apply accumulate_step; [|done].
    eapply Forall_forall in Hjacs; done.
  - rewrite Hrun. simpl. destruct outputs as [outs|].
    + rewrite (read_dict_Some Houtd). simpl.
      destruct (select_Ok outd outs) as (res & -> & _). simpl.
      eexists _, _. split; [done|]. simpl. split; [|split; [lia|split]].
      * rewrite lookup_app_l by lia. rewrite Hdicts by done. done.
      * intros l Hl. rewrite lookup_app_l by lia. by apply Hdicts.
      * done.
    + eexists _, _. split; [done|]. split; [|split; [lia|split]].
      * rewrite Hdicts by done. done.
      * done.
      * done.
Qed.

(** C9. Composing the identity with the operator object [other], on either
    side, returns a new object with the state of [other]: it is equal to
    [other] and is no object of the store before the call, so a later write
    to either of the two leaves the other as it was; and the identity
    materializes at horizon T as the T x T array with ones on the diagonal
    and zeros elsewhere. *)
Theorem IdentityMatrix_copies {R : Type} `{!Scalars R} st (self other : ref)
    (x : V) (T : nat) :
  objects st !! other = Some x ->
  exists copied st',
    IdentityMatrix_matmul st self other = Ok (copied, st') /\
    IdentityMatrix_rmatmul st self other = Ok (copied, st') /\
    objects st' !! copied = Some x /\
    copied ≠ other /\
    objects st !! copied = None /\
    (forall r, r < length (objects st) -> objects st' !! r = objects st !! r) /\
    (forall y, objects (write_obj st' copied y) !! other = Some x) /\
    (forall y, objects (write_obj st' other y) !! copied = Some x) /\
    nrows (IdentityMatrix_matrix (R := R) T) = T /\
    ncols (IdentityMatrix_matrix (R := R) T) = T /\
    forall i j, i < T -> j < T ->
      item (IdentityMatrix_matrix (R := R) T) i j = if decide (i = j) then one else zero.
Proof.
  intros Hother.
  assert (other < length (objects st)) as Hlt by by eapply lookup_lt_Some.
  unfold IdentityMatrix_matmul, IdentityMatrix_rmatmul, deepcopy, read_obj.
  rewrite Hother. simpl. eexists _, _. split; [done|]. split; [done|]. simpl.
  split; [|split; [lia|split; [|split; [|split; [|split]]]]].
  - rewrite lookup_app_r by done. by rewrite Nat.sub_diag.
  - by apply lookup_ge_None.
  - intros r Hr. by rewrite lookup_app_l.
  - intros y. rewrite list_lookup_insert_ne by lia. by rewrite lookup_app_l.
  - intros y. rewrite list_lookup_insert_ne by lia.
    rewrite lookup_app_r by done. by rewrite Nat.sub_diag.
  - done.
Qed.

End store_facts.

(** *** Objects: examples *)

(** Every object adds in place, as ndarrays do. *)
Definition always_in_place (v : Z) : bool := true.

(** The caller's store: the Jacobians 2 and 3, the sequence 1, and the
    dictionary [{x: <the sequence>}] at reference 0. *)
Definition caller_store : store Z :=
  mk_store [2; 3; 1]%Z [ [("x", 2)] ].

Definition two_blocks_refs : list (dict (dict ref)) :=
  [ [("y", [("x", 0)])]; [("z", [("y", 1)])] ].

Example forward_accumulate_obj_example :
  forward_accumulate_obj always_in_place caller_store two_blocks_refs 0 None None =
  Ok (1, mk_store [2; 3; 1; 2; 6]%Z
           [ [("x", 2)]; [("x", 2); ("y", 3); ("z", 4)]; [("y", 3)]; [("z", 4)] ]).
Proof. reflexivity. Qed.

(** Two products for one output: the second is added in place to the object
    that holds the first. *)
Example apply_jacobians_obj_in_place :
  apply_jacobians_obj always_in_place
    (mk_store [2; 3; 10; 100]%Z [ [("x", 2); ("y", 3)] ])
    [("z", [("x", 0); ("y", 1)])] 0 =
  Ok (1, mk_store [2; 3; 10; 100; 320; 300]%Z
           [ [("x", 2); ("y", 3)]; [("z", 4)] ]).
Proof. reflexivity. Qed.

Lemma forward_accumulate_leaves_inputs_witness :
  exists res st',
    forward_accumulate_obj always_in_place caller_store two_blocks_refs 0 None None
      = Ok (res, st') /\
    dicts st' !! 0 = Some [("x", 2)] /\
    res ≠ 0 /\
    (forall l, l < 1 -> dicts st' !! l = dicts caller_store !! l) /\
    (forall r, r < 3 -> objects st' !! r = objects caller_store !! r).
Proof.
  apply (forward_accumulate_leaves_inputs always_in_place (st := caller_store)
           (curlyJs := two_blocks_refs) (inputs := 0) None None (ind := [("x", 2)])).
  - reflexivity.
  - repeat constructor.
  - repeat constructor.
Defined.

Lemma IdentityMatrix_copies_witness :
  exists copied st',
    IdentityMatrix_matmul caller_store 0 2 = Ok (copied, st') /\
    IdentityMatrix_rmatmul caller_store 0 2 = Ok (copied, st') /\
    objects st' !! copied = Some 1%Z /\
    copied ≠ 2 /\
    objects caller_store !! copied = None /\
    (forall r, r < 3 -> objects st' !! r = objects caller_store !! r) /\
    (forall y, objects (write_obj st' copied y) !! 2 = Some 1%Z) /\
    (forall y, objects (write_obj st' 2 y) !! copied = Some 1%Z) /\
    nrows (IdentityMatrix_matrix (R := Z) 3) = 3 /\
    ncols (IdentityMatrix_matrix (R := Z) 3) = 3 /\
    forall i j, i < 3 -> j < 3 ->
      item (IdentityMatrix_matrix (R := Z) 3) i j = if decide (i = j) then 1%Z else 0%Z.
Proof.
  exact (IdentityMatrix_copies (R := Z) (st := caller_store) 0 (other := 2)
           (x := 1%Z) 3 eq_refl).
Defined.

Example IdentityMatrix_matrix_example :
  to_rows (IdentityMatrix_matrix (R := Z) 3) = [[1; 0; 0]; [0; 1; 0]; [0; 0; 1]]%Z.
Proof. reflexivity. Qed.

(** ** The computation on objects refines the computation on values

    Reading the objects behind the references of a dictionary gives a
    dictionary of values; the store-level [apply_jacobians] and
    [forward_accumulate] then compute what the value-level functions of
    parts 1 and 2 compute.  The in-place [+=] is harmless because the object
    it changes is bound to one key of [outdict] only. *)

Lemma for_each_sim {A B S1 S2 : Type} (Rel : S1 -> S2 -> Prop) (g : A -> B)
    (f1 : S1 -> A -> result S1) (f2 : S2 -> B -> result S2)
    (l : list A) (s1 : S1) (s2 : S2) :
  Rel s1 s2 ->
  (forall s1 s2 x, x ∈ l -> Rel s1 s2 ->
     exists s1' s2', f1 s1 x = Ok s1' /\ f2 s2 (g x) = Ok s2' /\ Rel s1' s2') ->
  exists s1' s2',
    for_each l s1 f1 = Ok s1' /\ for_each (g <$> l) s2 f2 = Ok s2' /\ Rel s1' s2'.
Proof.
  revert s1 s2. induction l as [|x l IH]; intros s1 s2 Hrel Hstep.
  - by exists s1, s2.
  - rewrite fmap_cons. simpl.
    destruct (Hstep s1 s2 x) as (s1' & s2' & -> & -> & Hrel'); [left | done |].
    simpl. apply IH; [done|]. intros t1 t2 y Hy. apply Hstep. by right.
Qed.

Section refinement.
Context {V : Type} `{!Operators V} (in_place : V -> bool).
Implicit Types (st : store V) (d : dict ref).

(** The state of the object behind a reference. *)
Definition deref st (r : ref) : V := default IdentityMatrix (objects st !! r).

Definition deref_dict st (d : dict ref) : dict V :=
  prod_map id (deref st) <$> d.

Definition deref_jacdict st (jacdict : dict (dict ref)) : dict (dict V) :=
  prod_map id (deref_dict st) <$> jacdict.

Lemma get_deref_dict st d k : get (deref_dict st d) k = deref st <$> get d k.
Proof.
  unfold deref_dict. induction d as [|[k0 r0] d IH]; [done|].
  rewrite fmap_cons. simpl. case_decide; [done | apply IH].
Qed.

Lemma contains_deref_dict st d k : contains (deref_dict st d) k = contains d k.
Proof. unfold contains. rewrite get_deref_dict. by destruct (get d k). Qed.

Lemma keys_deref_dict st d : keys (deref_dict st d) = keys d.
Proof.
  unfold deref_dict, keys. rewrite <- list_fmap_compose.
  apply list_fmap_ext. by intros i [k r].
Qed.

Lemma setitem_deref_dict st d k r :
  deref_dict st (setitem d k r) = setitem (deref_dict st d) k (deref st r).
Proof.
  unfold deref_dict. induction d as [|[k0 r0] d IH]; [done|].
  rewrite fmap_cons. cbn [setitem prod_map fst snd id].
  case_decide; rewrite fmap_cons; [done|]. by rewrite IH.
Qed.

Lemma update_deref_dict st d e :
  deref_dict st (update d e) = update (deref_dict st d) (deref_dict st e).
Proof.
  unfold update. revert d. induction e as [|[k r] e IH]; intros d; [done|].
  simpl. rewrite IH. by rewrite setitem_deref_dict.
Qed.

Lemma deref_dict_ext st st' d :
  (forall k r, (k, r) ∈ d -> deref st' r = deref st r) ->
  deref_dict st' d = deref_dict st d.
Proof.
  intros Hext. unfold deref_dict. apply list_fmap_ext.
  intros i [k r] Hi. simpl. f_equal. apply (Hext k).
  by eapply list_elem_of_lookup_2.
Qed.

Lemma deref_dict_below st st' lo hi d :
  refs_between lo hi d ->
  (forall r, r < hi -> objects st' !! r = objects st !! r) ->
  deref_dict st' d = deref_dict st d.
Proof.
  intros Hd Hobjs. apply deref_dict_ext. intros k r Hin.
  eapply Forall_forall in Hd; [|done]. simpl in Hd.
  unfold deref. rewrite Hobjs by lia. done.
Qed.

Lemma deref_jacdict_below st st' hi jacdict :
  jacdict_below hi jacdict ->
  (forall r, r < hi -> objects st' !! r = objects st !! r) ->
  deref_jacdict st' jacdict = deref_jacdict st jacdict.
Proof.
  intros HJ Hobjs. unfold deref_jacdict. apply list_fmap_ext.
  intros i [o row] Hi. simpl. f_equal.
  eapply Forall_forall in HJ; [|by eapply list_elem_of_lookup_2]. simpl in HJ.
  by eapply deref_dict_below.
Qed.

Lemma prune_deref_jacdict st alloutputs jacdict :
  deref_jacdict st (prune alloutputs jacdict) =
  prune alloutputs (deref_jacdict st jacdict).
Proof.
  unfold prune, deref_jacdict, filter_keys. destruct alloutputs as [all|]; [|done].
  induction jacdict as [|[o row] J IH]; [done|].
  rewrite fmap_cons, !filter_cons. simpl.
  case_decide; [rewrite fmap_cons|]; by rewrite IH.
Qed.

Lemma select_deref_dict st d outputs :
  select (deref_dict st d) outputs = deref_dict st <$> select d outputs.
Proof.
  unfold select.
  enough (forall res : dict ref,
    for_each outputs (deref_dict st res) (fun res k =>
      if contains (deref_dict st d) k
      then v ← getitem (deref_dict st d) k; Ok (setitem res k v) else Ok res) =
    deref_dict st <$> for_each outputs res (fun res k =>
      if contains d k then v ← getitem d k; Ok (setitem res k v) else Ok res))
    as Hgen by apply (Hgen []).
  induction outputs as [|k outputs IH]; intros res; [done|].
  cbn [for_each]. rewrite contains_deref_dict.
  destruct (get d k) as [r|] eqn:E.
  - rewrite (contains_Some E), (getitem_Some E).
    assert (getitem (deref_dict st d) k = Ok (deref st r)) as ->.
    { apply getitem_Some. rewrite get_deref_dict. by rewrite E. }
    cbn [mbind result_bind]. rewrite <- setitem_deref_dict. apply IH.
  - rewrite (contains_None E). cbn [mbind result_bind]. apply IH.
Qed.

(** A write to an object that one key only is bound to changes the value
    of that key. *)
Lemma deref_dict_write st d k r v :
  wf d -> NoDup d.*2 -> get d k = Some r -> r < length (objects st) ->
  deref_dict (write_obj st r v) d = setitem (deref_dict st d) k v.
Proof.
  unfold wf, keys, deref_dict. intros Hwf Hnd Hget Hr.
  induction d as [|[k0 r0] d IH]; [done|].
  rewrite !fmap_cons in *. apply NoDup_cons in Hwf as [Hk0 Hwf].
  apply NoDup_cons in Hnd as [Hr0 Hnd]. simpl in *.
  case_decide as Hk.
  - injection Hget as ->. subst k0. f_equal.
    + f_equal. unfold deref, write_obj. simpl.
      by rewrite list_lookup_insert_eq.
    + apply list_fmap_ext. intros i [k1 r1] Hi. simpl. f_equal.
      unfold deref, write_obj. simpl. rewrite list_lookup_insert_ne; [done|].
      intros ->. apply Hr0. apply list_elem_of_fmap. exists (k1, r1).
      split; [done|]. by eapply list_elem_of_lookup_2.
  - f_equal; [|by apply IH]. f_equal.
    unfold deref, write_obj. simpl. rewrite list_lookup_insert_ne; [done|].
    intros ->. apply Hr0. apply get_elem_of in Hget.
    apply list_elem_of_fmap. by exists (k, r0).
Qed.

Lemma NoDup_refs_setitem d k r :
  NoDup d.*2 -> r ∉ d.*2 -> NoDup (setitem d k r).*2.
Proof.
  intros Hnd Hr. induction d as [|[k0 r0] d IH]; simpl.
  - apply NoDup_singleton.
  - rewrite fmap_cons in *. apply NoDup_cons in Hnd as [Hr0 Hnd].
    apply not_elem_of_cons in Hr as [Hne Hr]. simpl in *.
    case_decide; rewrite fmap_cons; simpl; apply NoDup_cons.
    + done.
    + split; [|by apply IH].
      intros Hin. apply list_elem_of_fmap in Hin as [[k1 r1] [-> Hin]]. simpl in *.
      assert ((k1, r1) ∈ d \/ r1 = r) as [Hd| ->].
      { clear -Hin. induction d as [|[k2 r2] d IH]; simpl in *.
        - apply list_elem_of_singleton in Hin. injection Hin as -> ->. by right.
        - case_decide.
          + apply elem_of_cons in Hin as [Hin|Hin].
            * injection Hin as -> ->. by right.
            * left. by right.
          + apply elem_of_cons in Hin as [Hin|Hin].
            * left. rewrite Hin. left.
            * destruct (IH Hin) as [?|?]; [left; by right | by right]. }
      * apply Hr0. apply list_elem_of_fmap. by exists (k1, r1).
      * done.
Qed.

Lemma deref_lookup st r v : objects st !! r = Some v -> deref st r = v.
Proof. unfold deref. by intros ->. Qed.

Lemma deref_dict_objects st st' d :
  objects st' = objects st -> deref_dict st' d = deref_dict st d.
Proof.
  intros Heq. apply deref_dict_ext. intros k r _. unfold deref. by rewrite Heq.
Qed.

Lemma deref_dict_app st ds l lo d :
  refs_between lo (length (objects st)) d ->
  deref_dict (mk_store (objects st ++ l) ds) d = deref_dict st d.
Proof.
  intros Hd. eapply deref_dict_below; [done|].
  intros r Hr. simpl. by rewrite lookup_app_l.
Qed.

Lemma not_elem_of_refs lo hi d r : refs_between lo hi d -> hi <= r -> r ∉ d.*2.
Proof.
  intros Hd Hr Hin. apply list_elem_of_fmap in Hin as [[k r'] [-> Hin]].
  eapply Forall_forall in Hd; [|done]. simpl in *. lia.
Qed.

(** The invariant of [apply_inv], with the values behind [outdict]. *)
Definition apply_sim st1 (outdict : dict V) st : Prop :=
  length (objects st1) <= length (objects st) /\
  length (dicts st) = S (length (dicts st1)) /\
  (forall r, r < length (objects st1) -> objects st !! r = objects st1 !! r) /\
  (forall l, l < length (dicts st1) -> dicts st !! l = dicts st1 !! l) /\
  exists outd,
    dicts st !! length (dicts st1) = Some outd /\
    refs_between (length (objects st1)) (length (objects st)) outd /\
    wf outd /\ NoDup outd.*2 /\ deref_dict st outd = outdict.

Lemma apply_step_sim st1 st outdict indict ind myout myin jac :
  dicts st1 !! indict = Some ind ->
  refs_between 0 (length (objects st1)) ind ->
  jac < length (objects st1) ->
  apply_sim st1 outdict st ->
  exists st' outdict',
    (ind ← read_dict st indict;
     if contains ind myin then
       outd ← read_dict st (length (dicts st1));
       if contains outd myout then
         old ← getitem outd myout;
         x ← getitem ind myin;
         '(prod, st) ← matmul_obj st jac x;
         '(new, st) ← iadd_obj in_place st old prod;
         outd ← read_dict st (length (dicts st1));
         Ok (write_dict st (length (dicts st1)) (setitem outd myout new))
       else
         x ← getitem ind myin;
         '(prod, st) ← matmul_obj st jac x;
         outd ← read_dict st (length (dicts st1));
         Ok (write_dict st (length (dicts st1)) (setitem outd myout prod))
     else Ok st) = Ok st' /\
    (if contains (deref_dict st1 ind) myin then
       x ← getitem (deref_dict st1 ind) myin;
       if contains outdict myout then
         old ← getitem outdict myout;
         Ok (setitem outdict myout (iadd old (matmul (deref st1 jac) x)))
       else
         Ok (setitem outdict myout (matmul (deref st1 jac) x))
     else Ok outdict) = Ok outdict' /\
    apply_sim st1 outdict' st'.
Proof.
  intros Hind Hvalid Hjac
    (Hlen & Hdlen & Hobjs & Hdicts & outd & Houtd & Hfresh & Hwf & Hnd & Hderef).
  assert (indict < length (dicts st1)) as Hindict by by eapply lookup_lt_Some.
  rewrite (read_dict_Some (st := st) (l := indict) (d := ind))
    by (by rewrite Hdicts). simpl.
  rewrite contains_deref_dict.
  destruct (get ind myin) as [x|] eqn:Ex;
    [rewrite (contains_Some Ex) | rewrite (contains_None Ex)].
  2: { exists st, outdict. split; [done|]. split; [done|].
       repeat (split; [done|]). by exists outd. }
  assert (x < length (objects st1)) as Hx
    by (by destruct (refs_between_get Hvalid Ex)).
  assert (getitem (deref_dict st1 ind) myin = Ok (deref st1 x)) as ->.
  { apply getitem_Some. rewrite get_deref_dict. by rewrite Ex. }
  rewrite (read_dict_Some Houtd). simpl.
  destruct (read_obj_lt (st := st) (r := jac)) as (a & Ha & Ha'); [lia|].
  destruct (read_obj_lt (st := st) (r := x)) as (b & Hb & Hb'); [lia|].
  assert (deref st1 jac = a) as ->.
  { apply deref_lookup. by rewrite <- Hobjs. }
  assert (deref st1 x = b) as ->.
  { apply deref_lookup. by rewrite <- Hobjs. }
  subst outdict. rewrite contains_deref_dict.
  destruct (get outd myout) as [old|] eqn:Eold;
    [rewrite (contains_Some Eold) | rewrite (contains_None Eold)].
  - rewrite (getitem_Some Eold), (getitem_Some Ex). simpl.
    destruct (refs_between_get Hfresh Eold) as [Hold1 Hold2].
    destruct (lookup_lt_is_Some_2 (objects st) old Hold2) as [vold Hvold].
    assert (getitem (deref_dict st outd) myout = Ok vold) as ->.
    { apply getitem_Some. rewrite get_deref_dict, Eold. simpl.
      by rewrite (deref_lookup Hvold). }
    simpl.
    unfold matmul_obj. rewrite Ha, Hb. simpl.
    unfold iadd_obj, read_obj. simpl.
    rewrite (lookup_app_l (objects st) [matmul a b] old) by done.
    rewrite Hvold. simpl.
    rewrite (lookup_app_r (objects st) [matmul a b] (length (objects st))) by done.
    rewrite Nat.sub_diag. simpl.
    destruct (in_place vold); simpl.
    + unfold read_dict. simpl. rewrite Houtd. simpl.
      eexists _, _. split; [done|]. split; [done|]. unfold apply_sim. simpl.
      rewrite !length_insert, length_app. simpl.
      split; [lia|]. split; [done|]. split; [|split].
      * intros r Hr. rewrite list_lookup_insert_ne by lia.
        rewrite lookup_app_l by lia. by apply Hobjs.
      * intros l Hl. rewrite list_lookup_insert_ne by lia. by apply Hdicts.
      * exists outd. rewrite (setitem_get_id Eold).
        split; [apply list_lookup_insert_eq; lia|].
        split; [eapply refs_between_weaken; [done | lia | lia]|].
        split; [done|]. split; [done|].
        erewrite (deref_dict_objects (st := write_obj
          (mk_store (objects st ++ [matmul a b]) (dicts st)) old (iadd vold (matmul a b))));
          [|done].
        rewrite (deref_dict_write (k := myout)); try done.
        -- f_equal. by eapply deref_dict_app.
        -- simpl. rewrite length_app. simpl. lia.
    + unfold read_dict. simpl. rewrite Houtd. simpl.
      eexists _, _. split; [done|]. split; [done|]. unfold apply_sim. simpl.
      rewrite !length_insert, !length_app. simpl.
      split; [lia|]. split; [done|]. split; [|split].
      * intros r Hr. rewrite !lookup_app_l by (rewrite ?length_app; simpl; lia).
        by apply Hobjs.
      * intros l Hl. rewrite list_lookup_insert_ne by lia. by apply Hdicts.
      * eexists. split; [apply list_lookup_insert_eq; lia|].
        split; [apply refs_between_setitem;
                [eapply refs_between_weaken; [done | lia | lia] | lia]|].
        split; [by apply wf_setitem|].
        split; [apply NoDup_refs_setitem; [done|];
                eapply not_elem_of_refs; [done | lia]|].
        rewrite setitem_deref_dict. f_equal.
        -- rewrite <- app_assoc. by eapply deref_dict_app.
        -- apply deref_lookup. simpl.
           rewrite lookup_app_r by (rewrite length_app; simpl; lia).
           rewrite length_app. simpl.
           by replace (length (objects st) + 1 - (length (objects st) + 1)) with 0 by lia.
  - rewrite (getitem_Some Ex). simpl.
    unfold matmul_obj. rewrite Ha, Hb. simpl.
    unfold read_dict. simpl. rewrite Houtd. simpl.
    eexists _, _. split; [done|]. split; [done|]. unfold apply_sim. simpl.
    rewrite !length_insert, length_app. simpl.
    split; [lia|]. split; [done|]. split; [|split].
    + intros r Hr. rewrite lookup_app_l by lia. by apply Hobjs.
    + intros l Hl. rewrite list_lookup_insert_ne by lia. by apply Hdicts.
    + eexists. split; [apply list_lookup_insert_eq; lia|].
      split; [apply refs_between_setitem;
              [eapply refs_between_weaken; [done | lia | lia] | lia]|].
      split; [by apply wf_setitem|].
      split; [apply NoDup_refs_setitem; [done|];
              eapply not_elem_of_refs; [done | lia]|].
      rewrite setitem_deref_dict. f_equal.
      * by eapply deref_dict_app.
      * apply deref_lookup. simpl.
        rewrite lookup_app_r by done. by rewrite Nat.sub_diag.
Qed.

(** [apply_jacobians] on objects computes, behind the references of its
    new dictionary, what [apply_jacobians] computes on the values. *)
Lemma apply_jacobians_obj_refines st jacdict indict ind :
  dicts st !! indict = Some ind ->
  refs_between 0 (length (objects st)) ind ->
  jacdict_below (length (objects st)) jacdict ->
  exists st' outd,
    apply_jacobians_obj in_place st jacdict indict = Ok (length (dicts st), st') /\
    length (objects st) <= length (objects st') /\
    length (dicts st') = S (length (dicts st)) /\
    (forall r, r < length (objects st) -> objects st' !! r = objects st !! r) /\
    (forall l, l < length (dicts st) -> dicts st' !! l = dicts st !! l) /\
    dicts st' !! length (dicts st) = Some outd /\
    refs_between (length (objects st)) (length (objects st')) outd /\
    apply_jacobians (deref_jacdict st jacdict) (deref_dict st ind)
      = Ok (deref_dict st' outd).
Proof.
  intros Hind Hvalid Hjac. unfold apply_jacobians_obj, apply_jacobians. simpl.
  destruct (for_each_sim
    (Rel := fun s1 s2 => apply_sim st s2 s1)
    (g := prod_map id (deref_dict st))
    (f1 := fun st0 '(myout, innerjacdict) =>
      for_each innerjacdict st0 (fun st0 '(myin, jac) =>
        ind ← read_dict st0 indict;
        if contains ind myin then
          outd ← read_dict st0 (length (dicts st));
          if contains outd myout then
            old ← getitem outd myout;
            x ← getitem ind myin;
            '(prod, st0) ← matmul_obj st0 jac x;
            '(new, st0) ← iadd_obj in_place st0 old prod;
            outd ← read_dict st0 (length (dicts st));
            Ok (write_dict st0 (length (dicts st)) (setitem outd myout new))
          else
            x ← getitem ind myin;
            '(prod, st0) ← matmul_obj st0 jac x;
            outd ← read_dict st0 (length (dicts st));
            Ok (write_dict st0 (length (dicts st)) (setitem outd myout prod))
        else Ok st0))
    (f2 := fun outdict '(myout, innerjacdict) =>
      for_each innerjacdict outdict (fun outdict '(myin, jac) =>
        if contains (deref_dict st ind) myin then
          x ← getitem (deref_dict st ind) myin;
          if contains outdict myout then
            old ← getitem outdict myout;
            Ok (setitem outdict myout (iadd old (matmul jac x)))
          else
            Ok (setitem outdict myout (matmul jac x))
        else Ok outdict))
    (l := jacdict)
    (s1 := mk_store (objects st) (dicts st ++ [[]]))
    (s2 := ([] : dict V)))
    as (st' & outdict & Hrun1 & Hrun2 & Hsim).
  - unfold apply_sim. simpl. rewrite length_app. simpl.
    split; [done|]. split; [lia|]. split; [done|]. split.
    + intros l Hl. by rewrite lookup_app_l.
    + exists []. split; [rewrite lookup_app_r by done; by rewrite Nat.sub_diag|].
      split; [by apply Forall_nil|]. split; [apply wf_nil|].
      split; [apply NoDup_nil_2 | done].
  - intros s1 s2 [myout inner] Hin Hs.
    eapply Forall_forall in Hjac; [|done]. simpl in Hjac. simpl.
    apply (for_each_sim (Rel := fun s1 s2 => apply_sim st s2 s1)
             (g := prod_map id (deref st))); [done|].
    intros t1 t2 [myin jac] Hin' Ht.
    eapply Forall_forall in Hjac; [|done]. simpl in Hjac. simpl.
    apply (apply_step_sim (indict := indict) (ind := ind));
      [done | done | lia | done].
  - rewrite Hrun1. simpl. unfold deref_jacdict. rewrite Hrun2.
    destruct Hsim as (H1 & H2 & H3 & H4 & outd & Houtd & H5 & H6 & H7 & <-).
    exists st', outd. by repeat (split; [done|]).
Qed.

(** The invariant of [accumulate_inv], with the values behind [out]. *)
Definition accumulate_sim st0 (acc : accumulator V) st : Prop :=
  length (objects st0) <= length (objects st) /\
  length (dicts st0) < length (dicts st) /\
  (forall r, r < length (objects st0) -> objects st !! r = objects st0 !! r) /\
  (forall l, l < length (dicts st0) -> dicts st !! l = dicts st0 !! l) /\
  exists outd,
    dicts st !! length (dicts st0) = Some outd /\
    refs_between 0 (length (objects st)) outd /\
    acc = SeqOut (deref_dict st outd).

Lemma accumulate_step_sim st0 st acc alloutputs curlyJ :
  jacdict_below (length (objects st0)) curlyJ ->
  accumulate_sim st0 acc st ->
  exists st' acc',
    ('(new, st) ← apply_jacobians_obj in_place st (prune alloutputs curlyJ)
                    (length (dicts st0));
     outd ← read_dict st (length (dicts st0));
     newd ← read_dict st new;
     Ok (write_dict st (length (dicts st0)) (update outd newd))) = Ok st' /\
    (let curlyJ := prune alloutputs (deref_jacdict st0 curlyJ) in
     match acc with
     | JacOut out =>
         new ← compose_jacobians out curlyJ; Ok (JacOut (update out new))
     | SeqOut out =>
         new ← apply_jacobians curlyJ out; Ok (SeqOut (update out new))
     end) = Ok acc' /\
    accumulate_sim st0 acc' st'.
Proof.
  intros Hjac (Hlen & Hdlen & Hobjs & Hdicts & outd & Houtd & Hvalid & ->).
  assert (jacdict_below (length (objects st)) (prune alloutputs curlyJ)) as Hjac'.
  { apply jacdict_below_prune. unfold jacdict_below in *.
    eapply Forall_impl; [done|]. intros [o row] Hrow. simpl in *.
    eapply refs_between_weaken; [done | lia | lia]. }
  destruct (apply_jacobians_obj_refines (st := st) Houtd Hvalid Hjac')
    as (st2 & newd & -> & Hlen2 & Hdlen2 & Hobjs2 & Hdicts2 & Hnewd & Hfresh & Hpure).
  simpl.
  rewrite (read_dict_Some (st := st2) (l := length (dicts st0)) (d := outd))
    by (by rewrite Hdicts2). simpl.
  rewrite (read_dict_Some Hnewd). simpl.
  rewrite prune_deref_jacdict in Hpure.
  rewrite (deref_jacdict_below (st := st0) (st' := st) Hjac Hobjs) in Hpure.
  rewrite Hpure. simpl.
  eexists _, _. split; [done|]. split; [done|].
  unfold accumulate_sim. simpl.
  rewrite length_insert. split; [lia|]. split; [lia|]. split; [|split].
  - intros r Hr. rewrite Hobjs2 by lia. by apply Hobjs.
  - intros l Hl. rewrite list_lookup_insert_ne by lia.
    rewrite Hdicts2 by lia. by apply Hdicts.
  - eexists. split; [apply list_lookup_insert_eq; lia|]. split.
    + apply refs_between_update.
      * eapply refs_between_weaken; [done | lia | lia].
      * eapply refs_between_weaken; [done | lia | lia].
    + f_equal. rewrite update_deref_dict. f_equal.
      transitivity (deref_dict st2 outd).
      * symmetry. by eapply deref_dict_below.
      * symmetry. by apply deref_dict_objects.
Qed.

(** [forward_accumulate] on objects, in evaluation mode, returns a
    dictionary that binds, behind its references, the sequences that the
    value-level [forward_accumulate] returns on the values of the
    arguments. *)
Lemma forward_accumulate_obj_refines st (curlyJs : list (dict (dict ref)))
    (inputs : ref) (outputs required : option (list string)) (ind : dict ref) :
  dicts st !! inputs = Some ind ->
  refs_between 0 (length (objects st)) ind ->
  Forall (jacdict_below (length (objects st))) curlyJs ->
  exists res st' resd,
    forward_accumulate_obj in_place st curlyJs inputs outputs required
      = Ok (res, st') /\
    dicts st' !! res = Some resd /\
    forward_accumulate (deref_jacdict st <$> curlyJs)
      (Sequences (deref_dict st ind)) outputs required
      = Ok (SeqOut (deref_dict st' resd)).
Proof.
  intros Hind Hvalid Hjacs. unfold forward_accumulate_obj, forward_accumulate, accumulate.
  rewrite (read_dict_Some Hind). simpl.
  destruct (for_each_sim
    (Rel := fun s1 s2 => accumulate_sim st s2 s1)
    (g := deref_jacdict st)
    (f1 := fun st0 curlyJ =>
      '(new, st0) ← apply_jacobians_obj in_place st0
                      (prune (alloutputs_of outputs required) curlyJ)
                      (length (dicts st));
      outd ← read_dict st0 (length (dicts st));
      newd ← read_dict st0 new;
      Ok (write_dict st0 (length (dicts st)) (update outd newd)))
    (f2 := fun out curlyJ =>
      match out with
      | JacOut out =>
          new ← compose_jacobians out (prune (alloutputs_of outputs required) curlyJ);
          Ok (JacOut (update out new))
      | SeqOut out =>
          new ← apply_jacobians (prune (alloutputs_of outputs required) curlyJ) out;
          Ok (SeqOut (update out new))
      end)
    (l := curlyJs)
    (s1 := mk_store (objects st) (dicts st ++ [ind]))
    (s2 := SeqOut (deref_dict st ind)))
    as (st1 & acc & Hrun1 & Hrun2 & Hlen & Hdlen & Hobjs & Hdicts & outd & Houtd & Hrefs & ->).
  - unfold accumulate_sim. simpl. rewrite length_app. simpl.
    split; [done|]. split; [lia|]. split; [done|]. split.
    + intros l Hl. by rewrite lookup_app_l.
    + exists ind. split; [rewrite lookup_app_r by done; by rewrite Nat.sub_diag|].
      split; [done|]. done.
  - intros s1 s2 curlyJ Hin Hs. apply accumulate_step_sim; [|done].
    eapply Forall_forall in Hjacs; done.
  - rewrite Hrun1, Hrun2. simpl. destruct outputs as [outs|].
    + rewrite (read_dict_Some Houtd). simpl. rewrite select_deref_dict.
      destruct (select_Ok outd outs) as (res & -> & _). simpl.
      eexists _, _, res. split; [done|]. simpl. split; [|done].
      rewrite lookup_app_r by done. by rewrite Nat.sub_diag.
    + eexists _, _, outd. split; [done|]. split; [done|]. done.
Qed.

End refinement.

(** ** Part 6: sequences and vectors

    The packing of dictionaries of sequences into the columns of a matrix
    and of dictionaries of vectors into one long vector. *)

(** Loops over [enumerate(l)]: an invariant indexed by the position. *)
Lemma for_each_zip_seq_invariant {A S : Type} (P : nat -> S -> Prop)
    (body : S -> nat * A -> result S) (l : list A) (k : nat) (s : S) :
  P k s ->
  (forall i x s1, l !! i = Some x -> P (k + i) s1 ->
     exists s2, body s1 (k + i, x) = Ok s2 /\ P (Datatypes.S (k + i)) s2) ->
  exists s', for_each (zip (seq k (length l)) l) s body = Ok s' /\ P (k + length l) s'.
Proof.
  revert k s. induction l as [|x l IH]; intros k s Hs Hbody; simpl.
  - exists s. by rewrite Nat.add_0_r.
  - destruct (Hbody 0 x s) as (s2 & Hrun & Hs2); [done | by rewrite Nat.add_0_r |].
    rewrite Nat.add_0_r in Hrun, Hs2. rewrite Hrun. simpl.
    destruct (IH (Datatypes.S k) s2) as (s' & Hrun' & Hs'); [done | |].
    + intros i y s1 Hy Hs1.
      replace (Datatypes.S k + i) with (k + Datatypes.S i) in * by lia.
      by apply Hbody.
    + exists s'. split; [done|]. by rewrite Nat.add_succ_r.
Qed.

Lemma for_each_enumerate_invariant {A S : Type} (P : nat -> S -> Prop)
    (body : S -> nat * A -> result S) (l : list A) (s : S) :
  P 0 s ->
  (forall i x s1, l !! i = Some x -> P i s1 ->
     exists s2, body s1 (i, x) = Ok s2 /\ P (Datatypes.S i) s2) ->
  exists s', for_each (enumerate l) s body = Ok s' /\ P (length l) s'.
Proof.
  intros Hs Hbody. unfold enumerate.
  apply (for_each_zip_seq_invariant (P := P) (k := 0)); [done|].
  intros i x s1 Hx. simpl. by apply Hbody.
Qed.

(** A loop over [enumerate(l)] that raises at position [n]. *)
Lemma for_each_zip_seq_raises {A S : Type} (P : nat -> S -> Prop)
    (body : S -> nat * A -> result S) (l : list A) (k n : nat) (s : S) (e : exn) :
  n < length l ->
  P k s ->
  (forall i x s1, i < n -> l !! i = Some x -> P (k + i) s1 ->
     exists s2, body s1 (k + i, x) = Ok s2 /\ P (Datatypes.S (k + i)) s2) ->
  (forall x s1, l !! n = Some x -> P (k + n) s1 -> body s1 (k + n, x) = Raise e) ->
  for_each (zip (seq k (length l)) l) s body = Raise e.
Proof.
  revert k n s. induction l as [|x l IH]; intros k n s Hn Hs Hbody Hraise; simpl in *.
  - lia.
  - destruct n as [|n].
    + rewrite Nat.add_0_r in Hraise. by rewrite (Hraise x s).
    + destruct (Hbody 0 x s) as (s2 & Hrun & Hs2); [lia | done | by rewrite Nat.add_0_r |].
      rewrite Nat.add_0_r in Hrun, Hs2. rewrite Hrun. simpl.
      apply (IH (Datatypes.S k) n s2); [lia | done | |].
      * intros i y s1 Hi Hy Hs1.
        replace (Datatypes.S k + i) with (k + Datatypes.S i) in * by lia.
        apply Hbody; [lia | done | done].
      * intros y s1 Hy Hs1.
        replace (Datatypes.S k + n) with (k + Datatypes.S n) in * by lia.
        by apply Hraise.
Qed.

Section sequences.
Context {R : Type} `{!Scalars R}.

(** A one-dimensional ndarray: its length and its entries. *)
Record vector : Type := mk_vector {
  vlen : nat;
  vitem : nat -> R;
}.

(** Same length and same entries. *)
Definition vector_eq (a b : vector) : Prop :=
  vlen a = vlen b /\ forall j, j < vlen a -> vitem a j = vitem b j.

Definition to_list (v : vector) : list R := vitem v <$> seq 0 (vlen v).

(** [np.zeros(n)] *)
Definition np_zeros1 (n : nat) : vector := mk_vector n (fun _ => zero).

(** [a[:, i]]: an integer index past the last column raises *)
Definition getitem_col (a : ndarray R) (i : nat) : result vector :=
  if decide (i < ncols a) then Ok (mk_vector (nrows a) (fun r => item a r i))
  else Raise IndexError.

(** [a[:, i] = v]: the value is broadcast to the length of the column *)
Definition setitem_col (a : ndarray R) (i : nat) (v : vector)
  : result (ndarray R) :=
  if decide (i < ncols a) then
    if bool_decide (vlen v = nrows a \/ vlen v = 1) then
      Ok (mk_ndarray (nrows a) (ncols a) (fun r c =>
            if decide (c = i)
            then vitem v (if decide (vlen v = 1) then 0 else r)
            else item a r c))
    else Raise (ValueError "could not broadcast input array")
  else Raise IndexError.

(** [v[lo:hi]] *)
Definition getitem_slice1 (v : vector) (lo hi : nat) : vector :=
  mk_vector (slice_len lo hi (vlen v)) (fun j => vitem v (min lo (vlen v) + j)).

(** [v[lo:hi] = w]: the value is broadcast to the length of the slice *)
Definition setitem_slice1 (v : vector) (lo hi : nat) (w : vector) : result vector :=
  let lo' := min lo (vlen v) in
  let h := slice_len lo hi (vlen v) in
  if bool_decide (vlen w = h \/ vlen w = 1) then
    Ok (mk_vector (vlen v) (fun j =>
          if bool_decide (lo' <= j < lo' + h)
          then vitem w (if decide (vlen w = 1) then 0 else j - lo')
          else vitem v j))
  else Raise (ValueError "could not broadcast input array").

(** [pack_sequences(sequences, names, T)] *)
Definition pack_sequences (sequences : dict vector) (names : list string)
    (T : nat) : result (ndarray R) :=
  let dX := np_zeros T (length names) in
  for_each (enumerate names) dX (fun dX '(i, name) =>
    if contains sequences name then
      v ← getitem sequences name; setitem_col dX i v
    else Ok dX).

(** [unpack_sequences(dX, names)] *)
Definition unpack_sequences (dX : ndarray R) (names : list string)
  : result (dict vector) :=
  for_each (enumerate names) [] (fun sequences '(i, name) =>
    col ← getitem_col dX i; Ok (setitem sequences name col)).

(** [pack_vectors(vs, names, T)] *)
Definition pack_vectors (vs : dict vector) (names : list string) (T : nat)
  : result vector :=
  let v := np_zeros1 (length names * T) in
  for_each (enumerate names) v (fun v '(i, name) =>
    if contains vs name then
      w ← getitem vs name; setitem_slice1 v (i * T) ((i + 1) * T) w
    else Ok v).

(** [unpack_vectors(v, names, T)] *)
Definition unpack_vectors (v : vector) (names : list string) (T : nat)
  : result (dict vector) :=
  for_each (enumerate names) [] (fun vs '(i, name) =>
    Ok (setitem vs name (getitem_slice1 v (i * T) ((i + 1) * T)))).

End sequences.

Arguments vector : clear implicits.

Section sequence_facts.
Context {R : Type} `{!Scalars R}.
Implicit Types (names : list string) (T : nat).

(** What packing stores for a name: its sequence, or zeros when the
    dictionary does not have the name. *)
Definition packed_or_zeros (d : dict (vector R)) (name : string) (T : nat)
  : vector R :=
  match get d name with
  | Some v => v
  | None => np_zeros1 T
  end.

(** Every listed name that the dictionary has is bound to T entries. *)
Definition lengths_are (d : dict (vector R)) names T : Prop :=
  forall name v, name ∈ names -> get d name = Some v -> vlen v = T.

Lemma pack_sequences_columns (sequences : dict (vector R)) names T :
  lengths_are sequences names T ->
  exists dX,
    pack_sequences sequences names T = Ok dX /\
    nrows dX = T /\ ncols dX = length names /\
    forall i name r, names !! i = Some name -> r < T ->
      item dX r i = vitem (packed_or_zeros sequences name T) r.
Proof.
  intros Hlen. unfold pack_sequences.
  destruct (for_each_enumerate_invariant
    (P := fun j (dX : ndarray R) =>
      nrows dX = T /\ ncols dX = length names /\
      (forall i name r, i < j -> names !! i = Some name -> r < T ->
         item dX r i = vitem (packed_or_zeros sequences name T) r) /\
      (forall i r, j <= i -> item dX r i = zero))
    (body := fun dX '(i, name) =>
      if contains sequences name then
        v ← getitem sequences name; setitem_col dX i v
      else Ok dX)
    (l := names) (s := np_zeros T (length names)))
    as (dX & Hrun & Hr & Hc & Hcols & _).
  - split; [done|]. split; [done|]. split; [intros; lia | done].
  - intros i name dX Hname (Hr & Hc & Hcols & Hzero).
    assert (i < length names) as Hi by by eapply lookup_lt_Some.
    assert (name ∈ names) as Hin by by eapply list_elem_of_lookup_2.
    destruct (get sequences name) as [v|] eqn:Ev.
    + rewrite (contains_Some Ev), (getitem_Some Ev). simpl.
      assert (vlen v = T) as Hv by by eapply Hlen.
      unfold setitem_col. rewrite Hc, Hr.
      rewrite decide_True by done. rewrite bool_decide_eq_true_2 by tauto.
      eexists. split; [done|]. simpl. split; [done|]. split; [done|]. split.
      * intros i' name' r Hi' Hname' Hr'.
        destruct (decide (i' = i)) as [->|Hne].
        -- assert (name' = name) as -> by congruence.
           unfold packed_or_zeros. rewrite Ev. f_equal. case_decide; lia.
        -- apply Hcols; [lia | done | done].
      * intros i' r Hi'. rewrite decide_False by lia. apply Hzero. lia.
    + rewrite (contains_None Ev). exists dX. split; [done|].
      split; [done|]. split; [done|]. split.
      * intros i' name' r Hi' Hname' Hr'.
        destruct (decide (i' = i)) as [->|Hne].
        -- assert (name' = name) as -> by congruence.
           unfold packed_or_zeros. rewrite Ev. simpl. by apply Hzero.
        -- apply Hcols; [lia | done | done].
      * intros i' r Hi'. apply Hzero. lia.
  - exists dX. split; [done|]. split; [done|]. split; [done|].
    intros i name r Hname Hr'. apply Hcols; [|done|done].
    by eapply lookup_lt_Some.
Qed.

Lemma unpack_sequences_columns (dX : ndarray R) names :
  length names <= ncols dX ->
  exists sequences,
    unpack_sequences dX names = Ok sequences /\
    (forall name, name ∈ keys sequences <-> name ∈ names) /\
    forall name v, get sequences name = Some v ->
      exists i, names !! i = Some name /\
                v = mk_vector (nrows dX) (fun r => item dX r i).
Proof.
  intros Hcols. unfold unpack_sequences.
  destruct (for_each_enumerate_invariant
    (P := fun j (sequences : dict (vector R)) =>
      (forall name, name ∈ keys sequences <->
                    exists i, i < j /\ names !! i = Some name) /\
      forall name v, get sequences name = Some v ->
        exists i, names !! i = Some name /\
                  v = mk_vector (nrows dX) (fun r => item dX r i))
    (body := fun sequences '(i, name) =>
      col ← getitem_col dX i; Ok (setitem sequences name col))
    (l := names) (s := []))
    as (sequences & Hrun & Hkeys & Hvals).
  - split; [|done]. intros name. rewrite elem_of_keys_nil.
    split; [done|]. intros (i & ? & _). lia.
  - intros i name sequences Hname [Hkeys Hvals].
    assert (i < length names) as Hi by by eapply lookup_lt_Some.
    unfold getitem_col. rewrite decide_True by lia. simpl.
    eexists. split; [done|]. split.
    + intros name'. rewrite elem_of_keys_setitem, Hkeys. split.
      * intros [->|(i' & ? & ?)]; [exists i; split; [lia | done]|].
        exists i'. split; [lia | done].
      * intros (i' & Hi' & Hname').
        destruct (decide (i' = i)) as [->|Hne]; [left; congruence|].
        right. exists i'. split; [lia | done].
    + intros name' v. rewrite get_setitem. case_decide as Hn.
      * intros [= <-]. subst. by exists i.
      * apply Hvals.
  - exists sequences. split; [done|]. split; [|done].
    intros name. rewrite Hkeys, list_elem_of_lookup. split.
    + intros (i & _ & Hname). by exists i.
    + intros (i & Hname). exists i. split; [by eapply lookup_lt_Some | done].
Qed.

(** X1. When every listed name that [sequences] has is bound to T entries,
    packing and then unpacking returns a dictionary whose keys are the listed
    names, each bound to its sequence, and to T zeros when [sequences] does
    not have the name. *)
Theorem unpack_pack_sequences (sequences : dict (vector R)) names T :
  lengths_are sequences names T ->
  exists dX sequences',
    pack_sequences sequences names T = Ok dX /\
    unpack_sequences dX names = Ok sequences' /\
    (forall name, name ∈ keys sequences' <-> name ∈ names) /\
    forall name, name ∈ names ->
      exists v,
        get sequences' name = Some v /\
        vector_eq v (packed_or_zeros sequences name T).
Proof.
  intros Hlen.
  destruct (pack_sequences_columns Hlen) as (dX & Hpack & Hr & Hc & Hcols).
  destruct (unpack_sequences_columns (dX := dX) (names := names))
    as (seqs & Hunpack & Hkeys & Hvals); [lia|].
  exists dX, seqs. split; [done|]. split; [done|]. split; [done|].
  intros name Hname. apply Hkeys in Hname as Hin. apply keys_get in Hin as [v Hv].
  exists v. split; [done|].
  destruct (Hvals name v Hv) as (i & Hi & ->). split; simpl.
  - rewrite Hr. unfold packed_or_zeros.
    destruct (get sequences name) as [w|] eqn:Ew; [|done].
    symmetry. by eapply Hlen.
  - intros r Hr'. apply Hcols; [done | lia].
Qed.

(** X2. For pairwise distinct names and a matrix with T rows and one column
    per name, unpacking and then packing gives the matrix back. *)
Theorem pack_unpack_sequences (dX : ndarray R) names T :
  NoDup names -> nrows dX = T -> ncols dX = length names ->
  exists sequences dX',
    unpack_sequences dX names = Ok sequences /\
    pack_sequences sequences names T = Ok dX' /\
    array_eq dX' dX.
Proof.
  intros Hnd Hr Hc.
  destruct (unpack_sequences_columns (dX := dX) (names := names))
    as (seqs & Hunpack & Hkeys & Hvals); [lia|].
  assert (lengths_are seqs names T) as Hlen.
  { intros name v _ Hv. by destruct (Hvals name v Hv) as (i & _ & ->). }
  destruct (pack_sequences_columns Hlen) as (dX' & Hpack & Hr' & Hc' & Hcols).
  exists seqs, dX'. split; [done|]. split; [done|].
  split; [lia|]. split; [lia|].
  intros r c Hrr Hcc. rewrite Hc' in Hcc.
  destruct (lookup_lt_is_Some_2 names c Hcc) as [name Hname].
  rewrite (Hcols c name r Hname) by lia.
  unfold packed_or_zeros.
  assert (name ∈ keys seqs) as Hin.
  { apply Hkeys. by eapply list_elem_of_lookup_2. }
  apply keys_get in Hin as [v Hv]. rewrite Hv.
  destruct (Hvals name v Hv) as (i & Hi & ->). simpl.
  by rewrite (NoDup_lookup names i c name Hnd Hi Hname).
Qed.

(** X3. [unpack_sequences] indexes the columns by position: it raises
    [IndexError] exactly when there are more names than columns, and returns
    otherwise. *)
Theorem unpack_sequences_index_error (dX : ndarray R) names :
  (ncols dX < length names -> unpack_sequences dX names = Raise IndexError) /\
  (length names <= ncols dX ->
   exists sequences, unpack_sequences dX names = Ok sequences).
Proof.
  split.
  - intros Hlt. unfold unpack_sequences, enumerate.
    apply (for_each_zip_seq_raises (P := fun _ _ => True) (k := 0) (n := ncols dX));
      [done | done | |].
    + intros i name s Hi _ _. simpl. unfold getitem_col.
      rewrite decide_True by done. simpl. by eexists.
    + intros name s _ _. simpl. unfold getitem_col.
      by rewrite decide_False by lia.
  - intros Hle. destruct (unpack_sequences_columns (dX := dX) (names := names))
      as (seqs & Hunpack & _); [done|]. by exists seqs.
Qed.

End sequence_facts.

Section vector_facts.
Context {R : Type} `{!Scalars R}.
Implicit Types (names : list string) (T : nat).

Lemma pack_vectors_slices (vs : dict (vector R)) names T :
  lengths_are vs names T ->
  exists v,
    pack_vectors vs names T = Ok v /\
    vlen v = length names * T /\
    forall i name j, names !! i = Some name -> j < T ->
      vitem v (i * T + j) = vitem (packed_or_zeros vs name T) j.
Proof.
  intros Hlen. unfold pack_vectors.
  destruct (for_each_enumerate_invariant
    (P := fun k (v : vector R) =>
      vlen v = length names * T /\
      (forall i name j, i < k -> names !! i = Some name -> j < T ->
         vitem v (i * T + j) = vitem (packed_or_zeros vs name T) j) /\
      (forall p, k * T <= p -> vitem v p = zero))
    (body := fun v '(i, name) =>
      if contains vs name then
        w ← getitem vs name; setitem_slice1 v (i * T) ((i + 1) * T) w
      else Ok v)
    (l := names) (s := np_zeros1 (length names * T)))
    as (v & Hrun & Hl & Hslices & _).
  - split; [done|]. split; [intros; lia | done].
  - intros i name v Hname (Hl & Hslices & Hzero).
    assert (i < length names) as Hi by by eapply lookup_lt_Some.
    assert (name ∈ names) as Hin by by eapply list_elem_of_lookup_2.
    assert (i * T + T <= length names * T) as Hbound by nia.
    destruct (get vs name) as [w|] eqn:Ew.
    + rewrite (contains_Some Ew), (getitem_Some Ew). simpl.
      assert (vlen w = T) as Hw by by eapply Hlen.
      unfold setitem_slice1, slice_len. rewrite Hl, Hw.
      replace ((i + 1) * T) with (i * T + T) by lia.
      rewrite !Nat.min_l by lia.
      replace (i * T + T - i * T) with T by lia.
      rewrite bool_decide_eq_true_2 by tauto.
      eexists. split; [done|]. simpl. split; [done|]. split.
      * intros i' name' j Hi' Hname' Hj.
        destruct (decide (i' = i)) as [->|Hne].
        -- assert (name' = name) as -> by congruence.
           rewrite bool_decide_eq_true_2 by lia.
           unfold packed_or_zeros. rewrite Ew. f_equal. case_decide; lia.
        -- rewrite bool_decide_eq_false_2 by nia.
           apply Hslices; [lia | done | done].
      * intros p Hp. rewrite bool_decide_eq_false_2 by lia. apply Hzero. lia.
    + rewrite (contains_None Ew). exists v. split; [done|]. split; [done|]. split.
      * intros i' name' j Hi' Hname' Hj.
        destruct (decide (i' = i)) as [->|Hne].
        -- assert (name' = name) as -> by congruence.
           unfold packed_or_zeros. rewrite Ew. simpl. apply Hzero. lia.
        -- apply Hslices; [lia | done | done].
      * intros p Hp. apply Hzero. lia.
  - exists v. split; [done|]. split; [done|].
    intros i name j Hname Hj. apply Hslices; [|done|done].
    by eapply lookup_lt_Some.
Qed.

Lemma unpack_vectors_slices (v : vector R) names T :
  exists vs,
    unpack_vectors v names T = Ok vs /\
    (forall name, name ∈ keys vs <-> name ∈ names) /\
    forall name w, get vs name = Some w ->
      exists i, names !! i = Some name /\
                w = getitem_slice1 v (i * T) ((i + 1) * T).
Proof.
  unfold unpack_vectors.
  destruct (for_each_enumerate_invariant
    (P := fun k (vs : dict (vector R)) =>
      (forall name, name ∈ keys vs <->
                    exists i, i < k /\ names !! i = Some name) /\
      forall name w, get vs name = Some w ->
        exists i, names !! i = Some name /\
                  w = getitem_slice1 v (i * T) ((i + 1) * T))
    (body := fun vs '(i, name) =>
      Ok (setitem vs name (getitem_slice1 v (i * T) ((i + 1) * T))))
    (l := names) (s := []))
    as (vs & Hrun & Hkeys & Hvals).
  - split; [|done]. intros name. rewrite elem_of_keys_nil.
    split; [done|]. intros (i & ? & _). lia.
  - intros i name vs Hname [Hkeys Hvals].
    eexists. split; [done|]. split.
    + intros name'. rewrite elem_of_keys_setitem, Hkeys. split.
      * intros [->|(i' & ? & ?)]; [exists i; split; [lia | done]|].
        exists i'. split; [lia | done].
      * intros (i' & Hi' & Hname').
        destruct (decide (i' = i)) as [->|Hne]; [left; congruence|].
        right. exists i'. split; [lia | done].
    + intros name' w. rewrite get_setitem. case_decide as Hn.
      * intros [= <-]. subst. by exists i.
      * apply Hvals.
  - exists vs. split; [done|]. split; [|done].
    intros name. rewrite Hkeys, list_elem_of_lookup. split.
    + intros (i & _ & Hname). by exists i.
    + intros (i & Hname). exists i. split; [by eapply lookup_lt_Some | done].
Qed.

(** X4. When every listed name that [vs] has is bound to T entries, packing
    and then unpacking returns a dictionary whose keys are the listed names,
    each bound to its vector, and to T zeros when [vs] does not have the
    name. *)
Theorem unpack_pack_vectors (vs : dict (vector R)) names T :
  lengths_are vs names T ->
  exists v vs',
    pack_vectors vs names T = Ok v /\
    unpack_vectors v names T = Ok vs' /\
    (forall name, name ∈ keys vs' <-> name ∈ names) /\
    forall name, name ∈ names ->
      exists w,
        get vs' name = Some w /\
        vector_eq w (packed_or_zeros vs name T).
Proof.
  intros Hlen.
  destruct (pack_vectors_slices Hlen) as (v & Hpack & Hl & Hslices).
  destruct (unpack_vectors_slices v names T) as (vs' & Hunpack & Hkeys & Hvals).
  exists v, vs'. split; [done|]. split; [done|]. split; [done|].
  intros name Hname. apply Hkeys in Hname as Hin. apply keys_get in Hin as [w Hw].
  exists w. split; [done|].
  destruct (Hvals name w Hw) as (i & Hi & ->).
  assert (i < length names) as Hilt by by eapply lookup_lt_Some.
  assert (i * T + T <= length names * T) as Hbound by nia.
  assert (vlen (packed_or_zeros vs name T) = T) as Hpz.
  { unfold packed_or_zeros. destruct (get vs name) as [u|] eqn:Eu; [|done].
    by eapply Hlen. }
  unfold getitem_slice1, slice_len, vector_eq. simpl. rewrite Hl, Hpz.
  replace ((i + 1) * T) with (i * T + T) by lia.
  rewrite !Nat.min_l by lia. split; [lia|].
  intros j Hj. apply Hslices; [done | lia].
Qed.

(** X5. For pairwise distinct names and a vector with T entries per name,
    unpacking and then packing gives the vector back. *)
Theorem pack_unpack_vectors (v : vector R) names T :
  NoDup names -> vlen v = length names * T ->
  exists vs v',
    unpack_vectors v names T = Ok vs /\
    pack_vectors vs names T = Ok v' /\
    vector_eq v' v.
Proof.
  intros Hnd Hl.
  destruct (unpack_vectors_slices v names T) as (vs & Hunpack & Hkeys & Hvals).
  assert (forall i, i < length names ->
            vlen (getitem_slice1 v (i * T) ((i + 1) * T)) = T /\
            forall j, vitem (getitem_slice1 v (i * T) ((i + 1) * T)) j
                      = vitem v (i * T + j)) as Hslice.
  { intros i Hi. assert (i * T + T <= length names * T) as Hbound by nia.
    unfold getitem_slice1, slice_len. simpl. rewrite Hl.
    replace ((i + 1) * T) with (i * T + T) by lia.
    rewrite !Nat.min_l by lia. split; [lia | done]. }
  assert (lengths_are vs names T) as Hlen.
  { intros name w _ Hw. destruct (Hvals name w Hw) as (i & Hi & ->).
    apply Hslice. by eapply lookup_lt_Some. }
  destruct (pack_vectors_slices Hlen) as (v' & Hpack & Hl' & Hslices).
  exists vs, v'. split; [done|]. split; [done|]. split; [lia|].
  intros p Hp. rewrite Hl' in Hp.
  assert (0 < T) as HT by (destruct T; [lia | lia]).
  assert (p / T < length names) as Hq
    by (apply Nat.Div0.div_lt_upper_bound; lia).
  pose proof (Nat.div_mod_eq p T) as Hdm.
  pose proof (Nat.mod_upper_bound p T ltac:(lia)) as Hmod.
  destruct (lookup_lt_is_Some_2 names (p / T) Hq) as [name Hname].
  replace p with (p / T * T + p mod T) at 1 2 by lia.
  rewrite (Hslices (p / T) name (p mod T) Hname Hmod).
  unfold packed_or_zeros.
  assert (name ∈ keys vs) as Hin.
  { apply Hkeys. by eapply list_elem_of_lookup_2. }
  apply keys_get in Hin as [w Hw]. rewrite Hw.
  destruct (Hvals name w Hw) as (i & Hi & ->).
  rewrite (NoDup_lookup names i (p / T) name Hnd Hi Hname).
  by destruct (Hslice (p / T) Hq) as [_ ->].
Qed.

(** X6. [unpack_vectors] slices, so it never raises: on a vector that is
    too short the listed names are still all bound, to what is left of their
    slice, at most T entries each. *)
Theorem unpack_vectors_truncates (v : vector R) names T :
  exists vs,
    unpack_vectors v names T = Ok vs /\
    (forall name, name ∈ keys vs <-> name ∈ names) /\
    forall name w, get vs name = Some w ->
      exists i,
        names !! i = Some name /\
        vlen w = min ((i + 1) * T) (vlen v) - min (i * T) (vlen v) /\
        vlen w <= T /\
        forall j, j < vlen w -> vitem w j = vitem v (i * T + j).
Proof.
  destruct (unpack_vectors_slices v names T) as (vs & Hunpack & Hkeys & Hvals).
  exists vs. split; [done|]. split; [done|].
  intros name w Hw. destruct (Hvals name w Hw) as (i & Hi & ->).
  exists i. split; [done|]. unfold getitem_slice1, slice_len. simpl.
  split; [done|]. split; [lia|].
  intros j Hj. f_equal. lia.
Qed.

End vector_facts.

(** ** More on packing Jacobians *)

(** A loop raises when its body raises at some element whatever the state. *)
Lemma for_each_raises_at {A S : Type} (body : S -> A -> result S)
    (l : list A) (s : S) (x : A) :
  x ∈ l ->
  (forall s, exists e, body s x = Raise e) ->
  exists e, for_each l s body = Raise e.
Proof.
  intros Hx Hraise. revert s.
  induction l as [|y l IH]; intros s; [by apply elem_of_nil in Hx|].
  simpl. apply elem_of_cons in Hx as [->|Hx].
  - destruct (Hraise s) as [e ->]. by exists e.
  - destruct (body s y) as [s'|e]; simpl; [|by exists e].
    by apply IH.
Qed.

Section packing_more.
Context {R : Type} `{!Scalars R} {SimpleSparse : Type}.
Context (SimpleSparse_matrix : SimpleSparse -> nat -> ndarray R).
Context (uninitialized : nat -> nat -> R).
Implicit Types (inputs outputs : list string) (T : nat).

(** X7. For pairwise distinct names and a matrix of shape
    (nO*T) x (nI*T), unpacking and then packing gives the matrix back,
    whatever [np.empty] held. *)
Theorem pack_unpack_jacobians (bigjac : ndarray R) inputs outputs T :
  NoDup inputs -> NoDup outputs ->
  nrows bigjac = length outputs * T -> ncols bigjac = length inputs * T ->
  exists jacdict outjac,
    unpack_jacobians (SimpleSparse := SimpleSparse) bigjac inputs outputs T
      = Ok jacdict /\
    pack_jacobians uninitialized jacdict inputs outputs T = Ok outjac /\
    array_eq outjac bigjac.
Proof.
  intros HndI HndO Hr Hc.
  destruct (unpack_jacobians_slices (SimpleSparse := SimpleSparse)
              uninitialized inputs outputs T bigjac)
    as (jd & Hunpack & Hkeys & Hrows).
  assert (forall o i v, o ∈ outputs -> i ∈ inputs ->
            entry jd o i = Some v ->
            exists iO iI, outputs !! iO = Some o /\ inputs !! iI = Some i /\
                          v = OpNdarray (block_at T bigjac iO iI)) as Hentry.
  { intros o i v Ho Hi. unfold entry, get_default.
    destruct (get jd o) as [row|] eqn:Erow; [|done].
    intros Hv. destruct (Hrows o row Erow) as [_ Hvals]. by apply Hvals. }
  assert (dense_entries jd inputs outputs T) as Hdense.
  { intros o i v Ho Hi Hv.
    destruct (Hentry o i v Ho Hi Hv) as (iO & iI & HiO & HiI & ->).
    eexists. split; [done|].
    destruct (block_at_packed (iO := iO) (iI := iI) Hr Hc) as (? & ? & _);
      [by eapply lookup_lt_Some | by eapply lookup_lt_Some | done]. }
  destruct (pack_jacobians_dense SimpleSparse_matrix uninitialized Hdense)
    as (outjac & Hpack & Hr' & Hc' & Hitems).
  exists jd, outjac. split; [done|]. split; [done|].
  split; [lia|]. split; [lia|].
  intros r c Hrr Hcc. rewrite Hr' in Hrr. rewrite Hc' in Hcc.
  assert (0 < T) as HT by (destruct T; lia).
  assert (r / T < length outputs) as HqO
    by (apply Nat.Div0.div_lt_upper_bound; lia).
  assert (c / T < length inputs) as HqI
    by (apply Nat.Div0.div_lt_upper_bound; lia).
  pose proof (Nat.div_mod_eq r T) as Hdr.
  pose proof (Nat.div_mod_eq c T) as Hdc.
  pose proof (Nat.mod_upper_bound r T ltac:(lia)) as Hmr.
  pose proof (Nat.mod_upper_bound c T ltac:(lia)) as Hmc.
  destruct (lookup_lt_is_Some_2 outputs (r / T) HqO) as [o Ho].
  destruct (lookup_lt_is_Some_2 inputs (c / T) HqI) as [i Hi].
  replace r with (T * (r / T) + r mod T) at 1 by lia.
  replace c with (T * (c / T) + c mod T) at 1 by lia.
  rewrite (Hitems (r / T) (c / T) o i (r mod T) (c mod T) Ho Hi Hmr Hmc).
  unfold dense_block.
  assert (o ∈ outputs) as Hoin by by eapply list_elem_of_lookup_2.
  assert (i ∈ inputs) as Hiin by by eapply list_elem_of_lookup_2.
  destruct (entry jd o i) as [v|] eqn:Ev.
  - destruct (Hentry o i v Hoin Hiin Ev) as (iO & iI & HiO & HiI & ->).
    cbn [make_matrix].
    rewrite (NoDup_lookup outputs iO (r / T) o HndO HiO Ho).
    rewrite (NoDup_lookup inputs iI (c / T) i HndI HiI Hi).
    destruct (block_at_packed (iO := r / T) (iI := c / T) Hr Hc) as (_ & _ & ->);
      [done | done |].
    f_equal; lia.
  - exfalso. unfold entry, get_default in Ev.
    apply Hkeys in Hoin. apply keys_get in Hoin as [row Hrow]. rewrite Hrow in Ev.
    destruct (Hrows o row Hrow) as [Hrkeys _].
    apply Hrkeys in Hiin. apply keys_get in Hiin as [v Hv]. congruence.
Qed.

(** X8. [unpack_jacobians] slices, so it never raises, whatever the shape of
    the matrix: every listed output is a key, bound to a row whose keys are
    the listed inputs, and each entry is an array, the slice of the matrix at
    the position of a pair of that name, cut short where the matrix ends. *)
Theorem unpack_jacobians_total (bigjac : ndarray R) inputs outputs T :
  exists jacdict,
    unpack_jacobians (SimpleSparse := SimpleSparse) bigjac inputs outputs T
      = Ok jacdict /\
    (forall o, o ∈ keys jacdict <-> o ∈ outputs) /\
    forall o row, get jacdict o = Some row ->
      (forall i, i ∈ keys row <-> i ∈ inputs) /\
      forall i v, get row i = Some v ->
        exists iO iI b,
          outputs !! iO = Some o /\ inputs !! iI = Some i /\
          v = OpNdarray b /\
          nrows b = min (T * (iO + 1)) (nrows bigjac) - min (T * iO) (nrows bigjac) /\
          ncols b = min (T * (iI + 1)) (ncols bigjac) - min (T * iI) (ncols bigjac) /\
          forall x y, x < nrows b -> y < ncols b ->
            item b x y = item bigjac (T * iO + x) (T * iI + y).
Proof.
  destruct (unpack_jacobians_slices (SimpleSparse := SimpleSparse)
              uninitialized inputs outputs T bigjac)
    as (jd & Hunpack & Hkeys & Hrows).
  exists jd. split; [done|]. split; [done|].
  intros o row Hrow. destruct (Hrows o row Hrow) as [Hrkeys Hvals].
  split; [done|]. intros i v Hv.
  destruct (Hvals i v Hv) as (iO & iI & HiO & HiI & ->).
  exists iO, iI, (block_at T bigjac iO iI).
  split; [done|]. split; [done|]. split; [done|].
  unfold block_at, getitem_slice, slice_len. simpl.
  split; [done|]. split; [done|].
  intros x y Hx Hy. f_equal; lia.
Qed.

(** X9. [pack_jacobians] does not materialize operators: when the name
    lists reach an entry that is an [IdentityMatrix], as the entries that
    [chain_jacobians] makes for its inputs are, it raises. *)
Theorem pack_jacobians_identity_entry_raises
    (jacdict : dict (dict (operator R SimpleSparse))) inputs outputs T o i :
  o ∈ outputs -> i ∈ inputs -> entry jacdict o i = Some OpIdentityMatrix ->
  exists e, pack_jacobians uninitialized jacdict inputs outputs T = Raise e.
Proof.
  intros Ho Hi Hentry. unfold pack_jacobians.
  apply list_elem_of_lookup in Ho as [iO HiO].
  apply list_elem_of_lookup in Hi as [iI HiI].
  apply for_each_raises_at with (x := iO).
  { apply elem_of_seq. split; [lia|]. simpl. by eapply lookup_lt_Some. }
  intros outjac. rewrite (list_getitem_Some HiO). simpl.
  apply for_each_raises_at with (x := iI).
  { apply elem_of_seq. split; [lia|]. simpl. by eapply lookup_lt_Some. }
  intros outjac'. rewrite (list_getitem_Some HiI). simpl.
  unfold entry in Hentry. unfold get_default at 1. rewrite Hentry. simpl.
  by eexists.
Qed.

End packing_more.

(** ** More on the graph *)


(** An exception of a loop is an exception of its body. *)
Lemma for_each_Raise_inv {A S : Type} (body : S -> A -> result S)
    (l : list A) (s : S) (e : exn) :
  for_each l s body = Raise e ->
  exists s1 x, x ∈ l /\ body s1 x = Raise e.
Proof.
  revert s. induction l as [|x l IH]; intros s; simpl; [done|].
  destruct (body s x) as [s'|e'] eqn:Hx; simpl.
  - intros Hrun. destruct (IH s' Hrun) as (s1 & y & Hy & Hraise).
    exists s1, y. split; [by right | done].
  - intros [= ->]. exists s, x. split; [left | done].
Qed.

Lemma enumerate_fst {A : Type} (l : list A) : (enumerate l).*1 = seq 0 (length l).
Proof. unfold enumerate. apply fst_zip. by rewrite length_seq. Qed.

Lemma enumerate_snd {A : Type} (l : list A) : (enumerate l).*2 = l.
Proof. unfold enumerate. apply snd_zip. by rewrite length_seq. Qed.

Lemma enumerate_bind {A B : Type} (f : A -> list B) (l : list A) :
  enumerate l ≫= (fun nx => f nx.2) = l ≫= f.
Proof.
  rewrite <- (enumerate_snd l) at 2. by rewrite list_fmap_bind.
Qed.

(** Where [enumerate] has reached: the pairs before position [n] carry the
    indices below [n]. *)
Lemma enumerate_split {A : Type} (l : list A) pre (n : nat) (x : A) post :
  enumerate l = pre ++ (n, x) :: post ->
  n = length pre /\ l !! n = Some x /\ forall m y, (m, y) ∈ pre -> m < n.
Proof.
  intros Hsplit.
  assert (forall j my, (pre ++ (n, x) :: post) !! j = Some my -> my.1 = j) as Hidx.
  { intros j [m y] Hj. rewrite <- Hsplit in Hj.
    unfold enumerate in Hj.
    apply lookup_zip_with_Some in Hj as (m' & y' & [= -> ->] & Hm & _).
    apply lookup_seq in Hm as [-> _]. done. }
  assert (n = length pre) as ->.
  { specialize (Hidx (length pre) (n, x)). simpl in Hidx.
    apply Hidx. by rewrite list_lookup_middle. }
  split; [done|]. split.
  - apply elem_of_enumerate. rewrite Hsplit.
    apply list_elem_of_lookup. exists (length pre). by rewrite list_lookup_middle.
  - intros m y Hin. apply list_elem_of_lookup in Hin as [j Hj].
    assert (j < length pre) as Hlt by by eapply lookup_lt_Some.
    specialize (Hidx j (m, y)). simpl in Hidx. rewrite Hidx; [done|].
    by rewrite lookup_app_l.
Qed.

Section graph_steps.
Context {V : Type}.
Implicit Types (b : block V) (block_list : list (block V)).

(** A simple block or a Jacobian dictionary. *)
Definition recognized b : Prop :=
  match b with
  | BlockOther => False
  | _ => True
  end.

Lemma outputs_of_Ok b outs :
  outputs_of b = Ok outs -> recognized b /\ outs = declared_outputs b.
Proof. destruct b; simpl; intros [= <-]; done. Qed.



(** Step 1, when it returns: the keys of [outmap] are the outputs of the
    blocks in order, no output is repeated, every block was recognized, and
    an output is mapped to the position of the block that declares it. *)
Lemma build_outmap_Ok block_list outmap :
  build_outmap block_list = Ok outmap ->
  keys outmap = block_list ≫= declared_outputs /\
  NoDup (block_list ≫= declared_outputs) /\
  Forall recognized block_list /\
  forall o n, get outmap o = Some n <->
    exists b, block_list !! n = Some b /\ o ∈ declared_outputs b.
Proof.
  unfold build_outmap. intros Hrun.
  enough (keys outmap = enumerate block_list ≫= (fun nb => declared_outputs nb.2) /\
          NoDup (keys outmap) /\
          Forall (fun nb => recognized nb.2) (enumerate block_list) /\
          forall o n, get outmap o = Some n <->
            exists b, (n, b) ∈ enumerate block_list /\ o ∈ declared_outputs b)
    as (Hkeys & Hnodup & Hrec & Hget).
  { rewrite enumerate_bind in Hkeys. split; [done|]. split; [by rewrite <- Hkeys|].
    split.
    - rewrite <- (enumerate_snd block_list). by apply Forall_fmap.
    - intros o n. rewrite Hget. by setoid_rewrite elem_of_enumerate. }
  revert Hrun. apply (for_each_prefix_invariant
    (P := fun pre outmap =>
      keys outmap = pre ≫= (fun nb => declared_outputs nb.2) /\
      NoDup (keys outmap) /\
      Forall (fun nb => recognized nb.2) pre /\
      forall o n, get outmap o = Some n <->
        exists b, (n, b) ∈ pre /\ o ∈ declared_outputs b)).
  - split; [done|]. split; [apply NoDup_nil_2|]. split; [done|].
    intros o n. split; [done|]. intros (b & Hin & _). by apply elem_of_nil in Hin.
  - intros pre [num b] om1 om2 _ (Hkeys & Hnodup & Hrec & Hget) Hbody. simpl in Hbody.
    destruct (outputs_of b) as [outs|] eqn:Houts; simpl in Hbody; [|done].
    apply outputs_of_Ok in Houts as [Hb ->].
    enough (keys om2 = keys om1 ++ declared_outputs b /\ NoDup (keys om2) /\
            forall o n, get om2 o = Some n <->
              get om1 o = Some n \/ (n = num /\ o ∈ declared_outputs b))
      as (Hkeys2 & Hnodup2 & Hget2).
    { split; [|split; [done|split]].
      - rewrite Hkeys2, Hkeys, bind_app. simpl. by rewrite app_nil_r.
      - apply Forall_app. split; [done|]. by apply Forall_singleton.
      - intros o n. rewrite Hget2, Hget. split.
        + intros [(b' & Hin & Ho)|[-> Ho]].
          * exists b'. split; [|done]. apply elem_of_app. by left.
          * exists b. split; [|done]. apply elem_of_app. right. by left.
        + intros (b' & Hin & Ho). apply elem_of_app in Hin as [Hin|Hin].
          * left. by exists b'.
          * apply list_elem_of_singleton in Hin as [= -> ->]. by right. }
    revert Hbody. apply (for_each_prefix_invariant
      (P := fun done om => keys om = keys om1 ++ done /\ NoDup (keys om) /\
        forall o n, get om o = Some n <->
          get om1 o = Some n \/ (n = num /\ o ∈ done))).
    + split; [by rewrite app_nil_r|]. split; [done|].
      intros o n. rewrite elem_of_nil. tauto.
    + intros done' o' om3 om4 _ (Hk3 & Hn3 & Hg3) Hstep.
      destruct (contains om3 o') eqn:Hc; [done|]. injection Hstep as <-.
      split; [|split].
      * rewrite keys_setitem, Hc, Hk3. by rewrite <- app_assoc.
      * by apply wf_setitem.
      * apply contains_false in Hc. intros o n. rewrite get_setitem.
        rewrite elem_of_app, list_elem_of_singleton. case_decide as Ho.
        -- subst o. split.
           ++ intros [= <-]. right. split; [done|]. by right.
           ++ intros [Hom1|[-> _]]; [|done].
              exfalso. apply Hc. rewrite Hk3. apply elem_of_app. left.
              by eapply get_Some_keys.
        -- rewrite Hg3. split; [tauto|]. intros [?|[? [?|?]]]; tauto.
Qed.

(** Step 1 raises nothing but [ValueError]. *)
Lemma build_outmap_Raise block_list e :
  build_outmap block_list = Raise e -> exists msg, e = ValueError msg.
Proof.
  unfold build_outmap. intros Hrun.
  apply for_each_Raise_inv in Hrun as (om & [num b] & _ & Hbody). simpl in Hbody.
  destruct b; simpl in Hbody.
  - apply for_each_Raise_inv in Hbody as (om' & o & _ & Hstep).
    destruct (contains om' o); [|done]. injection Hstep as <-. eauto.
  - apply for_each_Raise_inv in Hbody as (om' & o & _ & Hstep).
    destruct (contains om' o); [|done]. injection Hstep as <-. eauto.
  - injection Hbody as <-. eauto.
Qed.


(** [{num: set() for num in range(n)}] *)
Lemma lookup_initial_dep (n num : nat) :
  (list_to_map ((fun num => (num, ∅)) <$> seq 0 n) : gmap nat (gset nat)) !! num =
  if decide (num < n) then Some ∅ else None.
Proof.
  case_decide as Hlt.
  - apply elem_of_list_to_map_1'.
    + intros y Hy. apply list_elem_of_fmap in Hy as (m & [= <- ->] & _). done.
    + apply list_elem_of_fmap. exists num. split; [done|].
      apply elem_of_seq. lia.
  - apply not_elem_of_list_to_map_1. intros Hin.
    apply list_elem_of_fmap in Hin as ([m s] & -> & Hin).
    apply list_elem_of_fmap in Hin as (m' & [= -> ->] & Hin).
    apply elem_of_seq in Hin. simpl in Hlt. lia.
Qed.

(** Step 2, when it returns: [dep] has one entry per position of
    [block_list], and the entry of a position holds the positions that
    [outmap] gives for the declared inputs of its block. *)
Lemma build_dep_Ok block_list outmap dep (required : gset string) :
  build_dep block_list outmap = Ok (dep, required) ->
  (forall num, is_Some (dep !! num) <-> num < length block_list) /\
  forall num n', n' ∈ default ∅ (dep !! num) <->
    exists b i, block_list !! num = Some b /\ i ∈ declared_inputs b /\
                get outmap i = Some n'.
Proof.
  unfold build_dep. intros Hrun.
  enough ((forall num, is_Some ((dep, required).1 !! num) <-> num < length block_list) /\
          forall num n', n' ∈ default ∅ ((dep, required).1 !! num) <->
            exists b i, (num, b) ∈ enumerate block_list /\ i ∈ declared_inputs b /\
                        get outmap i = Some n') as [Hdom Hedges].
  { split; [done|]. intros num n'. rewrite (Hedges num n').
    by setoid_rewrite elem_of_enumerate. }
  revert Hrun. apply (for_each_prefix_invariant
    (P := fun pre (st : gmap nat (gset nat) * gset string) =>
      (forall num, is_Some (st.1 !! num) <-> num < length block_list) /\
      forall num n', n' ∈ default ∅ (st.1 !! num) <->
        exists b i, (num, b) ∈ pre /\ i ∈ declared_inputs b /\ get outmap i = Some n')).
  - simpl. split.
    + intros num. rewrite lookup_initial_dep. case_decide; [by split; eauto|].
      split; [by intros [? ?]|done].
    + intros num n'. rewrite lookup_initial_dep. split.
      * case_decide; simpl; set_solver.
      * intros (b & i & Hin & _). by apply elem_of_nil in Hin.
  - intros pre [num b] st1 st2 [post Hsplit] [Hdom Hedges] Hbody. simpl in Hbody.
    apply enumerate_split in Hsplit as (_ & _ & Hbelow).
    destruct (inputs_of b) as [ins|] eqn:Hins; simpl in Hbody; [|done].
    assert (forall n', n' ∉ default ∅ (st1.1 !! num)) as Hfresh.
    { intros n' Hn'. apply Hedges in Hn' as (b' & _ & Hin & _).
      apply Hbelow in Hin. lia. }
    enough ((forall m, is_Some (st2.1 !! m) <-> m < length block_list) /\
            (forall m, m ≠ num -> st2.1 !! m = st1.1 !! m) /\
            forall n', n' ∈ default ∅ (st2.1 !! num) <->
              n' ∈ default ∅ (st1.1 !! num) \/
              exists i, i ∈ ins /\ get outmap i = Some n') as (Hdom2 & Hother & Hnum).
    { split; [done|]. intros m n'. destruct (decide (m = num)) as [->|Hm].
      - rewrite Hnum. split.
        + intros [Hn'|(i & Hi & Hget)]; [by apply Hfresh in Hn'|].
          exists b, i. split; [apply elem_of_app; right; by left|].
          split; [|done]. by apply (inputs_of_declared i Hins).
        + intros (b' & i & Hin & Hi & Hget). apply elem_of_app in Hin as [Hin|Hin].
          * apply Hbelow in Hin. lia.
          * apply list_elem_of_singleton in Hin as [= ->]. right. exists i.
            split; [|done]. by apply (inputs_of_declared i Hins).
      - rewrite (Hother m Hm), Hedges. split.
        + intros (b' & i & Hin & Hrest). exists b', i.
          split; [apply elem_of_app; by left | done].
        + intros (b' & i & Hin & Hrest). apply elem_of_app in Hin as [Hin|Hin].
          * by exists b', i.
          * apply list_elem_of_singleton in Hin as [= -> ->]. done. }
    revert Hbody. apply (for_each_prefix_invariant
      (P := fun done (st : gmap nat (gset nat) * gset string) =>
        (forall m, is_Some (st.1 !! m) <-> m < length block_list) /\
        (forall m, m ≠ num -> st.1 !! m = st1.1 !! m) /\
        forall n', n' ∈ default ∅ (st.1 !! num) <->
          n' ∈ default ∅ (st1.1 !! num) \/
          exists i, i ∈ done /\ get outmap i = Some n')).
    + split; [done|]. split; [done|]. intros n'. split; [tauto|].
      intros [?|(i & Hi & _)]; [done|]. by apply elem_of_nil in Hi.
    + intros done' i' st3 st4 _ (Hdom3 & Hother3 & Hnum3) Hstep.
      destruct (contains outmap i') eqn:Hc.
      * destruct (get outmap i') as [producer|] eqn:Hget;
          [|by rewrite (contains_None Hget) in Hc].
        rewrite (getitem_Some Hget) in Hstep. simpl in Hstep.
        destruct (st3.1 !! num) as [deps|] eqn:Hdeps; [|done]. injection Hstep as <-.
        simpl. split; [|split].
        -- intros m. rewrite lookup_insert_is_Some. rewrite Hdom3.
           assert (num < length block_list) by (apply Hdom3; by rewrite Hdeps).
           destruct (decide (num = m)); [subst; tauto | tauto].
        -- intros m Hm. rewrite lookup_insert_ne by done. by apply Hother3.
        -- intros n'. rewrite lookup_insert_eq. simpl.
           rewrite elem_of_union, elem_of_singleton.
           specialize (Hnum3 n'). simpl in Hnum3.
           rewrite Hnum3. split.
           ++ intros [[?|(i & Hi & Hgi)]| ->]; [by left| |].
              ** right. exists i. split; [apply elem_of_app; by left | done].
              ** right. exists i'. split; [apply elem_of_app; right; by left | done].
           ++ intros [?|(i & Hi & Hgi)]; [by left; left|].
              apply elem_of_app in Hi as [Hi|Hi]; [left; right; by exists i|].
              apply list_elem_of_singleton in Hi as ->. right. congruence.
      * injection Hstep as <-. split; [done|]. split; [done|].
        intros n'. rewrite Hnum3. unfold contains in Hc.
        destruct (get outmap i') eqn:Hget; [done|]. split.
        -- intros [?|(i & Hi & Hgi)]; [by left|]. right. exists i.
           split; [apply elem_of_app; by left | done].
        -- intros [?|(i & Hi & Hgi)]; [by left|].
           apply elem_of_app in Hi as [Hi|Hi]; [right; by exists i|].
           apply list_elem_of_singleton in Hi as ->. congruence.
Qed.


(** X12. The graph that steps 1 and 2 of [curlyJ_sorted] hand to
    [topological_sort] has one node per position of [block_list], and node
    [num] depends on node [n'] exactly when some declared input of block
    [num] is a declared output of block [n']; a block that reads its own
    output depends on itself. *)
Theorem curlyJ_sorted_dependencies block_list outmap dep (required : gset string) :
  build_outmap block_list = Ok outmap ->
  build_dep block_list outmap = Ok (dep, required) ->
  (forall num, is_Some (dep !! num) <-> num < length block_list) /\
  forall num n', n' ∈ default ∅ (dep !! num) <->
    exists b b' i, block_list !! num = Some b /\ block_list !! n' = Some b' /\
                   i ∈ declared_inputs b /\ i ∈ declared_outputs b'.
Proof.
  intros Hout Hdep.
  apply build_outmap_Ok in Hout as (_ & _ & _ & Hget).
  apply build_dep_Ok in Hdep as [Hdom Hedges].
  split; [done|]. intros num n'. rewrite Hedges. split.
  - intros (b & i & Hb & Hi & Hprod). apply Hget in Hprod as (b' & Hb' & Ho).
    by exists b, b', i.
  - intros (b & b' & i & Hb & Hb' & Hi & Ho). exists b, i.
    split; [done|]. split; [done|]. apply Hget. by exists b'.
Qed.

End graph_steps.

Section graph_more.
Context {V SteadyState : Type}.
Context (topological_sort : gmap nat (gset nat) -> result (list nat)).
Context (all_Js : SimpleBlock -> SteadyState -> list string -> result (dict (dict V))).
Implicit Types (b : block V) (block_list : list (block V)).

(** What step 4 appends for a block: the dictionary itself, or the
    Jacobians that [all_Js] computes for the inputs among the shocks. *)
Definition block_jacobian (ss : SteadyState) (shocks : gset string) b
    (jac : dict (dict V)) : Prop :=
  match b with
  | BlockSimple sb => all_Js sb ss (filter (fun i => i ∈ shocks) (input_list sb)) = Ok jac
  | BlockDict jacdict => jac = jacdict
  | BlockOther => False
  end.

(** X10. [curlyJ_sorted] raises [ValueError] whenever some element of
    [block_list] is neither a simple block nor a dictionary, or some output
    name is declared twice, by two blocks or twice in the output list of one
    simple block; neither collaborator is reached. *)
Theorem curlyJ_sorted_rejects block_list (inputs : list string) (ss : SteadyState) :
  ~ (Forall recognized block_list /\ NoDup (block_list ≫= declared_outputs)) ->
  exists msg,
    curlyJ_sorted topological_sort all_Js block_list inputs ss = Raise (ValueError msg).
Proof.
  intros Hbad. unfold curlyJ_sorted.
  destruct (build_outmap block_list) as [outmap|e] eqn:Hout.
  - exfalso. apply Hbad. apply build_outmap_Ok in Hout as (_ & Hnodup & Hrec & _). done.
  - apply build_outmap_Raise in Hout as [msg ->]. by exists msg.
Qed.


(** What a successful call of [curlyJ_sorted] went through. *)
Lemma curlyJ_sorted_inv block_list (inputs : list string) (ss : SteadyState)
    (curlyJs : list (dict (dict V))) (required : gset string) :
  curlyJ_sorted topological_sort all_Js block_list inputs ss = Ok (curlyJs, required) ->
  exists outmap dep topsorted,
    build_outmap block_list = Ok outmap /\
    build_dep block_list outmap = Ok (dep, required) /\
    topological_sort dep = Ok topsorted /\
    Forall2 (fun num jac =>
               exists b, block_list !! num = Some b /\
                         block_jacobian ss (list_to_set inputs ∪ required) b jac)
            topsorted curlyJs.
Proof.
  unfold curlyJ_sorted. intros Hrun.
  destruct (build_outmap block_list) as [outmap|] eqn:Hout; simpl in Hrun; [|done].
  destruct (build_dep block_list outmap) as [[dep req]|] eqn:Hdep; simpl in Hrun; [|done].
  destruct (topological_sort dep) as [topsorted|] eqn:Htop; simpl in Hrun; [|done].
  destruct (for_each topsorted _ _) as [cJs|] eqn:Hloop; simpl in Hrun; [|done].
  injection Hrun as -> ->.
  exists outmap, dep, topsorted. split; [done|]. split; [done|]. split; [done|].
  revert Hloop. apply (for_each_prefix_invariant
    (P := fun pre acc =>
      Forall2 (fun num jac =>
                 exists b, block_list !! num = Some b /\
                           block_jacobian ss (list_to_set inputs ∪ required) b jac)
              pre acc)).
  - constructor.
  - intros pre num acc acc' _ Hacc Hbody.
    unfold list_getitem in Hbody.
    destruct (block_list !! num) as [b|] eqn:Hb; simpl in Hbody; [|done].
    assert (exists jac, acc' = acc ++ [jac] /\
              block_jacobian ss (list_to_set inputs ∪ required) b jac)
      as (jac & -> & Hjac).
    { destruct b as [sb|jacdict|]; simpl in Hbody; [| |done].
      - destruct (all_Js sb ss _) as [jac|] eqn:Hjac; simpl in Hbody; [|done].
        injection Hbody as <-. by exists jac.
      - injection Hbody as <-. by exists jacdict. }
    apply Forall2_app; [done|]. constructor; [by exists b | constructor].
Qed.

(** X13. The list that [curlyJ_sorted] returns follows the order that
    [topological_sort] gave for the dependency graph: its k-th element
    belongs to the block at the k-th sorted position, and is that block
    itself for a dictionary, or the result of [all_Js] with the shock list
    restricted to [inputs] and [required], in the order of the block's
    input list, for a simple block. *)
Theorem curlyJ_sorted_order block_list (inputs : list string) (ss : SteadyState)
    (curlyJs : list (dict (dict V))) (required : gset string) :
  curlyJ_sorted topological_sort all_Js block_list inputs ss = Ok (curlyJs, required) ->
  exists outmap dep topsorted,
    build_outmap block_list = Ok outmap /\
    build_dep block_list outmap = Ok (dep, required) /\
    topological_sort dep = Ok topsorted /\
    Forall2 (fun num jac =>
               exists b, block_list !! num = Some b /\
                         block_jacobian ss (list_to_set inputs ∪ required) b jac)
            topsorted curlyJs.
Proof. apply curlyJ_sorted_inv. Qed.

End graph_more.

(** ** More on forward accumulation: pruning *)

Lemma select_ext {A : Type} (a b : dict A) (outputs : list string) :
  (forall k, k ∈ outputs -> get a k = get b k) ->
  select a outputs = select b outputs.
Proof.
  unfold select. generalize ([] : dict A) as res.
  induction outputs as [|o outputs IH]; intros res Hagree; cbn [for_each]; [done|].
  unfold contains, getitem. rewrite (Hagree o) by left.
  destruct (get b o) as [v|]; cbn [mbind result_bind];
    apply IH; intros k Hk; apply Hagree; by right.
Qed.

Section pruning.
Context {V : Type} `{!Operators V}.
Implicit Types (curlyJ : dict (dict V)) (curlyJs : list (dict (dict V))).

(** The initial accumulator and the loop body of [forward_accumulate]. *)
Definition initial_out (inputs : inputs_arg V) : accumulator V :=
  match inputs with
  | Names names => JacOut (comprehension names (fun i => (i, [(i, IdentityMatrix)])))
  | Sequences indict => SeqOut indict
  end.

Definition out_step (alloutputs : option (gset string)) (out : accumulator V)
    curlyJ : result (accumulator V) :=
  let curlyJ := prune alloutputs curlyJ in
  match out with
  | JacOut out => new ← compose_jacobians out curlyJ; Ok (JacOut (update out new))
  | SeqOut out => new ← apply_jacobians curlyJ out; Ok (SeqOut (update out new))
  end.

Lemma accumulate_eq curlyJs inputs outputs required :
  accumulate curlyJs inputs outputs required =
  for_each curlyJs (initial_out inputs) (out_step (alloutputs_of outputs required)).
Proof. by destruct inputs. Qed.

(** A composed row reads the accumulator only at its middle variables. *)
Lemma compose_row_ext (a b : dict (dict V)) (innerjac1 : dict V) :
  (forall m, m ∈ keys innerjac1 -> get a m = get b m) ->
  compose_row a innerjac1 = compose_row b innerjac1.
Proof.
  intros Hagree. unfold compose_row.
  enough (forall row,
    foldl (fun row mj =>
      foldl (fun row ij => add_term row ij.1 (matmul mj.2 ij.2))
            row (get_default a mj.1 [])) row innerjac1 =
    foldl (fun row mj =>
      foldl (fun row ij => add_term row ij.1 (matmul mj.2 ij.2))
            row (get_default b mj.1 [])) row innerjac1) as Hgen by apply Hgen.
  induction innerjac1 as [|[m j] l IH]; intros row; simpl; [done|].
  assert (get_default a m [] = get_default b m []) as ->.
  { unfold get_default. rewrite (Hagree m); [done|]. apply elem_of_keys_cons. by left. }
  apply IH. intros m' Hm'. apply Hagree. apply elem_of_keys_cons. by right.
Qed.

Lemma apply_terms_ext (a b innerjacdict : dict V) :
  (forall m, m ∈ keys innerjacdict -> get a m = get b m) ->
  apply_terms a innerjacdict = apply_terms b innerjacdict.
Proof.
  unfold apply_terms.
  induction innerjacdict as [|[m j] l IH]; intros Hagree; [done|].
  rewrite !omap_cons_eq. simpl.
  rewrite (Hagree m) by (apply elem_of_keys_cons; by left).
  rewrite IH; [done|]. intros m' Hm'. apply Hagree. apply elem_of_keys_cons. by right.
Qed.

(** A name that pruning cannot disturb: it is retained, or no dictionary of
    the list has it as an output. *)
Definition settled (all : gset string) curlyJs (k : string) : Prop :=
  k ∈ all \/ forall curlyJ, curlyJ ∈ curlyJs -> k ∉ keys curlyJ.

(** Every middle variable of a retained row that the list produces is
    retained as well. *)
Definition closed_under_inputs (all : gset string) curlyJs : Prop :=
  forall curlyJ o row m,
    curlyJ ∈ curlyJs -> o ∈ all -> get curlyJ o = Some row -> m ∈ keys row ->
    (exists curlyJ', curlyJ' ∈ curlyJs /\ m ∈ keys curlyJ') -> m ∈ all.

Definition out_agree (all : gset string) curlyJs (a b : accumulator V) : Prop :=
  match a, b with
  | JacOut x, JacOut y => forall k, settled all curlyJs k -> get x k = get y k
  | SeqOut x, SeqOut y => forall k, settled all curlyJs k -> get x k = get y k
  | _, _ => False
  end.

Lemma closed_settled all curlyJs curlyJ o row m :
  closed_under_inputs all curlyJs ->
  curlyJ ∈ curlyJs -> o ∈ all -> get curlyJ o = Some row -> m ∈ keys row ->
  settled all curlyJs m.
Proof.
  intros Hclosed HJ Ho Hrow Hm. destruct (decide (m ∈ all)) as [|Hnot]; [by left|].
  right. intros curlyJ' HJ' Hin. apply Hnot.
  eapply Hclosed; [exact HJ | exact Ho | exact Hrow | exact Hm |]. by exists curlyJ'.
Qed.

Lemma get_pruned all curlyJs curlyJ k :
  curlyJ ∈ curlyJs -> settled all curlyJs k ->
  get (filter_keys (fun k => bool_decide (k ∈ all)) curlyJ) k = get curlyJ k.
Proof.
  intros HJ Hk. rewrite get_filter_keys. case_bool_decide as Hin; [done|].
  destruct Hk as [|Hk]; [done|]. symmetry. apply get_None. by apply Hk.
Qed.

Lemma wf_compose_fold (a l : dict (dict V)) :
  wf (foldl (fun jacdict oj => setitem jacdict oj.1 (compose_row a oj.2)) [] l).
Proof. destruct (wf_compose_jacobians (compose_jacobians_Ok a l)) as [Hnew _]. exact Hnew. Qed.

Lemma wf_apply_fold (l : dict (dict V)) (indict : dict V) :
  wf (foldl (fun outdict oj =>
        foldl (fun outdict x => add_term outdict oj.1 x) outdict
              (apply_terms indict oj.2))
        [] l).
Proof. exact (wf_apply_jacobians (apply_jacobians_Ok l indict)). Qed.

Lemma out_step_agree all curlyJs curlyJ (a b : accumulator V) :
  closed_under_inputs all curlyJs -> curlyJ ∈ curlyJs -> wf curlyJ ->
  out_agree all curlyJs a b ->
  exists a' b',
    out_step (Some all) a curlyJ = Ok a' /\ out_step None b curlyJ = Ok b' /\
    out_agree all curlyJs a' b'.
Proof.
  intros Hclosed HJ Hwf Hagree. unfold out_step.
  assert (wf (prune (Some all) curlyJ)) as Hwfp by by apply wf_filter_keys.
  assert (forall k row, settled all curlyJs k -> get curlyJ k = Some row ->
            forall m, m ∈ keys row -> settled all curlyJs m) as Hmid.
  { intros k row [Hk|Hk] Hrow m Hm.
    - by eapply closed_settled.
    - exfalso. apply (Hk curlyJ HJ). by eapply get_Some_keys. }
  destruct a as [x|x], b as [y|y]; simpl in Hagree; try done.
  - rewrite !compose_jacobians_Ok. simpl. eexists _, _. split; [done|]. split; [done|].
    simpl. intros k Hk.
    rewrite !get_update_wf by apply wf_compose_fold.
    rewrite !get_fold_setitem by done. rewrite (get_pruned HJ Hk).
    destruct (get curlyJ k) as [row|] eqn:Hrow; simpl; [|by apply Hagree].
    f_equal. apply compose_row_ext. intros m Hm. apply Hagree. by eapply Hmid.
  - rewrite !apply_jacobians_Ok. simpl. eexists _, _. split; [done|]. split; [done|].
    simpl. intros k Hk.
    rewrite !get_update_wf by apply wf_apply_fold.
    rewrite !get_apply_from by done. rewrite (get_pruned HJ Hk).
    destruct (get curlyJ k) as [row|] eqn:Hrow; simpl; [|by apply Hagree].
    rewrite (apply_terms_ext (a := x) (b := y)).
    + destruct (sum_of (apply_terms y row)); [done | by apply Hagree].
    + intros m Hm. apply Hagree. by eapply Hmid.
Qed.

(** Under the closure condition the pruned and the full loop agree on every
    retained name. *)
Lemma forward_accumulate_closed (curlyJs : list (dict (dict V)))
    (inputs : inputs_arg V) (outputs required : list string) :
  Forall wf curlyJs ->
  closed_under_inputs (list_to_set outputs ∪ list_to_set required) curlyJs ->
  forward_accumulate curlyJs inputs (Some outputs) (Some required) =
  forward_accumulate curlyJs inputs (Some outputs) None.
Proof.
  intros Hwf Hclosed. unfold forward_accumulate. rewrite !accumulate_eq. simpl.
  set (all := list_to_set outputs ∪ list_to_set required : gset string) in *.
  assert (forall l a b, (forall curlyJ, curlyJ ∈ l -> curlyJ ∈ curlyJs) ->
            out_agree all curlyJs a b ->
            exists a' b', for_each l a (out_step (Some all)) = Ok a' /\
                          for_each l b (out_step None) = Ok b' /\
                          out_agree all curlyJs a' b') as Hloop.
  { induction l as [|curlyJ l IH]; intros a b Hincl Hagree; cbn [for_each].
    - by exists a, b.
    - assert (curlyJ ∈ curlyJs) as HJ by (apply Hincl; left).
      assert (wf curlyJ) as HwfJ by (rewrite Forall_forall in Hwf; by apply Hwf).
      destruct (out_step_agree Hclosed HJ HwfJ Hagree) as (a' & b' & -> & -> & Hagree').
      cbn [mbind result_bind]. apply IH; [|done].
      intros J HJ'. apply Hincl. by right. }
  destruct (Hloop curlyJs (initial_out inputs) (initial_out inputs))
    as (a' & b' & -> & -> & Hagree); [done| |].
  { by destruct inputs. }
  cbn [mbind result_bind].
  assert (forall k, k ∈ outputs -> settled all curlyJs k) as Hout.
  { intros k Hk. left. unfold all. set_solver. }
  destruct a' as [x|x], b' as [y|y]; simpl in Hagree; try done.
  - rewrite (select_ext (a := x) (b := y)); [done|]. intros k Hk. by apply Hagree, Hout.
  - rewrite (select_ext (a := x) (b := y)); [done|]. intros k Hk. by apply Hagree, Hout.
Qed.

(** X14. Pruning does not change the answer.  When every dictionary of the
    list is a dictionary and every middle variable of a row kept by
    [outputs] and [required] that the list produces is itself among
    [outputs] and [required], [forward_accumulate] with [required] returns
    exactly what it returns without it, in derivative mode and in evaluation
    mode. *)
Theorem forward_accumulate_pruning (curlyJs : list (dict (dict V)))
    (inputs : inputs_arg V) (outputs required : list string) :
  Forall wf curlyJs ->
  closed_under_inputs (list_to_set outputs ∪ list_to_set required) curlyJs ->
  forward_accumulate curlyJs inputs (Some outputs) (Some required) =
  forward_accumulate curlyJs inputs (Some outputs) None.
Proof. apply forward_accumulate_closed. Qed.

End pruning.

(** ** Sorting, then accumulating *)

Section sorted_accumulate.
Context {V SteadyState : Type} `{!Operators V}.
Context (topological_sort : gmap nat (gset nat) -> result (list nat)).
Context (all_Js : SimpleBlock -> SteadyState -> list string -> result (dict (dict V))).
Implicit Types (b : block V) (block_list : list (block V)).





End sorted_accumulate.

(** ** More on the algebra of Jacobian dictionaries *)

Section algebra_more.
Context {V : Type} `{!Operators V}.
Implicit Types (row innerjac indict : dict V).
Implicit Types (jacdict : dict (dict V)).

Lemma chain_steps_keys (later : list (dict (dict V))) acc1 acc2 :
  for_each later acc1 chain_step = Ok acc2 ->
  forall k, k ∈ keys acc2 <->
    k ∈ keys acc1 \/ exists jacdict, jacdict ∈ later /\ k ∈ keys jacdict.
Proof.
  revert acc1. induction later as [|jacdict later IH]; intros acc1; simpl.
  - intros [= <-] k. split; [by left|]. intros [?|(jd & Hjd & _)]; [done|].
    by apply elem_of_nil in Hjd.
  - destruct (chain_step_merges acc1 jacdict) as (new & _ & -> & Hkeys & _ & _).
    simpl. intros Hrun k. rewrite (IH _ Hrun k), elem_of_keys_update, Hkeys. split.
    + intros [[?|?]|(jd & Hjd & Hk)]; [by left | right | right].
      * exists jacdict. split; [left | done].
      * exists jd. split; [by right | done].
    + intros [?|(jd & Hjd & Hk)]; [by left; left|].
      apply elem_of_cons in Hjd as [->|Hjd]; [left; by right|].
      right. by exists jd.
Qed.

Lemma keys_identity_jacdict (inputs : list string) k :
  k ∈ keys (identity_jacdict (V := V) inputs) <-> k ∈ inputs.
Proof.
  rewrite elem_of_keys_get, get_identity_jacdict. by case_bool_decide.
Qed.

(** X16. In derivative mode, with neither [outputs] nor [required],
    [forward_accumulate] returns a row for exactly the names that some
    dictionary of the list has as an output and that are not input names:
    an output that bears the name of an input is left out of the result. *)
Theorem forward_accumulate_names_keys (curlyJs : list (dict (dict V)))
    (inputs : list string) :
  exists res,
    forward_accumulate curlyJs (Names inputs) None None = Ok (JacOut res) /\
    forall k, k ∈ keys res <->
      (k ∉ inputs) /\ exists curlyJ, curlyJ ∈ curlyJs /\ k ∈ keys curlyJ.
Proof.
  destruct (chain_steps_total curlyJs (identity_jacdict inputs)) as (acc & Hacc & _).
  eexists. split.
  - unfold forward_accumulate. rewrite (accumulate_chain _ _ 0).
    rewrite chain_jacobians_eq, Hacc. done.
  - intros k. rewrite elem_of_keys_filter_keys, (chain_steps_keys Hacc k).
    rewrite keys_identity_jacdict, bool_decide_eq_true. tauto.
Qed.

(** What one entry of a row contributes against the identity accumulator. *)
Lemma contributions_identity (inputs : list string) innerjac1 inp :
  (forall v : V, matmul v IdentityMatrix = v) ->
  wf innerjac1 ->
  contributions (identity_jacdict inputs) innerjac1 inp =
  match (if bool_decide (inp ∈ inputs) then get innerjac1 inp else None) with
  | Some jac => [jac]
  | None => []
  end.
Proof.
  intros Hid. unfold contributions, wf.
  induction innerjac1 as [|[m j] l IH]; intros Hnd.
  - by case_bool_decide.
  - rewrite keys_cons in Hnd. apply NoDup_cons in Hnd as [Hm Hnd].
    rewrite omap_cons_eq. cbn [fst snd get]. rewrite get_identity_jacdict.
    rewrite (IH Hnd). clear IH.
    destruct (decide (inp = m)) as [->|Hne].
    + assert (get l m = None) as -> by by apply get_None.
      destruct (bool_decide (m ∈ inputs)); simpl; [|done].
      rewrite decide_True by done. simpl. by rewrite Hid.
    + destruct (bool_decide (m ∈ inputs)); simpl; [|done].
      by rewrite decide_False by done.
Qed.

Lemma wf_rows_identity_jacdict (inputs : list string) :
  wf_rows (identity_jacdict (V := V) inputs).
Proof.
  intros k row. rewrite get_identity_jacdict. case_bool_decide; [|done].
  intros [= <-]. unfold wf, keys. simpl. apply NoDup_singleton.
Qed.

(** X17. Composing against the initial accumulator hands a block's own
    Jacobians through.  When [v @ IdentityMatrix()] is [v], the row that
    [compose_jacobians] builds for an output of the block, against the
    accumulator [{i: {i: IdentityMatrix()}}] of the input names, holds the
    block's Jacobian for every inner key that is an input name and nothing
    for any other inner key. *)
Theorem compose_jacobians_identity (inputs : list string) jacdict :
  (forall v : V, matmul v IdentityMatrix = v) ->
  wf_jacdict jacdict ->
  exists new,
    compose_jacobians (identity_jacdict inputs) jacdict = Ok new /\
    keys new = keys jacdict /\
    forall output innerjac1, get jacdict output = Some innerjac1 ->
      exists row,
        get new output = Some row /\
        forall inp, get row inp =
          if bool_decide (inp ∈ inputs) then get innerjac1 inp else None.
Proof.
  intros Hid [Hwf Hrows]. eexists. split; [apply compose_jacobians_Ok|]. split.
  - rewrite keys_fold_setitem; [done | done |].
    intros k _. apply not_elem_of_nil.
  - intros output innerjac1 Hget. eexists. split.
    + rewrite get_fold_setitem by done. by rewrite Hget.
    + intros inp. rewrite get_compose_row by apply wf_rows_identity_jacdict.
      rewrite contributions_identity by eauto.
      case_bool_decide; [|done]. by destruct (get innerjac1 inp).
Qed.

End algebra_more.

(** ** The chain rule on values

    Derivative mode composes Jacobians and evaluation mode applies them to
    sequences.  On operators whose [@] and [+=] obey the laws of matrix
    algebra the two agree. *)

Class LinearOperators (V : Type) `{!Operators V} : Prop := {
  iadd_assoc : forall a b c : V, iadd (iadd a b) c = iadd a (iadd b c);
  iadd_comm : forall a b : V, iadd a b = iadd b a;
  matmul_assoc : forall a b c : V, matmul (matmul a b) c = matmul a (matmul b c);
  matmul_iadd_l : forall a b c : V, matmul a (iadd b c) = iadd (matmul a b) (matmul a c);
  matmul_iadd_r : forall a b c : V, matmul (iadd a b) c = iadd (matmul a c) (matmul b c);
  matmul_identity_l : forall v : V, matmul IdentityMatrix v = v;
}.

Arguments LinearOperators V {_}.

#[global] Instance scalar_linear : LinearOperators Z.
Proof. split; intros; simpl; lia. Qed.

Section linearity.
Context {V : Type} `{!Operators V} `{!LinearOperators V}.
Implicit Types (row innerjac indict : dict V).
Implicit Types (jacdict : dict (dict V)).

(** The sum of two optional terms. *)
Definition oplus (a b : option V) : option V :=
  match a, b with
  | Some a, Some b => Some (iadd a b)
  | Some a, None => Some a
  | None, b => b
  end.

Lemma oplus_None_r a : oplus a None = a.
Proof. by destruct a. Qed.

Lemma oplus_assoc a b c : oplus (oplus a b) c = oplus a (oplus b c).
Proof. destruct a, b, c; simpl; by rewrite ?iadd_assoc. Qed.

Lemma oplus_comm a b : oplus a b = oplus b a.
Proof. destruct a, b; simpl; by rewrite 1?iadd_comm. Qed.

Lemma foldl_iadd_assoc (a y : V) l :
  foldl iadd (iadd a y) l = iadd a (foldl iadd y l).
Proof.
  revert y. induction l as [|z l IH]; intros y; simpl; [done|].
  by rewrite iadd_assoc, IH.
Qed.

Lemma sum_of_app (l1 l2 : list V) :
  sum_of (l1 ++ l2) = oplus (sum_of l1) (sum_of l2).
Proof.
  destruct l1 as [|x l1]; simpl; [done|].
  destruct l2 as [|y l2]; simpl; [by rewrite app_nil_r|].
  rewrite foldl_app. simpl. by rewrite foldl_iadd_assoc.
Qed.

Lemma sum_of_omap_cons {A : Type} (f : A -> option V) (p : A) (l : list A) :
  sum_of (omap f (p :: l)) = oplus (f p) (sum_of (omap f l)).
Proof.
  rewrite omap_cons_eq. destruct (f p) as [y|]; [|done].
  exact (sum_of_app [y] (omap f l)).
Qed.

Lemma sum_of_omap_app {A : Type} (f : A -> option V) (l1 l2 : list A) :
  sum_of (omap f (l1 ++ l2)) = oplus (sum_of (omap f l1)) (sum_of (omap f l2)).
Proof. by rewrite omap_app, sum_of_app. Qed.

Lemma matmul_sum_of (a : V) (l : list V) :
  sum_of (matmul a <$> l) = matmul a <$> sum_of l.
Proof.
  destruct l as [|x l]; [done|]. rewrite fmap_cons. simpl. f_equal.
  revert x. induction l as [|y l IH]; intros x; [done|].
  rewrite fmap_cons. simpl. by rewrite <- matmul_iadd_l, IH.
Qed.

(** One term [jac @ indict[k]] of [apply_jacobians]. *)
Definition apply_term indict (p : string * V) : option V :=
  x ← get indict p.1; Some (matmul p.2 x).

Lemma apply_terms_eq indict innerjac :
  apply_terms indict innerjac = omap (apply_term indict) innerjac.
Proof. done. Qed.

Lemma apply_term_iadd indict k (a b : V) :
  apply_term indict (k, iadd a b) =
  oplus (apply_term indict (k, a)) (apply_term indict (k, b)).
Proof.
  unfold apply_term. simpl. destruct (get indict k) as [x|]; simpl; [|done].
  by rewrite matmul_iadd_r.
Qed.

Lemma setitem_absent {A : Type} (d : dict A) k (v : A) :
  get d k = None -> setitem d k v = d ++ [(k, v)].
Proof.
  induction d as [|[k' v'] d IH]; simpl; [done|].
  case_decide; [done|]. intros Hnone. by rewrite IH.
Qed.

Lemma sum_apply_setitem_iadd indict row k (old v : V) :
  get row k = Some old ->
  sum_of (apply_terms indict (setitem row k (iadd old v))) =
  oplus (sum_of (apply_terms indict row)) (apply_term indict (k, v)).
Proof.
  rewrite !apply_terms_eq.
  induction row as [|[k' v'] row IH]; cbn [get setitem]; [done|].
  case_decide as Hk.
  - intros [= ->]. subst k'. rewrite !sum_of_omap_cons, apply_term_iadd.
    rewrite !oplus_assoc. f_equal. apply oplus_comm.
  - intros Hold. rewrite !sum_of_omap_cons, (IH Hold). by rewrite oplus_assoc.
Qed.

(** Applying a row after one more [+=] adds that term's application. *)
Lemma sum_apply_add_term indict row k (v : V) :
  sum_of (apply_terms indict (add_term row k v)) =
  oplus (sum_of (apply_terms indict row)) (apply_term indict (k, v)).
Proof.
  unfold add_term. destruct (get row k) as [old|] eqn:Hget.
  - by apply sum_apply_setitem_iadd.
  - rewrite (setitem_absent _ Hget), !apply_terms_eq, sum_of_omap_app.
    f_equal. rewrite sum_of_omap_cons. simpl. apply oplus_None_r.
Qed.

Lemma sum_apply_add_terms indict row (ps : list (string * V)) :
  sum_of (apply_terms indict (foldl (fun row p => add_term row p.1 p.2) row ps)) =
  oplus (sum_of (apply_terms indict row)) (sum_of (apply_terms indict ps)).
Proof.
  revert row. induction ps as [|[k v] ps IH]; intros row; cbn [foldl fst snd].
  - simpl. by rewrite oplus_None_r.
  - rewrite IH, sum_apply_add_term. rewrite (apply_terms_eq indict ((k, v) :: ps)).
    rewrite sum_of_omap_cons. by rewrite oplus_assoc.
Qed.

Lemma apply_terms_scaled indict (jac1 : V) innerjac2 :
  apply_terms indict (prod_map id (matmul jac1) <$> innerjac2) =
  matmul jac1 <$> apply_terms indict innerjac2.
Proof.
  unfold apply_terms. induction innerjac2 as [|[i jac2] l IH]; [done|].
  rewrite fmap_cons, !omap_cons_eq. simpl.
  destruct (get indict i) as [x|]; simpl; [|exact IH].
  rewrite matmul_assoc. f_equal. exact IH.
Qed.

(** The chain rule for one row: applying the composed row to the inputs is
    applying the row to the values that the accumulated Jacobians give. *)
Lemma chain_rule_row (indict middle : dict V) jacdict2 innerjac1 :
  (forall m, get middle m =
             get jacdict2 m ≫= fun row => sum_of (apply_terms indict row)) ->
  sum_of (apply_terms indict (compose_row jacdict2 innerjac1)) =
  sum_of (apply_terms middle innerjac1).
Proof.
  intros Hmiddle. unfold compose_row.
  enough (forall row,
    sum_of (apply_terms indict
      (foldl (fun row mj =>
         foldl (fun row ij => add_term row ij.1 (matmul mj.2 ij.2))
               row (get_default jacdict2 mj.1 [])) row innerjac1)) =
    oplus (sum_of (apply_terms indict row)) (sum_of (apply_terms middle innerjac1)))
    as Hgen by apply (Hgen []).
  induction innerjac1 as [|[m jac1] l IH]; intros row; cbn [foldl fst snd].
  - simpl. by rewrite oplus_None_r.
  - rewrite IH. clear IH.
    assert (forall innerjac2,
      foldl (fun row ij => add_term row ij.1 (matmul jac1 ij.2)) row innerjac2 =
      foldl (fun row p => add_term row p.1 p.2) row
            (prod_map id (matmul jac1) <$> innerjac2)) as ->.
    { intros innerjac2. revert row.
      induction innerjac2 as [|[i0 x0] l' IH]; intros row; simpl; [done|]. apply IH. }
    rewrite sum_apply_add_terms, apply_terms_scaled, matmul_sum_of.
    rewrite (apply_terms_eq middle ((m, jac1) :: l)), sum_of_omap_cons.
    rewrite oplus_assoc. f_equal. f_equal.
    unfold apply_term, get_default. simpl. rewrite Hmiddle.
    destruct (get jacdict2 m) as [innerjac2|]; simpl; [|done].
    by destruct (sum_of (apply_terms indict innerjac2)).
Qed.

End linearity.

Section modes.
Context {V : Type} `{!Operators V} `{!LinearOperators V}.
Implicit Types (row innerjac indict : dict V).
Implicit Types (jacdict : dict (dict V)).

(** The value that a dictionary of rows gives to a name: its row applied to
    the inputs. *)
Definition applied indict (rows : dict (dict V)) (k : string) : option V :=
  get rows k ≫= fun row => sum_of (apply_terms indict row).

Lemma get_apply_jacobians jacdict indict outdict :
  wf jacdict ->
  apply_jacobians jacdict indict = Ok outdict ->
  forall k, get outdict k = applied indict jacdict k.
Proof.
  intros Hwf. rewrite apply_jacobians_Ok. intros [= <-] k.
  rewrite get_apply_from by done. unfold applied.
  by destruct (get jacdict k).
Qed.

Lemma get_compose_jacobians jacdict2 jacdict1 composed :
  wf jacdict1 ->
  compose_jacobians jacdict2 jacdict1 = Ok composed ->
  forall k, get composed k = compose_row jacdict2 <$> get jacdict1 k.
Proof.
  intros Hwf. rewrite compose_jacobians_Ok. intros [= <-] k.
  rewrite get_fold_setitem by done. by destruct (get jacdict1 k).
Qed.

(** X18. The chain rule on values.  On operators that obey the laws of
    matrix algebra, applying the composition of an accumulated Jacobian
    dictionary J2 with a block's J1 to a dictionary of inputs binds every
    name to the same value as applying J1 to what J2 gives on those inputs,
    and leaves the same names unbound. *)
Theorem apply_jacobians_compose (jacdict2 jacdict1 : dict (dict V)) (indict : dict V) :
  wf jacdict1 -> wf jacdict2 ->
  exists composed middle direct stepwise,
    compose_jacobians jacdict2 jacdict1 = Ok composed /\
    apply_jacobians jacdict2 indict = Ok middle /\
    apply_jacobians composed indict = Ok direct /\
    apply_jacobians jacdict1 middle = Ok stepwise /\
    forall k, get direct k = get stepwise k.
Proof.
  intros Hwf1 Hwf2.
  destruct (compose_jacobians jacdict2 jacdict1) as [composed|] eqn:Hcomposed;
    [|by rewrite compose_jacobians_Ok in Hcomposed].
  destruct (apply_jacobians jacdict2 indict) as [middle|] eqn:Hmiddle;
    [|by rewrite apply_jacobians_Ok in Hmiddle].
  destruct (apply_jacobians composed indict) as [direct|] eqn:Hdirect;
    [|by rewrite apply_jacobians_Ok in Hdirect].
  destruct (apply_jacobians jacdict1 middle) as [stepwise|] eqn:Hstepwise;
    [|by rewrite apply_jacobians_Ok in Hstepwise].
  exists composed, middle, direct, stepwise. repeat (split; [done|]).
  intros k.
  assert (wf composed) as Hwfc by by destruct (wf_compose_jacobians Hcomposed).
  rewrite (get_apply_jacobians Hwfc Hdirect), (get_apply_jacobians Hwf1 Hstepwise).
  unfold applied. rewrite (get_compose_jacobians Hwf1 Hcomposed).
  destruct (get jacdict1 k) as [innerjac1|]; simpl; [|done].
  apply chain_rule_row. intros m. apply (get_apply_jacobians Hwf2 Hmiddle).
Qed.







End modes.

(** ** Evaluation mode on shared arrays *)

Section store_values.
Context {V : Type} `{!Operators V} (in_place : V -> bool).

(** X20. In-place [+=] does not change what evaluation mode computes.  On a
    store whose references are all allocated, [forward_accumulate] over
    shared arrays returns a fresh dictionary whose arrays hold exactly the
    values that the value-level [forward_accumulate] returns on the values
    behind the arguments, whichever operands are added in place. *)
Theorem forward_accumulate_obj_values (st : store V) (curlyJs : list (dict (dict ref)))
    (inputs : ref) (outputs required : option (list string)) (ind : dict ref) :
  dicts st !! inputs = Some ind ->
  refs_between 0 (length (objects st)) ind ->
  Forall (jacdict_below (length (objects st))) curlyJs ->
  exists res st' resd,
    forward_accumulate_obj in_place st curlyJs inputs outputs required
      = Ok (res, st') /\
    dicts st' !! res = Some resd /\
    forward_accumulate (deref_jacdict st <$> curlyJs)
      (Sequences (deref_dict st ind)) outputs required
      = Ok (SeqOut (deref_dict st' resd)).
Proof. apply forward_accumulate_obj_refines. Qed.

End store_values.

(** ** Examples for the packing of sequences and vectors *)

Definition sequences_x : dict (vector Z) :=
  [("x", mk_vector 2 (fun j => Z.of_nat j))].

Lemma sequences_x_lengths : lengths_are sequences_x ["x"; "u"] 2.
Proof.
  intros name v _ Hget. unfold sequences_x in Hget. simpl in Hget.
  case_decide; [|done]. by injection Hget as <-.
Qed.

Lemma NoDup_x_u : NoDup ["x"; "u"].
Proof. apply (bool_decide_unpack _). vm_compute. exact I. Qed.

Lemma unpack_pack_sequences_witness :
  exists dX sequences',
    pack_sequences sequences_x ["x"; "u"] 2 = Ok dX /\
    unpack_sequences dX ["x"; "u"] = Ok sequences' /\
    (forall name, name ∈ keys sequences' <-> name ∈ ["x"; "u"]) /\
    forall name, name ∈ ["x"; "u"] ->
      exists v,
        get sequences' name = Some v /\
        vector_eq v (packed_or_zeros sequences_x name 2).
Proof.
  exact (unpack_pack_sequences sequences_x_lengths).
Defined.

Lemma pack_unpack_sequences_witness :
  exists sequences dX',
    unpack_sequences (of_rows [[1; 2]; [3; 4]]%Z) ["x"; "u"] = Ok sequences /\
    pack_sequences sequences ["x"; "u"] 2 = Ok dX' /\
    array_eq dX' (of_rows [[1; 2]; [3; 4]]%Z).
Proof.
  exact (pack_unpack_sequences (dX := of_rows [[1; 2]; [3; 4]]%Z) NoDup_x_u
           eq_refl eq_refl).
Defined.

Lemma unpack_pack_vectors_witness :
  exists v vs',
    pack_vectors sequences_x ["x"; "u"] 2 = Ok v /\
    unpack_vectors v ["x"; "u"] 2 = Ok vs' /\
    (forall name, name ∈ keys vs' <-> name ∈ ["x"; "u"]) /\
    forall name, name ∈ ["x"; "u"] ->
      exists w,
        get vs' name = Some w /\
        vector_eq w (packed_or_zeros sequences_x name 2).
Proof.
  exact (unpack_pack_vectors sequences_x_lengths).
Defined.

Definition vector_0123 : vector Z := mk_vector 4 (fun j => Z.of_nat j).

Lemma pack_unpack_vectors_witness :
  exists vs v',
    unpack_vectors vector_0123 ["x"; "u"] 2 = Ok vs /\
    pack_vectors vs ["x"; "u"] 2 = Ok v' /\
    vector_eq v' vector_0123.
Proof.
  exact (pack_unpack_vectors (v := vector_0123) (T := 2) NoDup_x_u eq_refl).
Defined.

Example unpack_vectors_short :
  (fun vs : list (string * vector Z) => prod_map id to_list <$> vs)
  <$> unpack_vectors (mk_vector 3 (fun j => Z.of_nat j)) ["x"; "u"] 2 =
  Ok [("x", [0; 1]); ("u", [2])]%Z.
Proof. reflexivity. Qed.

Lemma pack_unpack_jacobians_witness :
  exists jacdict outjac,
    unpack_jacobians (SimpleSparse := Empty_set)
      (of_rows [[1; 2; 5; 6]; [3; 4; 7; 8]]%Z) ["x"; "u"] ["y"] 2 = Ok jacdict /\
    pack_jacobians garbage jacdict ["x"; "u"] ["y"] 2 = Ok outjac /\
    array_eq outjac (of_rows [[1; 2; 5; 6]; [3; 4; 7; 8]]%Z).
Proof.
  refine (pack_unpack_jacobians no_sparse_matrix garbage
            (bigjac := of_rows [[1; 2; 5; 6]; [3; 4; 7; 8]]%Z)
            (inputs := ["x"; "u"]) (outputs := ["y"]) (T := 2)
            NoDup_x_u _ eq_refl eq_refl).
  apply NoDup_singleton.
Defined.

Lemma pack_jacobians_identity_entry_raises_witness :
  exists e, pack_jacobians garbage J_identity ["x"] ["y"] 2 = Raise e.
Proof.
  refine (pack_jacobians_identity_entry_raises garbage (jacdict := J_identity)
            (inputs := ["x"]) (outputs := ["y"]) 2 (o := "y") (i := "x") _ _ eq_refl).
  - left.
  - left.
Defined.

(** ** Examples for the graph *)

Lemma curlyJ_sorted_rejects_witness :
  exists msg,
    curlyJ_sorted topological_sort no_all_Js [block_y; block_y] ["x"] tt
      = Raise (ValueError msg).
Proof.
  apply curlyJ_sorted_rejects. intros [_ Hnodup]. cbv in Hnodup.
  apply NoDup_cons in Hnodup as [Hin _]. apply Hin. left.
Defined.




Lemma curlyJ_sorted_dependencies_witness :
  exists dep,
    build_dep [block_z; block_y] [("z", 0); ("y", 1)] = Ok (dep, {["y"]}) /\
    (forall num, is_Some (dep !! num) <-> num < length [block_z; block_y]) /\
    forall num n', n' ∈ default ∅ (dep !! num) <->
      exists b b' i, [block_z; block_y] !! num = Some b /\
                     [block_z; block_y] !! n' = Some b' /\
                     i ∈ declared_inputs b /\ i ∈ declared_outputs b'.
Proof.
  destruct (build_dep [block_z; block_y] [("z", 0); ("y", 1)]) as [[dep required]|]
    eqn:Hdep; [|by vm_compute in Hdep].
  assert (required = {["y"]}) as -> by (vm_compute in Hdep; by injection Hdep as _ <-).
  exists dep. split; [done|].
  exact (curlyJ_sorted_dependencies (block_list := [block_z; block_y]) eq_refl Hdep).
Defined.

Lemma curlyJ_sorted_order_witness :
  exists outmap dep topsorted,
    build_outmap [block_z; block_y] = Ok outmap /\
    build_dep [block_z; block_y] outmap = Ok (dep, {["y"]}) /\
    topological_sort dep = Ok topsorted /\
    Forall2 (fun num jac =>
               exists b, [block_z; block_y] !! num = Some b /\
                         block_jacobian no_all_Js tt (list_to_set ["x"] ∪ {["y"]}) b jac)
            topsorted [ [("y", [("x", 2%Z)])]; [("z", [("y", 3%Z)])] ].
Proof.
  apply (curlyJ_sorted_order (topological_sort := topological_sort)
           (all_Js := no_all_Js) (block_list := [block_z; block_y])
           (inputs := ["x"]) (ss := tt)).
  vm_compute. reflexivity.
Defined.

(** ** Examples for forward accumulation *)

(** Three blocks, one of which nothing asks for: [w] is neither wanted nor
    needed for [z], so pruning empties its dictionary. *)
Definition three_blocks : list (dict (dict Z)) :=
  [ [("y", [("x", 2%Z)])]; [("w", [("x", 5%Z)])]; [("z", [("y", 3%Z)])] ].

Example prune_three_blocks :
  prune (alloutputs_of (Some ["z"]) (Some ["y"])) <$> three_blocks =
  [ [("y", [("x", 2%Z)])]; []; [("z", [("y", 3%Z)])] ].
Proof. reflexivity. Qed.

Example forward_three_blocks_pruned :
  accumulate three_blocks (Names ["x"]) (Some ["z"]) (Some ["y"]) =
    Ok (JacOut [("x", [("x", 1%Z)]); ("y", [("x", 2%Z)]); ("z", [("x", 6%Z)])]) /\
  accumulate three_blocks (Names ["x"]) (Some ["z"]) None =
    Ok (JacOut [("x", [("x", 1%Z)]); ("y", [("x", 2%Z)]); ("w", [("x", 5%Z)]);
                ("z", [("x", 6%Z)])]).
Proof. split; reflexivity. Qed.

Lemma wf_three_blocks : Forall wf three_blocks.
Proof.
  unfold three_blocks. apply Forall_cons. split; [solve_wf|].
  apply Forall_cons. split; [solve_wf|].
  apply Forall_cons. split; [solve_wf|]. apply Forall_nil_2.
Qed.

Lemma closed_three_blocks :
  closed_under_inputs (list_to_set ["z"] ∪ list_to_set ["y"]) three_blocks.
Proof.
  intros curlyJ o row m HJ _ Hrow Hm (curlyJ' & HJ' & Hm').
  assert (m = "x" \/ m = "y") as [->| ->]; [| |set_solver].
  - unfold three_blocks in HJ.
    repeat (apply elem_of_cons in HJ as [->|HJ]);
      [| | |by apply elem_of_nil in HJ];
      simpl in Hrow; case_decide; simplify_eq;
      unfold keys in Hm; simpl in Hm; apply list_elem_of_singleton in Hm; auto.
  - exfalso. unfold three_blocks in HJ'.
    repeat (apply elem_of_cons in HJ' as [->|HJ']);
      [| | |by apply elem_of_nil in HJ'];
      unfold keys in Hm'; simpl in Hm'; apply list_elem_of_singleton in Hm';
      discriminate Hm'.
Qed.

Lemma forward_accumulate_pruning_witness :
  prune (alloutputs_of (Some ["z"]) (Some ["y"])) <$> three_blocks ≠ three_blocks /\
  forward_accumulate three_blocks (Names ["x"]) (Some ["z"]) (Some ["y"]) =
  forward_accumulate three_blocks (Names ["x"]) (Some ["z"]) None.
Proof.
  split; [discriminate|].
  exact (forward_accumulate_pruning (Names ["x"]) wf_three_blocks closed_three_blocks).
Defined.

Definition block_w : block Z := BlockDict [("w", [("x", 5%Z)])].

(** The sort puts [y] before [z]; [required] holds [y] only, so the
    dictionary of [w] is pruned away when [z] alone is asked for. *)
Example curlyJ_sorted_three_blocks :
  curlyJ_sorted topological_sort no_all_Js [block_z; block_w; block_y] ["x"] tt =
  Ok (three_blocks, {["y"]}).
Proof. vm_compute. reflexivity. Qed.



Lemma scalar_identity_r : forall v : Z, matmul v IdentityMatrix = v.
Proof. intros v. simpl. lia. Qed.

Lemma wf_J_block : wf_jacdict Scalar.J_block.
Proof. solve_wf. Qed.

Lemma compose_jacobians_identity_witness :
  exists new,
    compose_jacobians (identity_jacdict ["x"; "y"]) Scalar.J_block = Ok new /\
    keys new = keys Scalar.J_block /\
    forall output innerjac1, get Scalar.J_block output = Some innerjac1 ->
      exists row,
        get new output = Some row /\
        forall inp, get row inp =
          if bool_decide (inp ∈ ["x"; "y"]) then get innerjac1 inp else None.
Proof.
  exact (compose_jacobians_identity ["x"; "y"] scalar_identity_r wf_J_block).
Defined.

Example compose_jacobians_identity_example :
  compose_jacobians (identity_jacdict ["x"; "y"]) Scalar.J_block =
  Ok [("z", [("x", 3%Z); ("y", 5%Z)])].
Proof. reflexivity. Qed.

Lemma wf_J_accumulated : wf Scalar.J_accumulated.
Proof. solve_wf. Qed.

Lemma apply_jacobians_compose_witness :
  exists composed middle direct stepwise,
    compose_jacobians Scalar.J_accumulated Scalar.J_block = Ok composed /\
    apply_jacobians Scalar.J_accumulated [("x", 10%Z)] = Ok middle /\
    apply_jacobians composed [("x", 10%Z)] = Ok direct /\
    apply_jacobians Scalar.J_block middle = Ok stepwise /\
    forall k, get direct k = get stepwise k.
Proof.
  exact (apply_jacobians_compose [("x", 10%Z)] (proj1 wf_J_block) wf_J_accumulated).
Defined.




(** A store in which one output sums two products: the second product is
    added in place to the array that holds the first. *)
Definition shared_store : store Z :=
  mk_store [2; 3; 10; 100]%Z [ [("x", 2); ("y", 3)] ].

Definition summing_block_refs : list (dict (dict ref)) :=
  [ [("z", [("x", 0); ("y", 1)])] ].

Example forward_accumulate_obj_sums_in_place :
  forward_accumulate_obj always_in_place shared_store summing_block_refs 0 None None =
  Ok (1, mk_store [2; 3; 10; 100; 320; 300]%Z
           [ [("x", 2); ("y", 3)]; [("x", 2); ("y", 3); ("z", 4)]; [("z", 4)] ]).
Proof. reflexivity. Qed.

Lemma forward_accumulate_obj_values_witness :
  exists res st' resd,
    forward_accumulate_obj always_in_place shared_store summing_block_refs 0 None None
      = Ok (res, st') /\
    dicts st' !! res = Some resd /\
    forward_accumulate (deref_jacdict shared_store <$> summing_block_refs)
      (Sequences (deref_dict shared_store [("x", 2); ("y", 3)])) None None
      = Ok (SeqOut (deref_dict st' resd)).
Proof.
  apply (forward_accumulate_obj_values always_in_place (st := shared_store)
           (curlyJs := summing_block_refs) (inputs := 0) None None
           (ind := [("x", 2); ("y", 3)])).
  - reflexivity.
  - unfold refs_between, shared_store. simpl. repeat (constructor; [simpl; lia|]).
    constructor.
  - unfold summing_block_refs, jacdict_below, refs_between, shared_store. simpl.
    repeat constructor; simpl; lia.
Defined.
